(** * ArrowStore: a shallow embedding of the lazy pipeline, the mask
    evaluator, the SQL filter compiler and the pivot engine.

    Conventions of the embedding.
    - JavaScript values are the inductive [value]; JS numbers are modelled
      by integers ([Z]), so fractions, NaN and the infinities are outside
      the model.  The conversion of a string to a number (ToNumber on
      strings) and [String.prototype.localeCompare] are parameters of the
      development.
    - A method that can throw returns a [result]; the error carries the
      message of the thrown [Error].
    - An Arrow table is the ordered list of its named column vectors; an
      invalid (null) slot of a vector is the cell [VNull].
    - A [Uint8Array] is a list of integers; reads and writes by index use
      list lookup and insert, which like a typed array ignore a write out
      of range. *)

From Stdlib Require Import ZArith String Ascii List Bool Lia DecimalString
  Sorted.
From stdpp Require Import base tactics option list strings gmap.
Import ListNotations.

Set Default Proof Using "Type".
Set Warnings "-register-all,-abstract-large-number".

(** ** Results of fallible code *)

Inductive result (A : Type) : Type :=
| Ok (a : A)
| Err (message : string).
Arguments Ok {A} a.
Arguments Err {A} message.

Definition bind {A B} (r : result A) (k : A -> result B) : result B :=
  match r with
  | Ok a => k a
  | Err e => Err e
  end.

Notation "'let*' x ':=' r 'in' k" := (bind r (fun x => k))
  (at level 10, x name, r at level 100, k at level 200).

(** [try { body } catch (error) { throw new Error(prefix + error.message) }] *)
Definition rewrap {A} (prefix : string) (r : result A) : result A :=
  match r with
  | Ok a => Ok a
  | Err e => Err (prefix +:+ e)
  end.

(** ** JavaScript values *)

Inductive value : Type :=
| VNull
| VUndefined
| VBool (b : bool)
| VNum (n : Z)
| VStr (s : string)
| VArr (items : list value)
| VObj (props : list (string * value)).

Inductive jstype := TUndefined | TObject | TBoolean | TNumber | TString.

Definition typeof (v : value) : jstype :=
  match v with
  | VNull => TObject
  | VUndefined => TUndefined
  | VBool _ => TBoolean
  | VNum _ => TNumber
  | VStr _ => TString
  | VArr _ => TObject
  | VObj _ => TObject
  end.

Definition is_number (v : value) : bool :=
  match v with VNum _ => true | _ => false end.

Definition is_string (v : value) : bool :=
  match v with VStr _ => true | _ => false end.

(** [v === null] *)
Definition is_null (v : value) : bool :=
  match v with VNull => true | _ => false end.

(** [v === null || v === undefined] *)
Definition is_nullish (v : value) : bool :=
  match v with VNull | VUndefined => true | _ => false end.

(** [a === b].  Arrays and objects are compared by identity; a cell read
    from a vector and an operand of a filter are never the same object. *)
Definition strict_eq (a b : value) : bool :=
  match a, b with
  | VNull, VNull => true
  | VUndefined, VUndefined => true
  | VBool x, VBool y => Bool.eqb x y
  | VNum x, VNum y => Z.eqb x y
  | VStr x, VStr y => String.eqb x y
  | _, _ => false
  end.

(** [Array.isArray(value) && value.includes(x)] (SameValueZero, which on the
    values of the model is [===]). *)
Definition array_includes (arr : value) (x : value) : bool :=
  match arr with
  | VArr items => existsb (fun y => strict_eq y x) items
  | _ => false
  end.

Definition string_of_Z (n : Z) : string :=
  NilZero.string_of_int (Z.to_int n).

Fixpoint join (sep : string) (l : list string) : string :=
  match l with
  | [] => EmptyString
  | [s] => s
  | s :: r => s +:+ sep +:+ join sep r
  end.

(** The double quote and the backslash. *)
Definition dquote : ascii := "034"%char.
Definition backslash : ascii := "092"%char.

(** [String(v)] *)
Fixpoint String_ (v : value) : string :=
  match v with
  | VNull => "null"
  | VUndefined => "undefined"
  | VBool true => "true"
  | VBool false => "false"
  | VNum n => string_of_Z n
  | VStr s => s
  | VArr items =>
      join "," (List.map (fun x => if is_nullish x then EmptyString
                                   else String_ x) items)
  | VObj _ => "[object Object]"
  end.

(** [s.includes(sub)], [s.startsWith(sub)], [s.endsWith(sub)] *)
Fixpoint includes (s sub : string) : bool :=
  String.prefix sub s ||
  match s with
  | EmptyString => false
  | String _ rest => includes rest sub
  end.

Definition startsWith (s sub : string) : bool := String.prefix sub s.

Definition endsWith (s sub : string) : bool :=
  let n := String.length s in
  let m := String.length sub in
  (m <=? n) && String.eqb (String.substring (n - m) m s) sub.

(** ** Tables and schemas *)

Definition Vector := list value.

(** [vector.get(i)]: an invalid slot reads as [null]. *)
Definition get (vector : Vector) (i : nat) : value := nth i vector VNull.

(** [vector.isValid(i)] *)
Definition isValid (vector : Vector) (i : nat) : bool :=
  negb (is_null (get vector i)).

Definition Table := list (string * Vector).

Definition numRows (table : Table) : nat :=
  match table with
  | [] => 0
  | (_, vector) :: _ => length vector
  end.

Definition fieldNamesOf (table : Table) : list string := List.map fst table.

(** [table.getChild(name)]: the first column called [name]; a name that
    is not a string matches no column. *)
Fixpoint getChild (table : Table) (name : value) : option Vector :=
  match table with
  | [] => None
  | (n, vector) :: rest =>
      if strict_eq (VStr n) name then Some vector else getChild rest name
  end.

Record ColumnSchema := {
  name : string;
  type : string;
  nullable : option bool
}.

Record TableSchema := {
  tableName : string;
  columns : list ColumnSchema
}.

(** ** Filter conditions (filter-helpers) *)

(** The types of the source say that [field] and [op] are strings; a
    condition read from JSON can carry any value there, so both are
    values, and the code's string tests are [===] against a literal. *)

Record BasicFilter := {
  op : value;
  fvalue : value
}.

Inductive FilterCondition : Type :=
| AND (conditions : list FilterCondition)
| OR (conditions : list FilterCondition)
| NOT (condition : FilterCondition)
| FieldFilter (field : value) (filter : BasicFilter).

(** [op === s] for a string literal [s] *)
Definition op_is (op : value) (s : string) : bool := strict_eq op (VStr s).

(** [[s1, ..., sn].includes(op)] *)
Definition op_in (op : value) (ops : list string) : bool :=
  existsb (op_is op) ops.

Abbreviation Mask := (list Z).

(** [new Uint8Array(n).fill(b)] *)
Definition filled (n : nat) (b : Z) : Mask := replicate n b.

(** ** Batched loops

    [for (i = 0; i < n; i += batchSize) { end = min(i + batchSize, n);
       for (j = i; j < end; j++) body(j) }]
    The outer loop runs over the batches listed by [batches]; each batch
    is the list of its row indices.  Every pass advances [i] by
    [batchSize], so [n] passes are enough fuel when [batchSize] is not 0. *)

Fixpoint batch_starts (fuel i n batchSize : nat) : list nat :=
  match fuel with
  | O => []
  | S fuel' =>
      if i <? n then i :: batch_starts fuel' (i + batchSize) n batchSize
      else []
  end.

Definition batches (n batchSize : nat) : list (list nat) :=
  List.map (fun i => seq i (Nat.min (i + batchSize) n - i))
    (batch_starts n 0 n batchSize).

Definition batched_indices (n batchSize : nat) : list nat :=
  concat (batches n batchSize).

(** ** JavaScript objects used as records

    A [Record<string, A>] is an association list in insertion order:
    writing an existing key replaces its value in place, writing a new key
    appends it.  A JavaScript object lists the keys that are array
    indices before the others and finds the names it inherits; the
    association list is the object for the other keys; a theorem that
    states the columns of a table rebuilt through a record asks this of
    the column names. *)

Fixpoint obj_get {A} (o : list (string * A)) (k : string) : option A :=
  match o with
  | [] => None
  | (k', v) :: rest => if String.eqb k' k then Some v else obj_get rest k
  end.

Fixpoint obj_set {A} (o : list (string * A)) (k : string) (v : A)
  : list (string * A) :=
  match o with
  | [] => [(k, v)]
  | (k', v') :: rest =>
      if String.eqb k' k then (k, v) :: rest
      else (k', v') :: obj_set rest k v
  end.

(** [row[k]]: a missing property reads as [undefined]. *)
Definition prop (row : list (string * value)) (k : string) : value :=
  match obj_get row k with
  | Some v => v
  | None => VUndefined
  end.

(** [arr[i] = v] on a JS array: a write past the end extends the array,
    the slots in between are holes (read as [undefined]). *)
Definition arr_set (arr : list value) (i : nat) (v : value) : list value :=
  if i <? length arr then <[i:=v]> arr
  else arr ++ replicate (i - length arr) VUndefined ++ [v].

(** [tableFromArrays(columns)]: one vector per key, in key order; [null]
    and [undefined] entries become invalid slots.  Arrow throws for a
    column whose cells are of several kinds; a theorem that states what
    a rebuilt table holds asks for columns of one kind. *)
Definition tableFromArrays (cols : list (string * list value)) : Table :=
  List.map (fun '(k, arr) =>
              (k, List.map (fun v => if is_nullish v then VNull else v) arr))
           cols.

(** [makeTable({})] *)
Definition makeTable_empty : Table := [].

(** ** The mask evaluator (ArrowStore.ts) *)

Section Engine.

(** ToNumber on a string ([None] stands for NaN) and
    [String.prototype.localeCompare]. *)
Context (StringToNumber : string -> option Z).
Context (localeCompare : string -> string -> Z).

(** ToPrimitive with hint number: an array or object is turned into its
    string. *)
Definition ToPrimitive (v : value) : value :=
  match v with
  | VArr _ | VObj _ => VStr (String_ v)
  | _ => v
  end.

(** ToNumber of a primitive; [None] stands for NaN. *)
Definition ToNumber (v : value) : option Z :=
  match v with
  | VNull => Some 0%Z
  | VUndefined => None
  | VBool b => Some (if b then 1%Z else 0%Z)
  | VNum n => Some n
  | VStr s => StringToNumber s
  | VArr _ | VObj _ => None
  end.

(** The abstract relational comparison [x < y]; [None] is the undefined
    outcome (an operand is NaN). *)
Definition IsLessThan (x y : value) : option bool :=
  match ToPrimitive x, ToPrimitive y with
  | VStr a, VStr b => Some (String.ltb a b)
  | px, py =>
      match ToNumber px, ToNumber py with
      | Some a, Some b => Some (a <? b)%Z
      | _, _ => None
      end
  end.

Definition js_lt (a b : value) : bool :=
  match IsLessThan a b with Some true => true | _ => false end.
Definition js_gt (a b : value) : bool :=
  match IsLessThan b a with Some true => true | _ => false end.
Definition js_lte (a b : value) : bool :=
  match IsLessThan b a with Some false => true | _ => false end.
Definition js_gte (a b : value) : bool :=
  match IsLessThan a b with Some false => true | _ => false end.

(** [mask[j] === 0] and [mask[j] = 0] *)
Definition filtered_out (mask : Mask) (j : nat) : bool :=
  match mask !! j with
  | Some b => (b =? 0)%Z
  | None => false
  end.

Definition clear (mask : Mask) (j : nat) : Mask := <[j:=0%Z]> mask.

(** The body of the row loop of each operator family. *)
Definition eq_row (value : value) (vector : Vector) (mask : Mask) (j : nat)
  : Mask :=
  if filtered_out mask j then mask
  else if is_null value then
    (if isValid vector j then clear mask j else mask)
  else if negb (isValid vector j) then clear mask j
  else if negb (strict_eq (get vector j) value) then clear mask j
  else mask.

Definition neq_row (value : value) (vector : Vector) (mask : Mask) (j : nat)
  : Mask :=
  if filtered_out mask j then mask
  else if is_null value then
    (if negb (isValid vector j) then clear mask j else mask)
  else if negb (isValid vector j) then mask
  else if strict_eq (get vector j) value then clear mask j
  else mask.

Definition range_row (op : value) (value : value) (vector : Vector)
    (mask : Mask) (j : nat) : Mask :=
  if filtered_out mask j then mask
  else if is_null value then clear mask j
  else if negb (isValid vector j) then clear mask j
  else
    let cellValue := get vector j in
    if negb (is_number cellValue) && is_number value then clear mask j
    else
      let keep :=
        if op_is op "gt" then js_gt cellValue value
        else if op_is op "gte" then js_gte cellValue value
        else if op_is op "lt" then js_lt cellValue value
        else if op_is op "lte" then js_lte cellValue value
        else false in
      if negb keep then clear mask j else mask.

Definition string_row (op : value) (value : value) (vector : Vector)
    (mask : Mask) (j : nat) : Mask :=
  if filtered_out mask j then mask
  else if is_null value then clear mask j
  else if negb (isValid vector j) then clear mask j
  else
    match get vector j with
    | VStr cellValue =>
        let keep :=
          if op_is op "contains"
          then includes cellValue (String_ value)
          else if op_is op "startsWith"
          then startsWith cellValue (String_ value)
          else if op_is op "endsWith"
          then endsWith cellValue (String_ value)
          else false in
        if negb keep then clear mask j else mask
    | _ => clear mask j
    end.

Definition in_row (value : value) (vector : Vector) (mask : Mask) (j : nat)
  : Mask :=
  if filtered_out mask j then mask
  else
    let rest :=
      if negb (array_includes value (get vector j)) then clear mask j
      else mask in
    if array_includes value VNull then
      (if negb (isValid vector j) then mask else rest)
    else
      (if negb (isValid vector j) then clear mask j else rest).

(** [evaluateBasicFilter(table, field, filter, mask)] *)
Definition evaluateBasicFilter (table : Table) (field : value)
    (filter : BasicFilter) (mask : Mask) : result Mask :=
  match getChild table field with
  | None =>
      Err ("Implementation error: Field '" +:+ String_ field
           +:+ "' exists in schema but not in table data.")
  | Some vector =>
      let rows := batched_indices (numRows table) 1000 in
      let op := op filter in
      let value := fvalue filter in
      if op_is op "eq" then Ok (foldl (eq_row value vector) mask rows)
      else if op_is op "neq"
      then Ok (foldl (neq_row value vector) mask rows)
      else if op_in op ["gt"; "gte"; "lt"; "lte"]
      then Ok (foldl (range_row op value vector) mask rows)
      else if op_in op ["contains"; "startsWith"; "endsWith"]
      then Ok (foldl (string_row op value vector) mask rows)
      else if op_is op "in"
      then Ok (foldl (in_row value vector) mask rows)
      else Ok mask
  end.

(** [validateField(fieldName)], against [this._schema] *)
Definition validateField (schema : TableSchema) (fieldName : value)
  : result unit :=
  let fieldNames := List.map name (columns schema) in
  if existsb (fun n => strict_eq (VStr n) fieldName) fieldNames then Ok tt
  else Err ("Filter error: Field '" +:+ String_ fieldName
            +:+ "' does not exist in the table schema. Available fields are: "
            +:+ join ", " fieldNames).

(** [evaluateFilterCondition(table, condition, mask)]; the mask that the
    source updates in place is returned. *)
Fixpoint evaluateFilterCondition (schema : TableSchema) (table : Table)
    (condition : FilterCondition) (mask : Mask) : result Mask :=
  match condition with
  | AND conditions =>
      (fix each (l : list FilterCondition) (mask : Mask) : result Mask :=
         match l with
         | [] => Ok mask
         | subCondition :: rest =>
             let* mask' :=
               evaluateFilterCondition schema table subCondition mask in
             each rest mask'
         end) conditions mask
  | OR conditions =>
      let* orMask :=
        (fix each (l : list FilterCondition) (orMask : Mask) : result Mask :=
           match l with
           | [] => Ok orMask
           | subCondition :: rest =>
               let* tempMask :=
                 evaluateFilterCondition schema table subCondition
                   (filled (length mask) 1%Z) in
               each rest
                 (zip_with (fun o t => if (o =? 0)%Z then t else o)
                    orMask tempMask)
           end) conditions (filled (length mask) 0%Z) in
      Ok (zip_with Z.land mask orMask)
  | NOT condition =>
      let* notMask :=
        evaluateFilterCondition schema table condition
          (filled (length mask) 1%Z) in
      let notMask' :=
        List.map (fun b => if (b =? 0)%Z then 1%Z else 0%Z) notMask in
      Ok (zip_with Z.land mask notMask')
  | FieldFilter field filter =>
      let* _ := validateField schema field in
      evaluateBasicFilter table field filter mask
  end.

(** [createComplexFilterMask(table, filters)] *)
Definition createComplexFilterMask (schema : TableSchema) (table : Table)
    (filters : list FilterCondition) : result Mask :=
  foldl (fun acc condition =>
           let* mask := acc in
           evaluateFilterCondition schema table condition mask)
        (Ok (filled (numRows table) 1%Z)) filters.

(** ** The null policy, as the specification words it

    [null_policy op value cell] tells whether a row whose cell is [cell]
    is kept by the basic filter [{op, value}]. *)

Definition basic_ops : list string :=
  ["eq"; "neq"; "gt"; "gte"; "lt"; "lte";
   "contains"; "startsWith"; "endsWith"; "in"].

Definition comparison_holds (op : value) (cell value : value) : bool :=
  if op_is op "gt" then js_gt cell value
  else if op_is op "gte" then js_gte cell value
  else if op_is op "lt" then js_lt cell value
  else js_lte cell value.

Definition string_test (op : value) (cell : value) (value : value) : bool :=
  match cell with
  | VStr s =>
      if op_is op "contains" then includes s (String_ value)
      else if op_is op "startsWith" then startsWith s (String_ value)
      else endsWith s (String_ value)
  | _ => false
  end.

Definition null_policy (op : value) (value cell : value) : bool :=
  if op_is op "eq" then
    if is_null value then is_null cell
    else if is_null cell then false
    else strict_eq cell value
  else if op_is op "neq" then
    if is_null value then negb (is_null cell)
    else if is_null cell then true
    else negb (strict_eq cell value)
  else if op_in op ["gt"; "gte"; "lt"; "lte"] then
    if is_null value then false
    else if is_null cell then false
    else if negb (is_number cell) && is_number value then false
    else comparison_holds op cell value
  else if op_in op ["contains"; "startsWith"; "endsWith"] then
    if is_null value then false
    else if is_null cell then false
    else string_test op cell value
  else if op_is op "in" then
    if is_null cell then array_includes value VNull
    else array_includes value cell
  else true.

(** A row loop that only ever clears the bit of the row it visits. *)
Definition narrow (keep : nat -> bool) (mask : Mask) (j : nat) : Mask :=
  if filtered_out mask j then mask
  else if keep j then mask
  else clear mask j.

End Engine.

(** What a narrowing row loop leaves of the bit [b] of row [i]. *)
Definition kept_bit (keep : nat -> bool) (i : nat) (b : Z) : Z :=
  if (b =? 0)%Z then b else if keep i then b else 0%Z.


(** ** Row-wise meaning of a condition

    [keeps table c i] is the boolean the condition [c] denotes at row [i]:
    conjunction for [AND], disjunction for [OR], negation for [NOT], the
    null policy for a field condition.  [select keep mask] keeps the bits
    of [mask] at the rows where [keep] holds and clears the others. *)

Section MaskSemantics.

Context (StringToNumber : string -> option Z).

Fixpoint keeps (table : Table) (c : FilterCondition) (i : nat) : bool :=
  match c with
  | AND conditions => forallb (fun c' => keeps table c' i) conditions
  | OR conditions => existsb (fun c' => keeps table c' i) conditions
  | NOT c' => negb (keeps table c' i)
  | FieldFilter field filter =>
      match getChild table field with
      | Some vector =>
          null_policy StringToNumber (op filter) (fvalue filter)
            (get vector i)
      | None => true
      end
  end.

Definition select (keep : nat -> bool) (mask : Mask) : Mask :=
  imap (fun i b => if keep i then b else 0%Z) mask.

(** Every field the condition mentions is a column of the schema and of
    the table. *)
Fixpoint fields_exist (schema : TableSchema) (table : Table)
    (c : FilterCondition) : bool :=
  match c with
  | AND conditions => forallb (fields_exist schema table) conditions
  | OR conditions => forallb (fields_exist schema table) conditions
  | NOT c' => fields_exist schema table c'
  | FieldFilter field _ =>
      existsb (fun n => strict_eq (VStr n) field)
        (List.map name (columns schema))
      && match getChild table field with Some _ => true | None => false end
  end.

(** The mask computed for a condition, starting from an all-ones mask. *)
Definition mask_of (schema : TableSchema) (table : Table)
    (c : FilterCondition) : result Mask :=
  evaluateFilterCondition StringToNumber schema table c
    (filled (numRows table) 1%Z).

End MaskSemantics.

(** A mask whose entries are all 0 or 1. *)
Definition mask01 (mask : Mask) : Prop :=
  Forall (fun b => b = 0%Z \/ b = 1%Z) mask.

(** Bitwise operations on masks of equal length; the complement flips the
    keep bit of every row. *)
Definition mask_and (a b : Mask) : Mask := zip_with Z.land a b.
Definition mask_or (a b : Mask) : Mask := zip_with Z.lor a b.
Definition mask_not (a : Mask) : Mask := List.map (fun b => Z.lxor b 1) a.

(** ** Applying a mask (ArrowStore.ts, [applyFilterMask]) *)

(** [mask[j] === 1] *)
Definition mask_keeps (mask : Mask) (j : nat) : bool :=
  match mask !! j with
  | Some b => (b =? 1)%Z
  | None => false
  end.

(** [filteredVectors[field][i] = v] *)
Definition write_cell (filteredVectors : list (string * list value))
    (field : string) (i : nat) (v : value) : list (string * list value) :=
  match obj_get filteredVectors field with
  | Some arr => obj_set filteredVectors field (arr_set arr i v)
  | None => filteredVectors
  end.

(** The body of the batch loop: collect the kept indices of the batch and
    copy their cells, column by column. *)
Definition copy_batch (table : Table) (mask : Mask)
    (state : list (string * list value) * nat) (batch : list nat)
  : list (string * list value) * nat :=
  let '(filteredVectors, resultIndex) := state in
  let indices := List.filter (mask_keeps mask) batch in
  if length indices =? 0 then state
  else
    let filteredVectors' :=
      foldl (fun fv field =>
               match getChild table (VStr field) with
               | Some vector =>
                   foldl (fun fv '(idx, rowIdx) =>
                            write_cell fv field (resultIndex + idx)
                              (if isValid vector rowIdx
                               then get vector rowIdx else VNull))
                     fv (combine (seq 0 (length indices)) indices)
               | None =>
                   foldl (fun fv idx =>
                            write_cell fv field (resultIndex + idx) VNull)
                     fv (seq 0 (length indices))
               end)
        filteredVectors (fieldNamesOf table) in
    (filteredVectors', resultIndex + length indices).

Definition applyFilterMask (table : Table) (mask : Mask) : Table :=
  let resultRowCount := foldl Z.add 0%Z mask in
  if (resultRowCount =? 0)%Z then makeTable_empty
  else if (resultRowCount =? Z.of_nat (numRows table))%Z then table
  else
    let filteredVectors :=
      foldl (fun fv field =>
               obj_set fv field
                 (replicate (Z.to_nat resultRowCount) VUndefined))
        [] (fieldNamesOf table) in
    tableFromArrays
      (fst (foldl (copy_batch table mask) (filteredVectors, 0)
              (batches (numRows table) 1000))).

(** ** Pipeline steps *)

(** What an executor resolves to: [{ table, schema? }]. *)
Record StepResult := {
  res_table : Table;
  res_schema : option TableSchema
}.

(** An executor is a closure over the store that created it; it runs on
    the table it is given and reads [this._schema] of that store, which is
    the first argument here. *)
Definition Executor := TableSchema -> Table -> result StepResult.

Section Steps.

Context (StringToNumber : string -> option Z).

(** [validateFilterCondition] and [validateFilterFields] *)
Fixpoint validateFilterCondition (schema : TableSchema)
    (condition : FilterCondition) : result unit :=
  match condition with
  | AND conditions =>
      (fix each (l : list FilterCondition) : result unit :=
         match l with
         | [] => Ok tt
         | subCondition :: rest =>
             let* _ := validateFilterCondition schema subCondition in
             each rest
         end) conditions
  | OR conditions =>
      (fix each (l : list FilterCondition) : result unit :=
         match l with
         | [] => Ok tt
         | subCondition :: rest =>
             let* _ := validateFilterCondition schema subCondition in
             each rest
         end) conditions
  | NOT condition => validateFilterCondition schema condition
  | FieldFilter field _ => validateField schema field
  end.

Fixpoint validateFilterFields (schema : TableSchema)
    (filters : list FilterCondition) : result unit :=
  match filters with
  | [] => Ok tt
  | condition :: rest =>
      let* _ := validateFilterCondition schema condition in
      validateFilterFields schema rest
  end.

(** The executor queued by [filter(filters)]. *)
Definition filter_executor (filters : list FilterCondition) : Executor :=
  fun this_schema table =>
    rewrap "Error filtering data: "
      (let* _ := validateFilterFields this_schema filters in
       let* mask :=
         createComplexFilterMask StringToNumber this_schema table filters in
       Ok {| res_table := applyFilterMask table mask;
             res_schema := Some this_schema |}).

(** [new Table(table.schema)]: the columns of [table], with no row. *)
Definition emptyLike (table : Table) : Table :=
  List.map (fun '(n, _) => (n, [])) table.

(** The executor queued by [groupBy(field, aggregations)].  The grouping
    and aggregation work that follows the column lookup is the parameter
    [aggregate]. *)
Definition groupBy_executor {Aggregations : Type}
    (aggregate : Table -> Vector -> Aggregations -> result StepResult)
    (field : string) (aggregations : Aggregations) : Executor :=
  fun _ table =>
    match getChild table (VStr field) with
    | None => Ok {| res_table := emptyLike table; res_schema := None |}
    | Some groupByVector => aggregate table groupByVector aggregations
    end.

(** The executor queued when parsing a filter fails:
    [async (table) => ({ table })]. *)
Definition identity_executor : Executor :=
  fun _ table => Ok {| res_table := table; res_schema := None |}.

End Steps.

(** ** The lazy pipeline (ArrowStore.ts) *)

(** A queued operation is the closure [newOp] built by [createInstance]:
    it captures the store that created it ([this], here [owner]) and the
    executor. *)
Record Operation := {
  owner : nat;
  executor : Executor
}.

(** The fields of an [ArrowStore] object. *)
Record ArrowStore := {
  table_ : Table;
  schema_ : TableSchema;
  pendingOperations : list Operation
}.

(** Stores are objects with identity: the heap lists the stores that have
    been constructed, and a store is named by its index. *)
Abbreviation Heap := (list ArrowStore).

(** [store._schema = schema] *)
Definition set_schema (h : Heap) (id : nat) (schema : TableSchema) : Heap :=
  match h !! id with
  | Some store =>
      <[id := {| table_ := table_ store; schema_ := schema;
                 pendingOperations := pendingOperations store |}]> h
  | None => h
  end.

(** [new ArrowStore(table, schema)] followed by the assignment of its
    queue. *)
Definition new_store (h : Heap) (table : Table) (schema : TableSchema)
    (pending : list Operation) : Heap * nat :=
  (h ++ [{| table_ := table; schema_ := schema;
            pendingOperations := pending |}], length h).

(** [createInstance(executor)], called on the store [this] *)
Definition createInstance (h : Heap) (this : nat) (executor : Executor)
  : Heap * nat :=
  match h !! this with
  | Some store =>
      new_store h (table_ store) (schema_ store)
        (pendingOperations store
           ++ [{| owner := this; executor := executor |}])
  | None => (h, this)
  end.

(** Calling a queued operation: [newOp(table, schema)] first stores the
    schema in its owner, then runs the executor. *)
Definition run_operation (operation : Operation) (h : Heap) (table : Table)
    (schema : TableSchema) : Heap * result StepResult :=
  (set_schema h (owner operation) schema,
   executor operation schema table).

(** The inner loop of [resolveTable]: the operations of one batch, in
    sequence, on the store [this]. *)
Fixpoint run_batch (this : nat) (batch : list Operation) (h : Heap)
    (currentTable : Table) (resolvedSchema : TableSchema)
  : Heap * result (Table * TableSchema) :=
  match batch with
  | [] => (h, Ok (currentTable, resolvedSchema))
  | operation :: rest =>
      let '(h1, r) := run_operation operation h currentTable resolvedSchema in
      match r with
      | Err e => (h1, Err e)
      | Ok result =>
          match res_schema result with
          | Some schema =>
              run_batch this rest (set_schema h1 this schema)
                (res_table result) schema
          | None => run_batch this rest h1 (res_table result) resolvedSchema
          end
      end
  end.

(** [l.slice(start, stop)] *)
Definition slice {A} (l : list A) (start stop : nat) : list A :=
  take (stop - start) (drop start l).

(** The outer loop of [resolveTable], over the batch starts. *)
Fixpoint run_batches (this : nat) (pending : list Operation)
    (starts : list nat) (batchSize : nat) (h : Heap) (currentTable : Table)
    (resolvedSchema : TableSchema) : Heap * result (Table * TableSchema) :=
  match starts with
  | [] => (h, Ok (currentTable, resolvedSchema))
  | i :: rest =>
      let batch := slice pending i (i + batchSize) in
      match run_batch this batch h currentTable resolvedSchema with
      | (h', Err e) => (h', Err e)
      | (h', Ok (table, schema)) =>
          run_batches this pending rest batchSize h' table schema
      end
  end.

(** The [try] block of [resolveTable]: the queue, in batches of 10. *)
Definition run_queue (this : nat) (pending : list Operation) (h : Heap)
    (currentTable : Table) (resolvedSchema : TableSchema)
  : Heap * result (Table * TableSchema) :=
  let batchSize := 10 in
  run_batches this pending
    (batch_starts (length pending) 0 (length pending) batchSize)
    batchSize h currentTable resolvedSchema.

(** [resolveTable()], called on the store [this]; an error of a step is
    caught and thrown again as it is. *)
Definition resolveTable (h : Heap) (this : nat) : Heap * result Table :=
  match h !! this with
  | None => (h, Err "no such store")
  | Some store =>
      let pending := pendingOperations store in
      if length pending =? 0 then (h, Ok (table_ store))
      else
        match run_queue this pending h (table_ store) (schema_ store) with
        | (h', Err e) => (h', Err e)
        | (h', Ok (currentTable, resolvedSchema)) =>
            (<[this := {| table_ := currentTable;
                          schema_ := resolvedSchema;
                          pendingOperations := [] |}]> h',
             Ok currentTable)
        end
  end.

(** [filter(filters)] and the fallback of [filterFromJson] *)
Definition filter_ (StringToNumber : string -> option Z) (h : Heap)
    (this : nat) (filters : list FilterCondition) : Heap * nat :=
  createInstance h this (filter_executor StringToNumber filters).

(** ** Steps applied one after the other, as the specification words it

    A step is a function from a table and a schema to a table and, maybe,
    a new schema.  [apply_in_order] applies the steps to the base table in
    the order of the list, each step once, each consuming the table and
    schema its predecessor produced; it stops at the first step that
    fails. *)
Fixpoint apply_in_order (steps : list Executor) (table : Table)
    (schema : TableSchema) : result (Table * TableSchema) :=
  match steps with
  | [] => Ok (table, schema)
  | step :: later =>
      let* out := step schema table in
      apply_in_order later (res_table out)
        (default schema (res_schema out))
  end.

(** The message of the TypeError raised by reading [key] on [null] or
    [undefined]. *)
Definition TypeError_read (o : value) (key : string) : string :=
  "Cannot read properties of " +:+ String_ o
  +:+ " (reading '" +:+ key +:+ "')".

(** ** Rows, and tables built from rows (helpers.ts) *)

Abbreviation Row := (list (string * value)).

(** [table.toArray()]: one row object per row, its properties in column
    order. *)
Definition toArray (table : Table) : list Row :=
  List.map (fun i => List.map (fun '(n, col) => (n, get col i)) table)
    (seq 0 (numRows table)).

(** [table.slice(start, stop)] *)
Definition table_slice (table : Table) (start stop : nat) : Table :=
  List.map (fun '(n, col) => (n, slice col start stop)) table.

(** [result[key].push(value)]; [None] is the TypeError raised when
    [result] has no such key. *)
Definition push_cell (result : list (string * list value)) (key : string)
    (v : value) : option (list (string * list value)) :=
  match obj_get result key with
  | Some arr => Some (obj_set result key (arr ++ [v]))
  | None => None
  end.

(** [arrayToColumnarFormat(rows)] *)
Definition arrayToColumnarFormat (rows : list Row)
  : result (list (string * list value)) :=
  match rows with
  | [] => Ok []
  | firstRow :: _ =>
      let result := foldl (fun r key => obj_set r key []) []
                      (List.map fst firstRow) in
      foldl (fun acc row =>
               foldl (fun acc '(key, v) =>
                        let* r := acc in
                        match push_cell r key v with
                        | Some r' => Ok r'
                        | None => Err (TypeError_read VUndefined "push")
                        end)
                 acc row)
        (Ok result) rows
  end.

(** ** Sorting (ArrowStore.ts, [sort]) *)

Inductive Direction := asc | desc.

Record SortOption := {
  sort_field : string;
  direction : Direction
}.

(** [Array.prototype.sort(compareFn)] is stable, and sorts by [compareFn]
    when that is a consistent comparator.  It is modelled by the stable
    insertion sort: an element goes in front of the first element of the
    sorted rest that it does not come after. *)
Fixpoint insert_sorted {A} (compareFn : A -> A -> Z) (x : A) (l : list A)
  : list A :=
  match l with
  | [] => [x]
  | y :: rest =>
      if (compareFn x y <=? 0)%Z then x :: l
      else y :: insert_sorted compareFn x rest
  end.

Definition array_sort {A} (compareFn : A -> A -> Z) (l : list A) : list A :=
  foldr (insert_sorted compareFn) [] l.

Section Sorting.

Context (StringToNumber : string -> option Z).
Context (localeCompare : string -> string -> Z).

(** [compare(a, b)] of helpers.ts *)
Definition compare (a b : value) : Z :=
  if is_nullish a then (if is_nullish b then 0 else -1)%Z
  else if is_nullish b then 1%Z
  else
    match a, b with
    | VStr x, VStr y => localeCompare x y
    | _, _ =>
        if js_lt StringToNumber a b then (-1)%Z
        else if js_gt StringToNumber a b then 1%Z
        else 0%Z
    end.

(** The comparator of the single-column sort, on row indices. *)
Definition index_compare (vector : Vector) (direction : Direction)
    (a b : nat) : Z :=
  let aValue := get vector a in
  let bValue := get vector b in
  if is_nullish aValue then (if is_nullish bValue then 0 else -1)%Z
  else if is_nullish bValue then 1%Z
  else
    let comparison := compare aValue bValue in
    match direction with
    | asc => comparison
    | desc => (- comparison)%Z
    end.

(** The comparator of the multi-column sort, on rows. *)
Fixpoint row_compare (options : list SortOption) (a b : Row) : Z :=
  match options with
  | [] => 0%Z
  | option :: rest =>
      let aValue := prop a (sort_field option) in
      let bValue := prop b (sort_field option) in
      if strict_eq aValue bValue then row_compare rest a b
      else
        let comparison := compare aValue bValue in
        match direction option with
        | asc => comparison
        | desc => (- comparison)%Z
        end
  end.

(** [sortedColumns[f.name].push(...)] for every field, for one row. *)
Definition gather_row (table : Table)
    (sortedColumns : list (string * list value)) (idx : nat)
  : list (string * list value) :=
  foldl (fun sc f =>
           let cell := match getChild table (VStr f) with
                       | Some col => get col idx
                       | None => VNull
                       end in
           match push_cell sc f cell with
           | Some sc' => sc'
           | None => sc
           end)
    sortedColumns (fieldNamesOf table).

(** [processBatches(table, batchSize, processFn)] *)
Definition processBatches (table : Table) (batchSize : nat)
    (processFn : list Row -> list Row) : result Table :=
  if numRows table <=? batchSize then
    let* cols := arrayToColumnarFormat (processFn (toArray table)) in
    Ok (tableFromArrays cols)
  else
    let results :=
      flat_map (fun i =>
                  processFn
                    (toArray (table_slice table i
                                (Nat.min (i + batchSize) (numRows table)))))
        (batch_starts (numRows table) 0 (numRows table) batchSize) in
    let* cols := arrayToColumnarFormat results in
    Ok (tableFromArrays cols).

(** The executor queued by [sort(options)]. *)
Definition sort_executor (options : list SortOption) : Executor :=
  fun this_schema table =>
    match options with
    | [] => Ok {| res_table := table; res_schema := None |}
    | [option] =>
        match getChild table (VStr (sort_field option)) with
        | None => Ok {| res_table := table; res_schema := None |}
        | Some vector =>
            let indices :=
              array_sort (index_compare vector (direction option))
                (seq 0 (numRows table)) in
            let sortedColumns :=
              foldl (fun sc f => obj_set sc f []) [] (fieldNamesOf table) in
            let sortedColumns' :=
              foldl (gather_row table) sortedColumns indices in
            Ok {| res_table := tableFromArrays sortedColumns';
                  res_schema := Some this_schema |}
        end
    | _ =>
        let* sorted :=
          processBatches table 10000 (array_sort (row_compare options)) in
        Ok {| res_table := sorted; res_schema := Some this_schema |}
    end.

End Sorting.

(** Row indices whose null cells come first. *)
Definition null_rows_first (vector : Vector) (indices : list nat) : Prop :=
  exists nulls others,
    indices = nulls ++ others /\
    Forall (fun i => is_nullish (get vector i) = true) nulls /\
    Forall (fun i => is_nullish (get vector i) = false) others.

(** A list is ordered by a comparator when no element comes after an
    element placed later in the list. *)
Definition ordered_by {A} (compareFn : A -> A -> Z) (l : list A) : Prop :=
  forall i j x y,
    i < j -> l !! i = Some x -> l !! j = Some y -> (compareFn x y <= 0)%Z.

(** A list whose null cells all come before its other cells. *)
Definition nulls_first (cells : list value) : Prop :=
  exists nulls others,
    cells = nulls ++ others /\
    Forall (fun v => is_nullish v = true) nulls /\
    Forall (fun v => is_nullish v = false) others.

(** ** Pivot (pivot.ts) *)

(** An entry of [using]: a field name, or a field with an aggregation
    and an optional name.  An aggregation is a function of the caller; it
    can throw. *)
Inductive Using :=
| UsingField (field : string)
| UsingSpec (field : string) (aggregation : list value -> result value)
    (name : option string).

Record ValueColumn := {
  vc_field : string;
  vc_aggregation : list value -> result value;
  vc_name : string
}.

Record OrderBy := {
  order_field : string;
  order_direction : Direction
}.

(** [on] is given as the array the source normalises it to. *)
Record PivotOptions := {
  on : list string;
  using_ : list Using;
  groupBy : list string;
  orderBy : option (list OrderBy);
  limit : option Z
}.

(** [set.add(v)] on a [Set], kept in insertion order *)
Definition set_add (set : list value) (v : value) : list value :=
  if existsb (fun x => strict_eq x v) set then set else set ++ [v].

(** [{ ...a, ...b }] *)
Definition obj_merge {A} (a b : list (string * A)) : list (string * A) :=
  foldl (fun o '(k, v) => obj_set o k v) a b.

(** [key in o] *)
Definition has_key {A} (o : list (string * A)) (k : string) : bool :=
  match obj_get o k with Some _ => true | None => false end.

(** [generateCartesianProduct(arrays)] of helpers.ts *)
Fixpoint generateCartesianProduct (arrays : list (list Row)) (current : Row)
  : list Row :=
  match arrays with
  | [] => [current]
  | items :: rest =>
      flat_map (fun item =>
                  generateCartesianProduct rest (obj_merge current item))
        items
  end.

(** The part of [s] after its last dot: [s.split('.')] and its last
    element. *)
Fixpoint last_segment_from (acc : string) (s : string) : string :=
  match s with
  | EmptyString => acc
  | String c rest =>
      if Ascii.eqb c "." then last_segment_from rest rest
      else last_segment_from acc rest
  end.

Definition last_segment (s : string) : string := last_segment_from s s.

(** [l.slice(0, n)] for a number [n]: a negative [n] counts from the
    end. *)
Definition slice_to {A} (l : list A) (n : Z) : list A :=
  if (0 <=? n)%Z then take (Z.to_nat n) l
  else take (length l - Z.to_nat (- n)) l.

(** [map.get(key).push(row)], creating the entry when the key is new; a
    [Map] keeps its keys in insertion order. *)
Definition group_push (groups : list (string * list Row)) (key : string)
    (row : Row) : list (string * list Row) :=
  match obj_get groups key with
  | Some rows => obj_set groups key (rows ++ [row])
  | None => groups ++ [(key, [row])]
  end.

Fixpoint mapM {A B} (f : A -> result B) (l : list A) : result (list B) :=
  match l with
  | [] => Ok []
  | x :: rest =>
      let* y := f x in
      let* ys := mapM f rest in
      Ok (y :: ys)
  end.

Section Pivot.

Context (StringToNumber : string -> option Z).
Context (localeCompare : string -> string -> Z).

Definition valueColumns_of (specs : list Using) : list ValueColumn :=
  List.map (fun u =>
              match u with
              | UsingSpec field aggregation name =>
                  {| vc_field := field;
                     vc_aggregation := aggregation;
                     vc_name := match name with
                                | Some (String c n) => String c n
                                | _ => field
                                end |}
              | UsingField field =>
                  {| vc_field := field;
                     vc_aggregation :=
                       fun values => Ok (match values with
                                         | v :: _ => v
                                         | [] => VNull
                                         end);
                     vc_name := field |}
              end) specs.

(** Step 1: the distinct valid values of every pivot column the table
    has. *)
Definition distinctPivotValues (table : Table) (onColumns : list string)
  : list (string * list value) :=
  foldl (fun acc col =>
           match getChild table (VStr col) with
           | None => acc
           | Some colVector =>
               obj_set acc col
                 (foldl (fun valueSet i =>
                           if isValid colVector i
                           then set_add valueSet (get colVector i)
                           else valueSet)
                    [] (seq 0 (length colVector)))
           end)
    [] onColumns.

(** [Array.from(distinctPivotValues[col])] *)
Definition values_of (distinct : list (string * list value)) (col : string)
  : result (list value) :=
  match obj_get distinct col with
  | Some valueSet => Ok valueSet
  | None =>
      Err "undefined is not iterable (cannot read property Symbol(Symbol.iterator))"
  end.

Definition pivotCombinations_of (distinct : list (string * list value))
    (onColumns : list string) : result (list Row) :=
  match onColumns with
  | [col] =>
      let* values := values_of distinct col in
      Ok (List.map (fun val =>
                      obj_set (obj_set [] col val) "_pivotKey"
                        (VStr (String_ val)))
            values)
  | _ =>
      let* arrays :=
        mapM (fun col =>
                let* values := values_of distinct col in
                Ok (List.map (fun val => [(col, val)]) values))
          onColumns in
      Ok (List.map (fun combo =>
                      obj_set combo "_pivotKey"
                        (VStr (join "_"
                                 (List.map (fun col => String_ (prop combo col))
                                    onColumns))))
            (generateCartesianProduct arrays []))
  end.

(** The comparator given to [pivotCombinations.sort]. *)
Fixpoint combination_compare (orderBy : list OrderBy) (a b : Row) : Z :=
  match orderBy with
  | [] => 0%Z
  | order :: rest =>
      let fieldName := last_segment (order_field order) in
      if has_key a fieldName && has_key b fieldName then
        let aVal := prop a fieldName in
        let bVal := prop b fieldName in
        if negb (strict_eq aVal bVal) then
          match order_direction order with
          | asc => compare StringToNumber localeCompare aVal bVal
          | desc => compare StringToNumber localeCompare bVal aVal
          end
        else combination_compare rest a b
      else combination_compare rest a b
  end.

(** Step 2: the rows, grouped by the key made of their [groupBy]
    values, in order of first occurrence. *)
Definition groupedData_of (rows : list Row) (groupBy : list string)
  : list (string * list Row) :=
  foldl (fun groups row =>
           group_push groups
             (join "|" (List.map (fun col => String_ (prop row col)) groupBy))
             row)
    [] rows.

(** Step 3: the result row of one group. *)
Definition resultRow_of (onColumns groupBy : list string)
    (valueColumns : list ValueColumn) (pivotCombinations : list Row)
    (groupRows : list Row) : result Row :=
  let base :=
    foldl (fun resultRow col =>
             obj_set resultRow col
               (prop (match groupRows with
                      | first :: _ => first
                      | [] => []
                      end) col))
      [] groupBy in
  foldl (fun acc pivotCombo =>
           let matchingRows :=
             List.filter (fun row =>
                            forallb (fun col =>
                                       strict_eq (prop row col)
                                         (prop pivotCombo col))
                              onColumns)
               groupRows in
           foldl (fun acc valueCol =>
                    let* resultRow := acc in
                    let columnValues :=
                      List.map (fun row => prop row (vc_field valueCol))
                        matchingRows in
                    let* aggregatedValue :=
                      vc_aggregation valueCol columnValues in
                    let pivotKey := String_ (prop pivotCombo "_pivotKey") in
                    let columnName :=
                      if negb (String.eqb (vc_name valueCol)
                                 (vc_field valueCol))
                      then vc_name valueCol +:+ "_" +:+ pivotKey
                      else pivotKey in
                    Ok (obj_set resultRow columnName aggregatedValue))
             acc valueColumns)
    (Ok base) pivotCombinations.

(** The rows of the pivoted table, before they are turned into columns. *)
Definition pivot_rows (table : Table) (options : PivotOptions)
  : result (list Row) :=
  let onColumns := on options in
  let valueColumns := valueColumns_of (using_ options) in
  let* pivotCombinations :=
    pivotCombinations_of (distinctPivotValues table onColumns) onColumns in
  let pivotCombinations' :=
    match orderBy options with
    | Some (order :: orders) =>
        array_sort (combination_compare (order :: orders)) pivotCombinations
    | _ => pivotCombinations
    end in
  let groupedData := groupedData_of (toArray table) (groupBy options) in
  let* result :=
    mapM (fun '(_, groupRows) =>
            resultRow_of onColumns (groupBy options) valueColumns
              pivotCombinations' groupRows)
      groupedData in
  Ok (match limit options with
      | Some n => if (n =? 0)%Z then result else slice_to result n
      | None => result
      end).

(** [pivot(table, options)] *)
Definition pivot (table : Table) (options : PivotOptions) : result Table :=
  rewrap "Error in pivot operation: "
    (let* limitedResult := pivot_rows table options in
     let* cols := arrayToColumnarFormat limitedResult in
     Ok (tableFromArrays cols)).

(** The executor queued by [pivot(options)] of the store. *)
Definition pivot_executor (options : PivotOptions) : Executor :=
  fun _ table =>
    let* pivotTable := pivot table options in
    Ok {| res_table := pivotTable; res_schema := None |}.

End Pivot.

(** The rows of a table are in the order its [orderBy] asks for, on
    integer cells: along the rows, the cells of the first field never
    decrease for [asc] and never increase for [desc]. *)
Fixpoint ordered_cells (direction : Direction) (cells : list value) : bool :=
  match cells with
  | VNum x :: ((VNum y :: _) as rest) =>
      match direction with
      | asc => (x <=? y)%Z
      | desc => (y <=? x)%Z
      end && ordered_cells direction rest
  | _ => true
  end.

(** ** The SQL filter compiler (filter-sql) *)

Module TokenType.

Inductive t :=
| IDENTIFIER | OPERATOR | STRING | NUMBER | BOOLEAN | LPAREN | RPAREN
| AND | OR | NOT | IN | LIKE | COMMA | EOF.

Definition eqb (a b : t) : bool :=
  match a, b with
  | IDENTIFIER, IDENTIFIER | OPERATOR, OPERATOR | STRING, STRING
  | NUMBER, NUMBER | BOOLEAN, BOOLEAN | LPAREN, LPAREN | RPAREN, RPAREN
  | AND, AND | OR, OR | NOT, NOT | IN, IN | LIKE, LIKE | COMMA, COMMA
  | EOF, EOF => true
  | _, _ => false
  end.

End TokenType.

Record Token := {
  tok_type : TokenType.t;
  tok_value : string;
  tok_position : nat
}.

Definition string_of_nat (n : nat) : string := string_of_Z (Z.of_nat n).

(** Character classes of the lexer: [/\s/], [/[a-zA-Z_]/], [/\d/],
    [/[a-zA-Z0-9_.]/]. *)
Definition is_space (c : ascii) : bool :=
  let n := nat_of_ascii c in
  ((9 <=? n) && (n <=? 13)) || (n =? 32) || (n =? 160).

Definition is_letter_ (c : ascii) : bool :=
  let n := nat_of_ascii c in
  ((65 <=? n) && (n <=? 90)) || ((97 <=? n) && (n <=? 122)) || (n =? 95).

Definition is_digit (c : ascii) : bool :=
  let n := nat_of_ascii c in (48 <=? n) && (n <=? 57).

Definition is_identifier_char (c : ascii) : bool :=
  is_letter_ c || is_digit c || (nat_of_ascii c =? 46).

Definition quote_char : ascii := "'"%char.

(** [s.toUpperCase()] on the characters of an identifier *)
Definition upper_char (c : ascii) : ascii :=
  let n := nat_of_ascii c in
  if (97 <=? n) && (n <=? 122) then ascii_of_nat (n - 32) else c.

Fixpoint toUpperCase (s : string) : string :=
  match s with
  | EmptyString => EmptyString
  | String c rest => String (upper_char c) (toUpperCase rest)
  end.

Fixpoint toLowerCase (s : string) : string :=
  match s with
  | EmptyString => EmptyString
  | String c rest =>
      let n := nat_of_ascii c in
      String (if (65 <=? n) && (n <=? 90) then ascii_of_nat (n + 32) else c)
        (toLowerCase rest)
  end.

(** [s.trim()] *)
Fixpoint trimStart (s : string) : string :=
  match s with
  | String c rest => if is_space c then trimStart rest else s
  | EmptyString => s
  end.

Fixpoint trimEnd (s : string) : string :=
  match s with
  | EmptyString => EmptyString
  | String c rest =>
      match trimEnd rest with
      | EmptyString => if is_space c then EmptyString else String c ""
      | rest' => String c rest'
      end
  end.

Definition trim (s : string) : string := trimEnd (trimStart s).

(** The longest prefix of [s] made of characters in the class, and what
    follows it. *)
Fixpoint span (class : ascii -> bool) (s : string) : string * string :=
  match s with
  | String c rest =>
      if class c
      then let r := span class rest in (String c (fst r), snd r)
      else (EmptyString, s)
  | EmptyString => (EmptyString, s)
  end.

(** The loop of [tokenizeNumber]: digits, with at most one dot. *)
Fixpoint number_span (hasDot : bool) (s : string) : string * string :=
  match s with
  | String c rest =>
      if Ascii.eqb c "." && negb hasDot
      then let r := number_span true rest in (String c (fst r), snd r)
      else if is_digit c
      then let r := number_span hasDot rest in (String c (fst r), snd r)
      else (EmptyString, s)
  | EmptyString => (EmptyString, s)
  end.

(** The loop of [tokenizeString], after the opening quote: the raw text
    up to the closing quote and what follows that quote; [None] when the
    input ends first. *)
Fixpoint string_span (s : string) : option (string * string) :=
  match s with
  | EmptyString => None
  | String c rest =>
      if Ascii.eqb c quote_char then Some (EmptyString, rest)
      else
        match rest with
        | String c' rest' =>
            if Ascii.eqb c backslash && Ascii.eqb c' quote_char then
              match string_span rest' with
              | Some (raw, after) => Some (String c (String c' raw), after)
              | None => None
              end
            else
              match string_span rest with
              | Some (raw, after) => Some (String c raw, after)
              | None => None
              end
        | EmptyString => None
        end
  end.

(** [raw.replace(/\\'/g, "'")] *)
Fixpoint unescape_quotes (s : string) : string :=
  match s with
  | String c ((String c' rest') as rest) =>
      if Ascii.eqb c backslash && Ascii.eqb c' quote_char
      then String c' (unescape_quotes rest')
      else String c (unescape_quotes rest)
  | _ => s
  end.

Definition token (type : TokenType.t) (v : string) (position : nat) : Token :=
  {| tok_type := type; tok_value := v; tok_position := position |}.

(** The token of [tokenizeIdentifier] for the word read at [start]. *)
Definition word_token (word : string) (start : nat) : Token :=
  let v := toUpperCase word in
  if String.eqb v "AND" then token TokenType.AND v start
  else if String.eqb v "OR" then token TokenType.OR v start
  else if String.eqb v "NOT" then token TokenType.NOT v start
  else if String.eqb v "IN" then token TokenType.IN v start
  else if String.eqb v "LIKE" then token TokenType.LIKE v start
  else if String.eqb v "TRUE" || String.eqb v "FALSE"
  then token TokenType.BOOLEAN (toLowerCase v) start
  else token TokenType.IDENTIFIER word start.

Definition unexpected_character (c : ascii) (position : nat) : string :=
  "Unexpected character '" +:+ String c "" +:+ "' at position "
  +:+ string_of_nat position.

(** [tokenize()]: [input] is what is left of the text from [position]
    on.  Every pass consumes a character. *)
Fixpoint tokenize_loop (fuel : nat) (input : string) (position : nat)
    (tokens : list Token) : result (list Token) :=
  match fuel with
  | O => Err "out of fuel"
  | S fuel' =>
      match input with
      | EmptyString => Ok (tokens ++ [token TokenType.EOF "EOF" position])
      | String char rest =>
          let next := match rest with
                      | String c _ => Some c
                      | EmptyString => None
                      end in
          let one (type : TokenType.t) (v : string) :=
            tokenize_loop fuel' rest (position + 1)
              (tokens ++ [token type v position]) in
          let two (type : TokenType.t) (v : string) :=
            tokenize_loop fuel'
              (match rest with String _ r => r | EmptyString => rest end)
              (position + 2) (tokens ++ [token type v position]) in
          if is_space char then tokenize_loop fuel' rest (position + 1) tokens
          else if is_letter_ char then
            let '(word, rest') := span is_identifier_char input in
            tokenize_loop fuel' rest' (position + String.length word)
              (tokens ++ [word_token word position])
          else if is_digit char then
            let '(digits, rest') := number_span false input in
            tokenize_loop fuel' rest' (position + String.length digits)
              (tokens ++ [token TokenType.NUMBER digits position])
          else if Ascii.eqb char quote_char then
            match string_span rest with
            | None =>
                Err ("Unterminated string literal starting at position "
                     +:+ string_of_nat position)
            | Some (raw, rest') =>
                tokenize_loop fuel' rest'
                  (position + 1 + String.length raw + 1)
                  (tokens ++ [token TokenType.STRING (unescape_quotes raw)
                                position])
            end
          else if Ascii.eqb char "(" then one TokenType.LPAREN "("
          else if Ascii.eqb char ")" then one TokenType.RPAREN ")"
          else if Ascii.eqb char "," then one TokenType.COMMA ","
          else if Ascii.eqb char "=" then one TokenType.OPERATOR "="
          else if Ascii.eqb char ">" then
            match next with
            | Some "="%char => two TokenType.OPERATOR ">="
            | _ => one TokenType.OPERATOR ">"
            end
          else if Ascii.eqb char "<" then
            match next with
            | Some "="%char => two TokenType.OPERATOR "<="
            | Some ">"%char => two TokenType.OPERATOR "<>"
            | _ => one TokenType.OPERATOR "<"
            end
          else if Ascii.eqb char "!" then
            match next with
            | Some "="%char => two TokenType.OPERATOR "!="
            | _ => Err (unexpected_character char position)
            end
          else Err (unexpected_character char position)
      end
  end.

(** [new SqlFilterLexer(input).tokenize()] *)
Definition tokenize (input : string) : result (list Token) :=
  let input := trim input in
  tokenize_loop (S (String.length input)) input 0 [].

(** [s.slice(start, stop)] on a string, with negative indices counting
    from the end. *)
Definition string_slice (s : string) (start stop : Z) : string :=
  let len := Z.of_nat (String.length s) in
  let clamp (i : Z) :=
    if (i <? 0)%Z then Z.max (len + i) 0 else Z.min i len in
  let from := clamp start in
  let to := clamp stop in
  String.substring (Z.to_nat from) (Z.to_nat (to - from)) s.

(** [createAndFilter], [createOrFilter] *)
Definition createAndFilter (left right : FilterCondition) : FilterCondition :=
  match left with
  | AND conditions => AND (conditions ++ [right])
  | _ => AND [left; right]
  end.

Definition createOrFilter (left right : FilterCondition) : FilterCondition :=
  match left with
  | OR conditions => OR (conditions ++ [right])
  | _ => OR [left; right]
  end.

(** [parseLikeExpression(fieldName)], once the pattern is read *)
Definition like_filter (fieldName pattern : string) : FilterCondition :=
  let percent := "%" in
  let '(op, v) :=
    if startsWith pattern percent && endsWith pattern percent
    then ("contains", string_slice pattern 1 (-1))
    else if startsWith pattern percent
    then ("endsWith",
          string_slice pattern 1 (Z.of_nat (String.length pattern)))
    else if endsWith pattern percent
    then ("startsWith", string_slice pattern 0 (-1))
    else ("contains", pattern) in
  FieldFilter (VStr fieldName) {| op := VStr op; fvalue := VStr v |}.

Section SqlParser.

(** [Number.parseFloat] on the text of a NUMBER token. *)
Context (parseFloat : string -> value).

Definition at_position (tokens : list Token) : string :=
  match tokens with
  | t :: _ => " at position " +:+ string_of_nat (tok_position t)
  | [] => " at position undefined"
  end.

Definition unexpected_token (tokens : list Token) : string :=
  match tokens with
  | t :: _ =>
      "Unexpected token '" +:+ tok_value t +:+ "'" +:+ at_position tokens
  | [] => TypeError_read VUndefined "type"
  end.

(** The parser works on the tokens from [current] on; the last token is
    EOF, which [advance] never passes.  [check(type)] *)
Definition check (tokens : list Token) (type : TokenType.t) : bool :=
  match tokens with
  | t :: _ =>
      negb (TokenType.eqb (tok_type t) TokenType.EOF)
      && TokenType.eqb (tok_type t) type
  | [] => false
  end.

(** [consume(type, message)] *)
Definition consume (tokens : list Token) (type : TokenType.t)
    (message : string) : result (Token * list Token) :=
  match tokens with
  | t :: rest =>
      if check tokens type then Ok (t, rest)
      else Err (message +:+ at_position tokens)
  | [] => Err (TypeError_read VUndefined "type")
  end.

(** [parseValue()] *)
Definition parseValue (tokens : list Token) : result (value * list Token) :=
  match tokens with
  | t :: rest =>
      if check tokens TokenType.STRING then Ok (VStr (tok_value t), rest)
      else if check tokens TokenType.NUMBER
      then Ok (parseFloat (tok_value t), rest)
      else if check tokens TokenType.BOOLEAN
      then Ok (VBool (String.eqb (tok_value t) "true"), rest)
      else Err ("Expected value" +:+ at_position tokens)
  | [] => Err (TypeError_read VUndefined "type")
  end.

(** [parseComparisonExpression(fieldName)], the operator being the token
    just read *)
Definition parseComparisonExpression (fieldName operator : string)
    (tokens : list Token) : result (FilterCondition * list Token) :=
  let* filterOp :=
    if String.eqb operator "=" then Ok "eq"
    else if String.eqb operator "<>" || String.eqb operator "!="
    then Ok "neq"
    else if String.eqb operator ">" then Ok "gt"
    else if String.eqb operator ">=" then Ok "gte"
    else if String.eqb operator "<" then Ok "lt"
    else if String.eqb operator "<=" then Ok "lte"
    else Err ("Unsupported operator '" +:+ operator +:+ "'") in
  let* r := parseValue tokens in
  Ok (FieldFilter (VStr fieldName)
        {| op := VStr filterOp; fvalue := fst r |}, snd r).

(** The [do ... while (match(COMMA))] loop of [parseInExpression] *)
Fixpoint parseInValues (fuel : nat) (tokens : list Token)
  : result (list value * list Token) :=
  match fuel with
  | O => Err "out of fuel"
  | S fuel' =>
      let* r := parseValue tokens in
      if check (snd r) TokenType.COMMA then
        let* more := parseInValues fuel' (tl (snd r)) in
        Ok (fst r :: fst more, snd more)
      else Ok ([fst r], snd r)
  end.

Definition parseInExpression (fuel : nat) (fieldName : string)
    (tokens : list Token) : result (FilterCondition * list Token) :=
  let* open := consume tokens TokenType.LPAREN "Expect '(' after IN" in
  let* values := parseInValues fuel (snd open) in
  let* close :=
    consume (snd values) TokenType.RPAREN "Expect ')' after IN values" in
  Ok (FieldFilter (VStr fieldName)
        {| op := VStr "in"; fvalue := VArr (fst values) |}, snd close).

(** [parseLikeExpression(fieldName)] *)
Definition parseLikeExpression (fieldName : string) (tokens : list Token)
  : result (FilterCondition * list Token) :=
  let* pattern :=
    consume tokens TokenType.STRING "Expect string pattern after LIKE" in
  Ok (like_filter fieldName (tok_value (fst pattern)), snd pattern).

(** The recursive descent: [parseOr] (which is [parseExpression]),
    [parseAnd], [parseNot], [parsePrimary], and the [while] loops of the
    first two. *)
Fixpoint parseOr (fuel : nat) (tokens : list Token)
  : result (FilterCondition * list Token) :=
  match fuel with
  | O => Err "out of fuel"
  | S fuel' =>
      let* r := parseAnd fuel' tokens in
      parseOr_loop fuel' (fst r) (snd r)
  end

with parseOr_loop (fuel : nat) (expr : FilterCondition)
    (tokens : list Token) : result (FilterCondition * list Token) :=
  match fuel with
  | O => Err "out of fuel"
  | S fuel' =>
      if check tokens TokenType.OR then
        let* r := parseAnd fuel' (tl tokens) in
        parseOr_loop fuel' (createOrFilter expr (fst r)) (snd r)
      else Ok (expr, tokens)
  end

with parseAnd (fuel : nat) (tokens : list Token)
  : result (FilterCondition * list Token) :=
  match fuel with
  | O => Err "out of fuel"
  | S fuel' =>
      let* r := parseNot fuel' tokens in
      parseAnd_loop fuel' (fst r) (snd r)
  end

with parseAnd_loop (fuel : nat) (expr : FilterCondition)
    (tokens : list Token) : result (FilterCondition * list Token) :=
  match fuel with
  | O => Err "out of fuel"
  | S fuel' =>
      if check tokens TokenType.AND then
        let* r := parseNot fuel' (tl tokens) in
        parseAnd_loop fuel' (createAndFilter expr (fst r)) (snd r)
      else Ok (expr, tokens)
  end

with parseNot (fuel : nat) (tokens : list Token)
  : result (FilterCondition * list Token) :=
  match fuel with
  | O => Err "out of fuel"
  | S fuel' =>
      if check tokens TokenType.NOT then
        let* r := parsePrimary fuel' (tl tokens) in
        Ok (NOT (fst r), snd r)
      else parsePrimary fuel' tokens
  end

with parsePrimary (fuel : nat) (tokens : list Token)
  : result (FilterCondition * list Token) :=
  match fuel with
  | O => Err "out of fuel"
  | S fuel' =>
      if check tokens TokenType.LPAREN then
        let* r := parseOr fuel' (tl tokens) in
        let* close :=
          consume (snd r) TokenType.RPAREN "Expect ')' after expression" in
        Ok (fst r, snd close)
      else if check tokens TokenType.IDENTIFIER then
        let fieldName := match tokens with
                         | t :: _ => tok_value t
                         | [] => EmptyString
                         end in
        let rest := tl tokens in
        if check rest TokenType.IN
        then parseInExpression fuel' fieldName (tl rest)
        else if check rest TokenType.LIKE
        then parseLikeExpression fieldName (tl rest)
        else if check rest TokenType.OPERATOR
        then parseComparisonExpression fieldName
               (match rest with t :: _ => tok_value t | [] => EmptyString end)
               (tl rest)
        else Err ("Expected operator after field name '" +:+ fieldName
                  +:+ "'" +:+ at_position rest)
      else Err (unexpected_token tokens)
  end.

(** [isAtEnd()] *)
Definition isAtEnd (tokens : list Token) : bool :=
  match tokens with
  | t :: _ => TokenType.eqb (tok_type t) TokenType.EOF
  | [] => false
  end.

(** The loop of [parse()] *)
Fixpoint parse_loop (fuel : nat) (tokens : list Token)
    (filters : list FilterCondition) : result (list FilterCondition) :=
  match fuel with
  | O => Err "out of fuel"
  | S fuel' =>
      match tokens with
      | [] => Err (TypeError_read VUndefined "type")
      | _ :: _ =>
          if isAtEnd tokens then Ok filters
          else
            let* r := parseOr fuel' tokens in
            let filters' := filters ++ [fst r] in
            if check (snd r) TokenType.AND
            then parse_loop fuel' (tl (snd r)) filters'
            else if negb (isAtEnd (snd r))
                    && negb (check (snd r) TokenType.EOF)
            then Err (unexpected_token (snd r))
            else Ok filters'
      end
  end.

(** [new SqlFilterParser(tokens).parse()]: every call of the descent
    consumes a token or goes one level down, of which there are six. *)
Definition parse (tokens : list Token) : result (list FilterCondition) :=
  parse_loop (8 * S (length tokens)) tokens [].

(** [parseSqlFilter(sql)] *)
Definition parseSqlFilter (sql : string) : result (list FilterCondition) :=
  rewrap "Error parsing SQL filter: "
    (let* tokens := tokenize sql in
     parse tokens).

End SqlParser.

(** ** The LIKE translation, as the specification words it *)

Definition first_char_is (c : ascii) (s : string) : bool :=
  match s with
  | String c' _ => Ascii.eqb c' c
  | EmptyString => false
  end.

Fixpoint last_char_is (c : ascii) (s : string) : bool :=
  match s with
  | EmptyString => false
  | String c' EmptyString => Ascii.eqb c' c
  | String _ rest => last_char_is c rest
  end.

Definition without_first (s : string) : string :=
  match s with
  | String _ rest => rest
  | EmptyString => EmptyString
  end.

Fixpoint without_last (s : string) : string :=
  match s with
  | EmptyString => EmptyString
  | String _ EmptyString => EmptyString
  | String c rest => String c (without_last rest)
  end.

(** The operator and the value a LIKE pattern compiles to. *)
Definition like_op (p : string) : string :=
  if first_char_is "%" p && last_char_is "%" p then "contains"
  else if first_char_is "%" p then "endsWith"
  else if last_char_is "%" p then "startsWith"
  else "contains".

Definition like_value (p : string) : string :=
  if first_char_is "%" p && last_char_is "%" p
  then without_last (without_first p)
  else if first_char_is "%" p then without_first p
  else if last_char_is "%" p then without_last p
  else p.

(** An identifier of the lexer that is not a keyword. *)
Fixpoint all_chars (class : ascii -> bool) (s : string) : bool :=
  match s with
  | EmptyString => true
  | String c rest => class c && all_chars class rest
  end.

Definition keywords : list string :=
  ["AND"; "OR"; "NOT"; "IN"; "LIKE"; "TRUE"; "FALSE"].

Definition is_identifier (f : string) : bool :=
  match f with
  | String c _ =>
      is_letter_ c && all_chars is_identifier_char f
      && negb (existsb (String.eqb (toUpperCase f)) keywords)
  | EmptyString => false
  end.

(** A pattern that can stand between quotes as it is. *)
Definition plain_pattern (p : string) : bool :=
  all_chars (fun c => negb (Ascii.eqb c quote_char)
                      && negb (Ascii.eqb c backslash)) p.

(** ** Filters read from JSON (filter-serialization) *)

(** [o.key] on a value: [None] stands for the TypeError of a property
    read on [null] or [undefined]; a value without the property reads as
    [undefined].  The keys read by the deserializer are not properties
    of strings or arrays. *)
Definition member (o : value) (key : string) : option value :=
  match o with
  | VNull | VUndefined => None
  | VObj props => Some (prop props key)
  | _ => Some VUndefined
  end.

(** [JSON.stringify(v)], used in the message of an unknown filter type. *)
Definition hex_digit (n : nat) : ascii :=
  if n <? 10 then ascii_of_nat (48 + n) else ascii_of_nat (87 + n).

Fixpoint quote_chars (s : string) : string :=
  match s with
  | EmptyString => EmptyString
  | String c rest =>
      let n := nat_of_ascii c in
      let escaped :=
        if Ascii.eqb c dquote then String backslash (String dquote "")
        else if Ascii.eqb c backslash
        then String backslash (String backslash "")
        else if n =? 8 then String backslash "b"
        else if n =? 9 then String backslash "t"
        else if n =? 10 then String backslash "n"
        else if n =? 12 then String backslash "f"
        else if n =? 13 then String backslash "r"
        else if n <? 32
        then String backslash
               ("u00" +:+ String (hex_digit (n / 16))
                                 (String (hex_digit (n mod 16)) ""))
        else String c "" in
      escaped +:+ quote_chars rest
  end.

Definition quote (s : string) : string :=
  String dquote (quote_chars s +:+ String dquote "").

Fixpoint JSON_stringify (v : value) : string :=
  match v with
  | VNull => "null"
  | VUndefined => "null"
  | VBool true => "true"
  | VBool false => "false"
  | VNum n => string_of_Z n
  | VStr s => quote s
  | VArr items => "[" +:+ join "," (List.map JSON_stringify items) +:+ "]"
  | VObj props =>
      "{" +:+
      join ","
        ((fix members (ps : list (string * value)) : list string :=
            match ps with
            | [] => []
            | (k, VUndefined) :: rest => members rest
            | (k, x) :: rest =>
                (quote k +:+ ":" +:+ JSON_stringify x) :: members rest
            end) props)
      +:+ "}"
  end.

(** [deserializeFilter(serialized)] *)
Fixpoint deserializeFilter (serialized : value) : result FilterCondition :=
  match serialized with
  | VNull | VUndefined => Err (TypeError_read serialized "type")
  | VObj props =>
      let type := prop props "type" in
      if strict_eq type (VStr "field") then
        let field := prop props "field" in
        let filter := prop props "filter" in
        match member filter "op", member filter "value" with
        | Some op, Some value =>
            Ok (FieldFilter field {| op := op; fvalue := value |})
        | _, _ => Err (TypeError_read filter "op")
        end
      else if strict_eq type (VStr "and") || strict_eq type (VStr "or") then
        let* conditions :=
          (fix conditions_of (ps : list (string * value))
             : result (list FilterCondition) :=
             match ps with
             | [] => Err (TypeError_read VUndefined "map")
             | (k, x) :: rest =>
                 if String.eqb k "conditions" then
                   match x with
                   | VArr items =>
                       (fix each (items : list value)
                          : result (list FilterCondition) :=
                          match items with
                          | [] => Ok []
                          | condition :: more =>
                              let* c := deserializeFilter condition in
                              let* cs := each more in
                              Ok (c :: cs)
                          end) items
                   | VNull | VUndefined => Err (TypeError_read x "map")
                   | _ => Err "serialized.conditions.map is not a function"
                   end
                 else conditions_of rest
             end) props in
        Ok (if strict_eq type (VStr "and") then AND conditions
            else OR conditions)
      else if strict_eq type (VStr "not") then
        let* condition :=
          (fix condition_of (ps : list (string * value))
             : result FilterCondition :=
             match ps with
             | [] => Err (TypeError_read VUndefined "type")
             | (k, x) :: rest =>
                 if String.eqb k "condition" then deserializeFilter x
                 else condition_of rest
             end) props in
        Ok (NOT condition)
      else
        Err ("Unknown serialized filter type: " +:+ JSON_stringify serialized)
  | _ =>
      Err ("Unknown serialized filter type: " +:+ JSON_stringify serialized)
  end.

(** [deserializeFilters(serialized)] is [serialized.map(deserializeFilter)]. *)
Definition deserializeFilters (serialized : value)
  : result (list FilterCondition) :=
  match serialized with
  | VArr items =>
      (fix each (items : list value) : result (list FilterCondition) :=
         match items with
         | [] => Ok []
         | condition :: more =>
             let* c := deserializeFilter condition in
             let* cs := each more in
             Ok (c :: cs)
         end) items
  | VNull | VUndefined => Err (TypeError_read serialized "map")
  | _ => Err "serialized.map is not a function"
  end.

Section FromJson.

(** [JSON.parse], with the message of its SyntaxError. *)
Context (JSON_parse : string -> result value).
Context (StringToNumber : string -> option Z).

(** [filtersFromJson(json)] *)
Definition filtersFromJson (json : string) : result (list FilterCondition) :=
  let* parsed := JSON_parse json in
  deserializeFilters parsed.

(** [filterFromJson(jsonFilters)], called on the store [this] *)
Definition filterFromJson (h : Heap) (this : nat) (jsonFilters : string)
  : Heap * nat :=
  match filtersFromJson jsonFilters with
  | Ok filters => filter_ StringToNumber h this filters
  | Err _ => createInstance h this identity_executor
  end.

End FromJson.

(** What the types of filter-serialization call a serialized condition:
    a field entry has a string [field] and a [filter] object whose [op]
    is one of the ten operators; an [and] or [or] entry has an array of
    serialized conditions; a [not] entry has one. *)
Inductive SerializedCondition : value -> Prop :=
| ser_field props field filter o :
    prop props "type" = VStr "field" ->
    prop props "field" = VStr field ->
    prop props "filter" = VObj filter ->
    prop filter "op" = VStr o -> In o basic_ops ->
    SerializedCondition (VObj props)
| ser_and props items :
    prop props "type" = VStr "and" ->
    prop props "conditions" = VArr items ->
    Forall SerializedCondition items ->
    SerializedCondition (VObj props)
| ser_or props items :
    prop props "type" = VStr "or" ->
    prop props "conditions" = VArr items ->
    Forall SerializedCondition items ->
    SerializedCondition (VObj props)
| ser_not props condition :
    prop props "type" = VStr "not" ->
    prop props "condition" = condition ->
    SerializedCondition condition ->
    SerializedCondition (VObj props).

(** A string is a serialization of a filter-condition array. *)
Definition valid_filter_json (JSON_parse : string -> result value)
    (json : string) : Prop :=
  exists items,
    JSON_parse json = Ok (VArr items) /\ Forall SerializedCondition items.

(** A conversion of strings to numbers for the worked examples: the empty
    string is 0, a string of decimal digits is its value, any other string
    is NaN. *)
Definition digit_of (c : ascii) : option Z :=
  let n := nat_of_ascii c in
  if (48 <=? n) && (n <=? 57) then Some (Z.of_nat (n - 48)) else None.

Fixpoint digits_value (acc : Z) (s : string) : option Z :=
  match s with
  | EmptyString => Some acc
  | String c rest =>
      match digit_of c with
      | Some d => digits_value (10 * acc + d)%Z rest
      | None => None
      end
  end.

Definition decimal_StringToNumber (s : string) : option Z :=
  digits_value 0%Z s.

(** ** A JSON reader for the worked examples

    [JSON_parse_int] reads the JSON grammar with integer number literals;
    a literal with a fraction or an exponent is rejected because the model
    has no such number, and a [\u] escape is read when its code is below
    256.  The theorems below hold for any reader; this one evaluates the
    examples. *)

Definition is_json_ws (c : ascii) : bool :=
  let n := nat_of_ascii c in
  (n =? 32) || (n =? 9) || (n =? 10) || (n =? 13).

Fixpoint skip_ws (s : string) : string :=
  match s with
  | String c rest => if is_json_ws c then skip_ws rest else s
  | EmptyString => s
  end.

Definition hex_value (c : ascii) : option nat :=
  let n := nat_of_ascii c in
  if (48 <=? n) && (n <=? 57) then Some (n - 48)
  else if (97 <=? n) && (n <=? 102) then Some (n - 87)
  else if (65 <=? n) && (n <=? 70) then Some (n - 55)
  else None.

(** The characters of a string literal, after the opening quote. *)
Fixpoint read_chars (s : string) : result (string * string) :=
  match s with
  | EmptyString => Err "Unterminated string in JSON"
  | String c rest =>
      if Ascii.eqb c dquote then Ok (EmptyString, rest)
      else if Ascii.eqb c backslash then
        match rest with
        | String e rest' =>
            let plain (c' : ascii) :=
              let* r := read_chars rest' in
              Ok (String c' (fst r), snd r) in
            if Ascii.eqb e dquote then plain dquote
            else if Ascii.eqb e backslash then plain backslash
            else if Ascii.eqb e "/" then plain "/"%char
            else if Ascii.eqb e "b" then plain (ascii_of_nat 8)
            else if Ascii.eqb e "f" then plain (ascii_of_nat 12)
            else if Ascii.eqb e "n" then plain (ascii_of_nat 10)
            else if Ascii.eqb e "r" then plain (ascii_of_nat 13)
            else if Ascii.eqb e "t" then plain (ascii_of_nat 9)
            else if Ascii.eqb e "u" then
              match rest' with
              | String h1 (String h2 (String h3 (String h4 rest''))) =>
                  match hex_value h1, hex_value h2,
                        hex_value h3, hex_value h4 with
                  | Some 0, Some 0, Some a, Some b =>
                      let* r := read_chars rest'' in
                      Ok (String (ascii_of_nat (16 * a + b)) (fst r), snd r)
                  | Some _, Some _, Some _, Some _ =>
                      Err "Unicode escape outside the model"
                  | _, _, _, _ => Err "Bad Unicode escape in JSON"
                  end
              | _ => Err "Bad Unicode escape in JSON"
              end
            else Err "Bad escaped character in JSON"
        | EmptyString => Err "Unterminated string in JSON"
        end
      else if nat_of_ascii c <? 32
      then Err "Bad control character in string literal in JSON"
      else
        let* r := read_chars rest in
        Ok (String c (fst r), snd r)
  end.

(** The digits at the head of a string, and what follows them. *)
Fixpoint read_digits (s : string) : string * string :=
  match s with
  | String c rest =>
      match digit_of c with
      | Some _ => let r := read_digits rest in (String c (fst r), snd r)
      | None => (EmptyString, s)
      end
  | EmptyString => (EmptyString, s)
  end.

Definition starts_fraction (s : string) : bool :=
  match s with
  | String c _ => Ascii.eqb c "." || Ascii.eqb c "e" || Ascii.eqb c "E"
  | EmptyString => false
  end.

(** An unsigned integer literal: [0], or digits not starting with 0. *)
Definition read_natural (s : string) : result (Z * string) :=
  match s with
  | String "0" rest =>
      if starts_fraction rest then Err "Number outside the model"
      else Ok (0%Z, rest)
  | _ =>
      let '(digits, rest) := read_digits s in
      match digits, digits_value 0%Z digits with
      | String _ _, Some n =>
          if starts_fraction rest then Err "Number outside the model"
          else Ok (n, rest)
      | _, _ => Err "Unexpected token in JSON"
      end
  end.

Fixpoint read_value (fuel : nat) (s : string) : result (value * string) :=
  match fuel with
  | O => Err "out of fuel"
  | S fuel' =>
      match skip_ws s with
      | String "n" (String "u" (String "l" (String "l" rest))) =>
          Ok (VNull, rest)
      | String "t" (String "r" (String "u" (String "e" rest))) =>
          Ok (VBool true, rest)
      | String "f" (String "a" (String "l" (String "s" (String "e" rest)))) =>
          Ok (VBool false, rest)
      | String "-" rest =>
          let* r := read_natural rest in
          Ok (VNum (- fst r), snd r)
      | String "[" rest =>
          match skip_ws rest with
          | String "]" rest' => Ok (VArr [], rest')
          | _ =>
              let* r := read_elements fuel' rest in
              Ok (VArr (fst r), snd r)
          end
      | String "{" rest =>
          match skip_ws rest with
          | String "}" rest' => Ok (VObj [], rest')
          | _ =>
              let* r := read_members fuel' rest [] in
              Ok (VObj (fst r), snd r)
          end
      | String c rest =>
          if Ascii.eqb c dquote then
            let* r := read_chars rest in
            Ok (VStr (fst r), snd r)
          else
            let* r := read_natural (String c rest) in
            Ok (VNum (fst r), snd r)
      | EmptyString => Err "Unexpected end of JSON input"
      end
  end

with read_elements (fuel : nat) (s : string)
  : result (list value * string) :=
  match fuel with
  | O => Err "out of fuel"
  | S fuel' =>
      let* r := read_value fuel' s in
      match skip_ws (snd r) with
      | String "," rest =>
          let* more := read_elements fuel' rest in
          Ok (fst r :: fst more, snd more)
      | String "]" rest => Ok ([fst r], rest)
      | _ => Err "Unexpected token in JSON"
      end
  end

with read_members (fuel : nat) (s : string) (acc : list (string * value))
  : result (list (string * value) * string) :=
  match fuel with
  | O => Err "out of fuel"
  | S fuel' =>
      match skip_ws s with
      | String c rest =>
          if Ascii.eqb c dquote then
            let* key := read_chars rest in
            match skip_ws (snd key) with
            | String ":" rest' =>
                let* r := read_value fuel' rest' in
                let acc' := obj_set acc (fst key) (fst r) in
                match skip_ws (snd r) with
                | String "," rest'' => read_members fuel' rest'' acc'
                | String "}" rest'' => Ok (acc', rest'')
                | _ => Err "Unexpected token in JSON"
                end
            | _ => Err "Unexpected token in JSON"
            end
          else Err "Unexpected token in JSON"
      | EmptyString => Err "Unexpected end of JSON input"
      end
  end.

(** Each call consumes a character, so the length of the text is enough
    fuel. *)
Definition JSON_parse_int (text : string) : result value :=
  let* r := read_value (S (String.length text)) text in
  match skip_ws (snd r) with
  | EmptyString => Ok (fst r)
  | _ => Err "Unexpected non-whitespace character after JSON"
  end.

(** ** Fields a condition refers to *)

Fixpoint referenced_fields (c : FilterCondition) : list value :=
  match c with
  | AND conditions => flat_map referenced_fields conditions
  | OR conditions => flat_map referenced_fields conditions
  | NOT c' => referenced_fields c'
  | FieldFilter field _ => [field]
  end.

(** [fieldNames.includes(field)] for the columns of the schema *)
Definition in_schema (schema : TableSchema) (field : value) : bool :=
  existsb (fun n => strict_eq (VStr n) field) (List.map name (columns schema)).

(** The message of the error raised for a missing field. *)
Definition field_not_found (schema : TableSchema) (field : value) : string :=
  "Filter error: Field '" +:+ String_ field
  +:+ "' does not exist in the table schema. Available fields are: "
  +:+ join ", " (List.map name (columns schema)).

(** The outcome of validating a condition: it passes and all its fields
    are in the schema, or it fails with the error of a field that is
    not. *)
Definition validated schema (c : FilterCondition) : Prop :=
  (validateFilterCondition schema c = Ok tt /\
   Forall (fun f => in_schema schema f = true) (referenced_fields c)) \/
  (exists f, In f (referenced_fields c) /\ in_schema schema f = false /\
             validateFilterCondition schema c = Err (field_not_found schema f)).

(** ** Sample data of the worked examples *)

Definition column (n : string) : ColumnSchema :=
  {| name := n; type := "unknown"; nullable := None |}.

Definition people_schema : TableSchema :=
  {| tableName := "people";
     columns := [column "id"; column "name"; column "age"] |}.

Definition people : Table :=
  [("id", [VNum 1; VNum 2; VNum 3]);
   ("name", [VStr "Alice"; VNull; VStr "Charlie"]);
   ("age", [VNum 25; VNum 30; VNull])].

(** A store holding the sample table, with no pending operation. *)
Definition people_heap : Heap :=
  [{| table_ := people; schema_ := people_schema;
      pendingOperations := [] |}].

(** The text
    [[{"type":"field","filter":{"op":"eq","value":1}}]]:
    a field entry that lacks its [field]. *)
Definition json_without_field : string :=
  "[{" +:+ quote "type" +:+ ":" +:+ quote "field" +:+ ","
  +:+ quote "filter" +:+ ":{" +:+ quote "op" +:+ ":" +:+ quote "eq"
  +:+ "," +:+ quote "value" +:+ ":1}}]".

(** The text [f LIKE 'p']. *)
Definition like_text (f p : string) : string :=
  f +:+ " LIKE '" +:+ p +:+ "'".

(** A comparison of strings by code units, and a reading of digit
    strings, for the worked examples. *)
Definition ordinal_localeCompare (a b : string) : Z :=
  match String.compare a b with
  | Lt => (-1)%Z
  | Eq => 0%Z
  | Gt => 1%Z
  end.

Definition integer_parseFloat (s : string) : value :=
  match digits_value 0%Z s with
  | Some n => VNum n
  | None => VUndefined
  end.

(** Sales by year and region; 2022 comes first. *)
Definition sales : Table :=
  [("year", [VNum 2022; VNum 2021; VNum 2022]);
   ("region", [VStr "North"; VStr "North"; VStr "South"]);
   ("sales", [VNum 100; VNum 150; VNum 120])].

(** Pivot on the region, one row per year, ordered by year. *)
Definition sales_by_year (limit : option Z) : PivotOptions :=
  {| on := ["region"];
     using_ := [UsingField "sales"];
     groupBy := ["year"];
     orderBy := Some [{| order_field := "year"; order_direction := asc |}];
     limit := limit |}.

(** A step that returns a new schema, as [map] and [unpivot] do, and a
    step that fails without adding context to its error, as a [groupBy]
    whose aggregation throws does. *)
Definition renamed_schema : TableSchema :=
  {| tableName := "renamed"; columns := [column "id"] |}.

Definition reschema_executor : Executor :=
  fun _ table => Ok {| res_table := table; res_schema := Some renamed_schema |}.

Definition failing_executor : Executor :=
  groupBy_executor (fun _ _ (_ : unit) => Err "aggregation failed") "id" tt.

(** The sample store, and a second store created from it with those two
    steps queued. *)
Definition failing_heap : Heap :=
  people_heap ++
  [{| table_ := people; schema_ := people_schema;
      pendingOperations :=
        [{| owner := 0; executor := reschema_executor |};
         {| owner := 0; executor := failing_executor |}] |}].

(** Two filters for the worked examples: [name] is null, [age > 26]. *)
Definition name_is_null : FilterCondition :=
  FieldFilter (VStr "name") {| op := VStr "eq"; fvalue := VNull |}.

Definition age_above_26 : FilterCondition :=
  FieldFilter (VStr "age") {| op := VStr "gt"; fvalue := VNum 26 |}.

(** The sample store with the two filters queued one after the other. *)
Definition filtered_heap : Heap :=
  people_heap ++
  [{| table_ := people; schema_ := people_schema;
      pendingOperations :=
        [{| owner := 0;
            executor := filter_executor decimal_StringToNumber
                          [name_is_null] |};
         {| owner := 1;
            executor := filter_executor decimal_StringToNumber
                          [NOT age_above_26] |}] |}].

(** ** Writing filters (filter-serialization) *)

(** [serializeFilter(filter)]: a condition is a field filter, an [AND],
    an [OR] or a [NOT], so the final [throw] of the source is never
    reached. *)
Fixpoint serializeFilter (filter : FilterCondition) : value :=
  match filter with
  | FieldFilter field f =>
      VObj [("type", VStr "field"); ("field", field);
            ("filter", VObj [("op", op f); ("value", fvalue f)])]
  | AND conditions =>
      VObj [("type", VStr "and");
            ("conditions", VArr (List.map serializeFilter conditions))]
  | OR conditions =>
      VObj [("type", VStr "or");
            ("conditions", VArr (List.map serializeFilter conditions))]
  | NOT condition =>
      VObj [("type", VStr "not"); ("condition", serializeFilter condition)]
  end.

(** [serializeFilters(filters)] and [filtersToJson(filters)] *)
Definition serializeFilters (filters : list FilterCondition) : value :=
  VArr (List.map serializeFilter filters).

Definition filtersToJson (filters : list FilterCondition) : string :=
  JSON_stringify (serializeFilters filters).

(** ** Rows kept by a mask, as a table *)

(** What Arrow guarantees of a table: the columns have distinct names
    and the same length, and no slot reads as [undefined]. *)
Definition well_formed (table : Table) : Prop :=
  NoDup (fieldNamesOf table) /\
  Forall (fun column =>
            length (snd column) = numRows table /\
            Forall (fun v => v <> VUndefined) (snd column))
    table.

(** The rows a mask keeps among the first [n], in the order of the
    table. *)
Definition kept_rows (mask : Mask) (n : nat) : list nat :=
  List.filter (mask_keeps mask) (seq 0 n).

(** The table made of the given rows of [table], in the given order. *)
Definition take_rows (table : Table) (rows : list nat) : Table :=
  List.map (fun '(n, vector) => (n, List.map (get vector) rows)) table.

(** The row [i] of a table, as [table.get(i)] and [toArray] build it. *)
Definition row_of (table : Table) (i : nat) : Row :=
  List.map (fun '(n, col) => (n, get col i)) table.

(** Columns computed one by one from the vectors of a table, and the
    column that [applyFilterMask] has built once the rows [done] are
    copied, [count] being the number of rows to copy. *)
Definition columns_with (g : Vector -> list value) (table : Table)
  : list (string * list value) :=
  List.map (fun '(f, vector) => (f, g vector)) table.

Definition partial_column (count : nat) (done : list nat) (vector : Vector)
  : list value :=
  List.map (get vector) done ++ replicate (count - length done) VUndefined.

(** ** Filtering by a SQL text (ArrowStore.ts, [filterSql]) *)

Section FilterSql.

Context (parseFloat : string -> value).
Context (StringToNumber : string -> option Z).

(** [filterSql(sqlFilter)], called on the store [this]: the query is
    compiled and its fields are validated against the schema of the store
    when the method is called, before a step is queued. *)
Definition filterSql (h : Heap) (this : nat) (sqlFilter : string)
  : result (Heap * nat) :=
  match h !! this with
  | None => Err "no such store"
  | Some store =>
      rewrap "Invalid SQL filter: "
        (let* filters := parseSqlFilter parseFloat sqlFilter in
         let* _ := validateFilterFields (schema_ store) filters in
         Ok (filter_ StringToNumber h this filters))
  end.

End FilterSql.

(** ** Reductions (ArrowStore.ts, [reduce] and [reduceRight]) *)

(** The starts of the batches of [reduceRight]:
    [for (i = n - 1; i >= 0; i -= batchSize)].  The counter goes below
    zero, so it is an integer. *)
Fixpoint batch_ends (fuel : nat) (i batchSize : Z) : list Z :=
  match fuel with
  | O => []
  | S fuel' =>
      if (0 <=? i)%Z then i :: batch_ends fuel' (i - batchSize)%Z batchSize
      else []
  end.

Section Reduce.

Context {R : Type}.

(** The reducer is a function of the caller; it can throw. *)
Context (reducer : R -> Row -> nat -> result R).

(** The loops of [reduce], on the resolved table. *)
Definition reduce_rows (initialValue : R) (resolvedTable : Table)
  : result R :=
  if numRows resolvedTable =? 0 then Ok initialValue
  else
    let batchSize := 10000 in
    foldl (fun acc i =>
             let* result := acc in
             let stop := Nat.min (i + batchSize) (numRows resolvedTable) in
             let batchData := toArray (table_slice resolvedTable i stop) in
             foldl (fun acc '(j, row) =>
                      let* result := acc in
                      reducer result row (i + j))
               (Ok result) (combine (seq 0 (length batchData)) batchData))
      (Ok initialValue)
      (batch_starts (numRows resolvedTable) 0 (numRows resolvedTable)
         batchSize).

(** [reduce(reducer, initialValue)], called on the store [this] *)
Definition reduce (h : Heap) (this : nat) (initialValue : R)
  : Heap * result R :=
  let '(h', resolved) := resolveTable h this in
  (h', rewrap "Error in reduce operation: "
         (let* resolvedTable := resolved in
          reduce_rows initialValue resolvedTable)).

(** The loops of [reduceRight], on the resolved table. *)
Definition reduceRight_rows (initialValue : R) (resolvedTable : Table)
  : result R :=
  if numRows resolvedTable =? 0 then Ok initialValue
  else
    let batchSize := 10000%Z in
    foldl (fun acc i =>
             let* result := acc in
             let start := Z.to_nat (Z.max 0 (i - batchSize + 1)) in
             let batchData :=
               toArray (table_slice resolvedTable start (Z.to_nat (i + 1))) in
             foldl (fun acc '(j, row) =>
                      let* result := acc in
                      reducer result row (start + j))
               (Ok result)
               (rev (combine (seq 0 (length batchData)) batchData)))
      (Ok initialValue)
      (batch_ends (numRows resolvedTable)
         (Z.of_nat (numRows resolvedTable) - 1) batchSize).

(** [reduceRight(reducer, initialValue)], called on the store [this] *)
Definition reduceRight (h : Heap) (this : nat) (initialValue : R)
  : Heap * result R :=
  let '(h', resolved) := resolveTable h this in
  (h', rewrap "Error in reduceRight operation: "
         (let* resolvedTable := resolved in
          reduceRight_rows initialValue resolvedTable)).

(** One call of the reducer, on the row [i] of the table. *)
Definition reduce_step (table : Table) (acc : result R) (i : nat)
  : result R :=
  let* result := acc in
  reducer result (row_of table i) i.

End Reduce.

(** ** Rows with the same keys *)

(** Rows that all have the keys [keys], in that order. *)
Definition uniform_rows (keys : list string) (rows : list Row) : Prop :=
  Forall (fun row => List.map fst row = keys) rows.

(** The columns of such rows: for every key, the cells of the rows. *)
Definition columns_of (keys : list string) (rows : list Row)
  : list (string * list value) :=
  List.map (fun k => (k, List.map (fun row => prop row k) rows)) keys.

(** [null] for [null] and [undefined], as [tableFromArrays] stores a
    cell. *)
Definition stored (v : value) : value := if is_nullish v then VNull else v.

(** ** Unpivot (pivot.ts) *)

Record UnpivotOptions := {
  identifierColumns : list string;
  valueColumns : list string;
  nameColumn : string;
  valueColumn : string
}.

(** [schema.columns.find((col) => col.name === colName)] *)
Definition find_column (schema : TableSchema) (colName : string)
  : option ColumnSchema :=
  List.find (fun col => String.eqb (name col) colName) (columns schema).

(** [determineValueColumnType(schema, valueColumns)] *)
Definition determineValueColumnType (schema : TableSchema)
    (valueColumns : list string) : string :=
  let types :=
    List.filter (fun type => negb (String.eqb type "unknown"))
      (List.map (fun colName =>
                   match find_column schema colName with
                   | Some col => type col
                   | None => "unknown"
                   end)
         valueColumns) in
  match types with
  | [] => "float"
  | first :: _ =>
      if forallb (fun t => String.eqb t first) types then first
      else if forallb (fun t => String.eqb t "integer"
                                || String.eqb t "float"
                                || String.eqb t "number") types
      then "float"
      else "string"
  end.

(** The rows built by the loops of [unpivot]: for every row and every
    value column, a new row with the identifier cells, the name of the
    value column and its cell. *)
Definition unpivot_rows (rows : list Row) (options : UnpivotOptions)
  : list Row :=
  flat_map (fun row =>
              List.map (fun valueCol =>
                          let newRow :=
                            foldl (fun newRow idCol =>
                                     obj_set newRow idCol (prop row idCol))
                              [] (identifierColumns options) in
                          let newRow :=
                            obj_set newRow (nameColumn options)
                              (VStr valueCol) in
                          obj_set newRow (valueColumn options)
                            (prop row valueCol))
                (valueColumns options))
    rows.

(** [unpivot(table, schema, options)] *)
Definition unpivot (table : Table) (schema : TableSchema)
    (options : UnpivotOptions) : result (Table * TableSchema) :=
  rewrap "Error in unpivot operation: "
    (let newSchema :=
       {| tableName := tableName schema;
          columns :=
            List.map (fun colName =>
                        match find_column schema colName with
                        | Some originalCol => originalCol
                        | None => {| name := colName; type := "string";
                                     nullable := None |}
                        end)
              (identifierColumns options)
            ++ [{| name := nameColumn options; type := "string";
                   nullable := None |};
                {| name := valueColumn options;
                   type := determineValueColumnType schema
                             (valueColumns options);
                   nullable := None |}] |} in
     let* cols :=
       arrayToColumnarFormat (unpivot_rows (toArray table) options) in
     Ok (tableFromArrays cols, newSchema)).

(** A property name that JavaScript treats as an array index: such keys
    come first in the key order of an object, whenever they are set. *)
Definition integer_like (s : string) : bool :=
  match s with
  | String "0" EmptyString => true
  | String c rest => is_digit c && negb (Ascii.eqb c "0")
                     && all_chars is_digit rest
  | EmptyString => false
  end.

(** The unpivoted row of [row] for the value column [valueCol]. *)
Definition unpivoted_row (options : UnpivotOptions) (row : Row)
    (valueCol : string) : Row :=
  List.map (fun idCol => (idCol, stored (prop row idCol)))
    (identifierColumns options)
  ++ [(nameColumn options, VStr valueCol);
      (valueColumn options, stored (prop row valueCol))].

(** ** Where records and rebuilt tables are as the embedding has them *)

(** The names that an object inherits from [Object.prototype], and
    those that a row of an Arrow table has besides: reading such a key
    from an object that was not given it does not give [undefined]. *)
Definition inherited_names : list string :=
  ["constructor"; "hasOwnProperty"; "isPrototypeOf";
   "propertyIsEnumerable"; "toLocaleString"; "toString"; "valueOf";
   "__proto__"; "__defineGetter__"; "__defineSetter__";
   "__lookupGetter__"; "__lookupSetter__"; "toArray"; "toJSON"].

Definition inherited (k : string) : bool :=
  existsb (String.eqb k) inherited_names.

(** A key that an object keeps where it was first written and reads as
    [undefined] until then: not an array index, which an object lists
    before its other keys, and not an inherited name. *)
Definition ordinary_key (k : string) : bool :=
  negb (integer_like k) && negb (inherited k).

(** A column that Arrow's [tableFromArrays] gives a type: its cells that
    are not null or undefined are all numbers, all strings or all
    booleans.  For cells of several kinds it throws. *)
Definition one_kind (column : list value) : bool :=
  let present := List.filter (fun v => negb (is_nullish v)) column in
  forallb (fun v => match v with VNum _ => true | _ => false end) present
  || forallb (fun v => match v with VStr _ => true | _ => false end) present
  || forallb (fun v => match v with VBool _ => true | _ => false end)
       present.

(** Columns that a record keeps in the order written and that
    [tableFromArrays] accepts. *)
Definition arrow_columns (cols : list (string * list value)) : bool :=
  forallb (fun col => ordinary_key (fst col) && one_kind (snd col)) cols.

(** The integers that JavaScript adds exactly are those up to 2^53 in
    absolute value; a sum of integers is exact when their absolute
    values add up to no more. *)
Definition safe_to_add (numbers : list Z) : Prop :=
  (foldl Z.add 0 (List.map Z.abs numbers) <= 2 ^ 53)%Z.

(** A comparator that orders the elements of [l]: comparing two of them
    one way and the other way gives opposite signs, and what is before
    or equal carries over.  For such a comparator the sorted array is
    the same for every stable sort. *)
Definition consistent_comparator {A} (compareFn : A -> A -> Z)
    (l : list A) : bool :=
  forallb (fun a =>
             forallb (fun b =>
                        (Z.sgn (compareFn a b)
                         =? - Z.sgn (compareFn b a))%Z
                        && forallb (fun c =>
                                      implb ((compareFn a b <=? 0)%Z
                                             && (compareFn b c <=? 0)%Z)
                                        (compareFn a c <=? 0)%Z)
                             l)
               l)
    l.

(** ** Column statistics (ArrowStore.ts, [minMaxColumn], [countDistinct]) *)

Section ColumnStatistics.

Context (StringToNumber : string -> option Z).
Context (localeCompare : string -> string -> Z).

(** The body of the loop of [minMaxColumn]; the state is [min], [max]
    and [hasValue]. *)
Definition minMax_step (vector : Vector) (state : value * value * bool)
    (i : nat) : value * value * bool :=
  let '(min, max, hasValue) := state in
  if isValid vector i then
    let value := get vector i in
    if is_nullish value then state
    else if negb hasValue then (value, value, true)
    else
      let min' :=
        if (compare StringToNumber localeCompare value min <? 0)%Z
        then value else min in
      let max' :=
        if (0 <? compare StringToNumber localeCompare value max)%Z
        then value else max in
      (min', max', hasValue)
  else state.

(** The same step, as a function of the cell read. *)
Definition minMax_cell (state : value * value * bool) (cell : value)
  : value * value * bool :=
  let '(min, max, hasValue) := state in
  if is_nullish cell then state
  else if negb hasValue then (cell, cell, true)
  else
    ((if (compare StringToNumber localeCompare cell min <? 0)%Z
      then cell else min),
     (if (0 <? compare StringToNumber localeCompare cell max)%Z
      then cell else max),
     hasValue).

(** What [minMaxColumn] computes from the resolved table: [{min, max}]. *)
Definition minMax_of (table : Table) (columnName : string) : value * value :=
  match getChild table (VStr columnName) with
  | None => (VNull, VNull)
  | Some vector =>
      if length vector =? 0 then (VNull, VNull)
      else
        fst (foldl (minMax_step vector) (VNull, VNull, false)
               (seq 0 (length vector)))
  end.

(** [minMaxColumn(columnName)], called on the store [this] *)
Definition minMaxColumn (h : Heap) (this : nat) (columnName : string)
  : Heap * result (value * value) :=
  let '(h', resolved) := resolveTable h this in
  (h', let* table := resolved in Ok (minMax_of table columnName)).

End ColumnStatistics.

(** What [countDistinct] computes from the resolved table: the size of
    the set of the valid cells. *)
Definition countDistinct_of (table : Table) (columnName : string) : nat :=
  match getChild table (VStr columnName) with
  | None => 0
  | Some vector =>
      length
        (foldl (fun distinctValues i =>
                  if isValid vector i
                  then set_add distinctValues (get vector i)
                  else distinctValues)
           [] (seq 0 (length vector)))
  end.

(** [countDistinct(columnName)], called on the store [this] *)
Definition countDistinct (h : Heap) (this : nat) (columnName : string)
  : Heap * result nat :=
  let '(h', resolved) := resolveTable h this in
  (h', let* table := resolved in Ok (countDistinct_of table columnName)).

(** The integers among the cells of a column. *)
Definition numbers_of (vector : Vector) : list Z :=
  omap (fun v => match v with VNum n => Some n | _ => None end) vector.

(** A column of integers, some of them null. *)
Definition integer_column (vector : Vector) : Prop :=
  Forall (fun v => match v with VNum _ | VNull => True | _ => False end)
    vector.

(** A value that [===] compares by content. *)
Definition primitive (v : value) : bool :=
  match v with VArr _ | VObj _ => false | _ => true end.

(** ** Sorted tables *)

(** Rows of a table, in any number and order. *)
Definition rows_of_table (table : Table) (rows : list Row) : Prop :=
  Forall (fun row => exists i, row = row_of table i) rows.

(** The order of the cells of a sorted column of integers: a null cell
    comes before any cell, an integer before the integers that are not
    smaller ([asc]) or not greater ([desc]). *)
Definition cell_le (direction : Direction) (u v : value) : Prop :=
  match u, v with
  | VNull, _ => True
  | VNum x, VNum y =>
      match direction with
      | asc => (x <= y)%Z
      | desc => (y <= x)%Z
      end
  | _, _ => False
  end.

(** ** One item of each array *)

(** The ways of choosing one item from each list, the first list varying
    slowest. *)
Fixpoint choices {A} (lists : list (list A)) : list (list A) :=
  match lists with
  | [] => [[]]
  | items :: rest =>
      flat_map (fun item => List.map (cons item) (choices rest)) items
  end.

(** ** Join (ArrowStore.ts, [join]) *)

(** The lookup [Map] of [join], from the cells of the join column to row
    indices.  A [Map] compares keys like [===] on the values of the
    model and keeps them in insertion order.  [map_get] is
    [rightMap.get(key)]. *)
Fixpoint map_get (rightMap : list (value * list nat)) (key : value)
  : option (list nat) :=
  match rightMap with
  | [] => None
  | (k, indices) :: rest =>
      if strict_eq k key then Some indices else map_get rest key
  end.

(** [if (!rightMap.has(key)) rightMap.set(key, []);
     rightMap.get(key).push(i)]: the entry read back is the entry of
    [key], also when it has just been set for an object. *)
Fixpoint map_push (rightMap : list (value * list nat)) (key : value)
    (i : nat) : list (value * list nat) :=
  match rightMap with
  | [] => [(key, [i])]
  | (k, indices) :: rest =>
      if strict_eq k key then (k, indices ++ [i]) :: rest
      else (k, indices) :: map_push rest key i
  end.







(** Orders by person, for the worked example of a join: a second store
    beside the sample store. *)
Definition orders : Table :=
  [("id", [VNum 3; VNum 1; VNum 3; VNull]);
   ("item", [VStr "pen"; VStr "ink"; VStr "cap"; VStr "nib"])].

Definition orders_heap : Heap :=
  people_heap
  ++ [{| table_ := orders;
         schema_ := {| tableName := "orders";
                       columns := [column "id"; column "item"] |};
         pendingOperations := [] |}].

(** ** What the lexer returns *)

(** The two errors of the lexer. *)
Definition lexer_error (e : string) : Prop :=
  (exists c position, e = unexpected_character c position) \/
  (exists position,
      e = "Unterminated string literal starting at position "
          +:+ string_of_nat position).

(** The outcome of lexing [input] from [position] on, [tokens] being the
    tokens read so far: more tokens, none of them the end token, and the
    end token at the end of the input; or one of the two errors. *)
Definition lexed (input : string) (position : nat) (tokens : list Token)
    (outcome : result (list Token)) : Prop :=
  match outcome with
  | Ok out =>
      exists produced,
        out = tokens ++ produced
              ++ [token TokenType.EOF "EOF"
                    (position + String.length input)] /\
        Forall (fun t => tok_type t <> TokenType.EOF) produced
  | Err e => lexer_error e
  end.

(** ** Rows turned into columns: the keys of the columns *)

(** The columns that [arrayToColumnarFormat] is building have the keys
    [keys] of the first row, or the error has been raised. *)
Definition columns_or_error (keys : list string)
    (acc : result (list (string * list value))) : Prop :=
  match acc with
  | Ok r => forall x, In x (List.map fst r) <-> In x keys
  | Err e => e = TypeError_read VUndefined "push"
  end.


(** ** Columns by name and by position (ArrowStore.ts, [getColumn]) *)

(** [l.findIndex(p)]: the index of the first element that satisfies
    [p], or -1. *)
Fixpoint findIndex {A} (p : A -> bool) (l : list A) : Z :=
  match l with
  | [] => (-1)%Z
  | x :: rest =>
      if p x then 0%Z
      else
        let i := findIndex p rest in
        if (i <? 0)%Z then (-1)%Z else (i + 1)%Z
  end.

(** [getColumnAt(columnIndex)]: the bounds are those of the schema, the
    vector is read from the table that the store holds, where
    [getChildAt] gives [null] past the last column. *)
Definition getColumnAt (store : ArrowStore) (columnIndex : Z)
  : option Vector :=
  if (columnIndex <? 0)%Z
     || (Z.of_nat (length (columns (schema_ store))) <=? columnIndex)%Z
  then None
  else snd <$> table_ store !! Z.to_nat columnIndex.

(** [getColumn(columnName)] *)
Definition getColumn (store : ArrowStore) (columnName : string)
  : option Vector :=
  getColumnAt store
    (findIndex (fun col => String.eqb (name col) columnName)
       (columns (schema_ store))).


(** ** Aggregations (Aggregations.ts) *)

(** [a + b]: when an operand is a string once arrays and objects are
    turned into their strings, the concatenation of the strings of both;
    otherwise the sum of their numbers.  [None] stands for NaN, which
    only [undefined] gives here.  The numbers are integers; the sum is
    the one of JavaScript as long as the integers are those that it adds
    exactly. *)
Definition js_add (a b : value) : option value :=
  let primitive_of (v : value) :=
    match v with
    | VArr _ | VObj _ => VStr (String_ v)
    | _ => v
    end in
  let number_of (v : value) :=
    match v with
    | VNull => Some 0%Z
    | VBool b => Some (if b then 1%Z else 0%Z)
    | VNum n => Some n
    | _ => None
    end in
  match primitive_of a, primitive_of b with
  | VStr x, pb => Some (VStr (x +:+ String_ pb))
  | pa, VStr y => Some (VStr (String_ pa +:+ y))
  | pa, pb =>
      match number_of pa, number_of pb with
      | Some x, Some y => Some (VNum (x + y))
      | _, _ => None
      end
  end.

(** [values.map((record) => record[field])
          .filter((val) => val !== null && val !== undefined)] *)
Definition field_values (field : string) (values : list Row) : list value :=
  List.filter (fun val => negb (is_nullish val))
    (List.map (fun record => prop record field) values).

(** [Aggregations.count()], [Aggregations.sum(field)] and
    [Aggregations.countDistinct(field)], applied to the records of a
    group. *)
Definition Aggregations_count (values : list Row) : nat := length values.

Definition Aggregations_sum (field : string) (values : list Row)
  : option value :=
  foldl (fun sum val =>
           match sum with
           | Some s => js_add s val
           | None => None
           end)
    (Some (VNum 0)) (field_values field values).

Definition Aggregations_countDistinct (field : string) (values : list Row)
  : nat :=
  length (foldl set_add [] (field_values field values)).

(** What a sum is: a number, or a string once a string has been
    added. *)
Definition number_or_string (v : value) : Prop :=
  match v with
  | VNum _ | VStr _ => True
  | _ => False
  end.


(** ** Pages and slices (ArrowStore.ts, [paginate] and [slice]) *)

Section Paginate.

(** [table.slice(begin, end)] of Arrow, which the two methods call with
    numbers of the caller. *)
Context (Table_slice : Table -> Z -> Z -> Table).

(** The operation that [paginate(page, pageSize)] queues. *)
Definition paginate_executor (page pageSize : Z) : Executor :=
  fun _ table =>
    let start := ((page - 1) * pageSize)%Z in
    let stop := Z.min (start + pageSize) (Z.of_nat (numRows table)) in
    Ok {| res_table := Table_slice table start stop; res_schema := None |}.

(** [paginate(page, pageSize)], called on the store [this] *)
Definition paginate (h : Heap) (this : nat) (page pageSize : Z)
  : Heap * nat :=
  createInstance h this (paginate_executor page pageSize).

(** The operation that [slice(start, end)] queues. *)
Definition slice_executor (start stop : Z) : Executor :=
  fun _ table =>
    Ok {| res_table := Table_slice table start stop; res_schema := None |}.

(** [slice(start, end)], called on the store [this] *)
Definition slice_ (h : Heap) (this : nat) (start stop : Z) : Heap * nat :=
  createInstance h this (slice_executor start stop).

(** The rows of a page, as [getAll] returns them once the operation has
    run. *)
Definition page_rows (schema : TableSchema) (table : Table)
    (page pageSize : Z) : list Row :=
  match paginate_executor page pageSize schema table with
  | Ok step => toArray (res_table step)
  | Err _ => []
  end.

End Paginate.

(** Arrow's [slice] inside the table: the rows from [begin] to before
    [end]. *)
Definition slices_in_range (Table_slice : Table -> Z -> Z -> Table) : Prop :=
  forall table start stop,
    (0 <= start <= stop)%Z -> (stop <= Z.of_nat (numRows table))%Z ->
    Table_slice table start stop =
    table_slice table (Z.to_nat start) (Z.to_nat stop).


(** ** Rows as a map (ArrowStore.ts, [toMap]) *)

(** A [Map] whose keys are values of the model: the keys are compared
    like [===] and kept in insertion order.  [Map_get] is [map.get(key)],
    [Map_set] is [map.set(key, value)], which keeps the place of a key
    that the map has. *)
Fixpoint Map_get {V} (map : list (value * V)) (key : value) : option V :=
  match map with
  | [] => None
  | (k, v) :: rest => if strict_eq k key then Some v else Map_get rest key
  end.

Fixpoint Map_set {V} (map : list (value * V)) (key : value) (v : V)
  : list (value * V) :=
  match map with
  | [] => [(key, v)]
  | (k, v0) :: rest =>
      if strict_eq k key then (k, v) :: rest
      else (k, v0) :: Map_set rest key v
  end.

Section ToMap.

(** The two functions of the caller, which can throw; [valueFn] is
    optional. *)
Context (keyFn : Row -> result value).
Context (valueFn : option (Row -> result value)).

(** The loops of [toMap], on the resolved table. *)
Definition toMap_rows (resolvedTable : Table)
  : result (list (value * value)) :=
  if numRows resolvedTable =? 0 then Ok []
  else
    let batchSize := 10000 in
    foldl (fun acc i =>
             let* resultMap := acc in
             let stop := Nat.min (i + batchSize) (numRows resolvedTable) in
             let batchData := toArray (table_slice resolvedTable i stop) in
             foldl (fun acc item =>
                      let* resultMap := acc in
                      let* key := keyFn item in
                      let* value := match valueFn with
                                    | Some f => f item
                                    | None => Ok (VObj item)
                                    end in
                      Ok (Map_set resultMap key value))
               (Ok resultMap) batchData)
      (Ok [])
      (batch_starts (numRows resolvedTable) 0 (numRows resolvedTable)
         batchSize).

(** [toMap(keyFn, valueFn)], called on the store [this] *)
Definition toMap (h : Heap) (this : nat)
  : Heap * result (list (value * value)) :=
  let '(h', resolved) := resolveTable h this in
  (h', rewrap "Error in toMap operation: "
         (let* resolvedTable := resolved in
          toMap_rows resolvedTable)).

(** One pass of the inner loop. *)
Definition toMap_step (acc : result (list (value * value))) (item : Row)
  : result (list (value * value)) :=
  let* resultMap := acc in
  let* key := keyFn item in
  let* value := match valueFn with
                | Some f => f item
                | None => Ok (VObj item)
                end in
  Ok (Map_set resultMap key value).

End ToMap.


(** ** Grouping (ArrowStore.ts, [groupBy]) *)

(** An aggregation function: its [name], its [sourceField] when it has
    one, and what it returns for the rows of a group; it can throw. *)
Record Aggregation := {
  agg_name : string;
  sourceField : option string;
  agg_apply : list Row -> result value
}.

(** The first pass of [groupBy]: the [Set] of the values of the group
    column and the [Map] from a value to the indices of its rows. *)
Definition groupBy_groups (groupByVector : Vector)
  : list value * list (value * list nat) :=
  foldl (fun '(uniqueValues, valueToIndices) i =>
           let value := get groupByVector i in
           if is_nullish value then (uniqueValues, valueToIndices)
           else (set_add uniqueValues value,
                 map_push valueToIndices value i))
    ([], []) (seq 0 (length groupByVector)).

(** The names that [groupBy] computes itself. *)
Definition optimizable (name : string) : bool :=
  existsb (String.eqb name)
    ["sum"; "average"; "min"; "max"; "count"; "countDistinct"].

Section GroupBy.

(** The numbers that the integers of the model do not have: NaN, a
    quotient, and what [Math.min] and [Math.max] return. *)
Context (NaN : value).
Context (js_divide : value -> nat -> value).
Context (Math_min Math_max : list value -> value).

(** [values.reduce((sum, v) => sum + v, 0)] *)
Definition reduce_add (values : list value) : value :=
  default NaN
    (foldl (fun sum val =>
              match sum with
              | Some s => js_add s val
              | None => None
              end)
       (Some (VNum 0)) values).

(** The cell that one aggregation gives for the group of the rows
    [indices]. *)
Definition aggregate_group (table : Table) (indices : list nat)
    (aggFn : Aggregation) : result value :=
  let name := agg_name aggFn in
  let custom := agg_apply aggFn (List.map (row_of table) indices) in
  let source :=
    match sourceField aggFn with
    | Some s => if String.eqb s "" then None else Some s
    | None => None
    end in
  if optimizable name then
    match source with
    | None =>
        if String.eqb name "count"
        then Ok (VNum (Z.of_nat (length indices)))
        else custom
    | Some s =>
        if String.eqb name "count"
        then Ok (VNum (Z.of_nat (length indices)))
        else
          match getChild table (VStr s) with
          | Some sourceVector =>
              let values :=
                List.filter (fun v => negb (is_nullish v))
                  (List.map (get sourceVector) indices) in
              Ok (if String.eqb name "sum" then reduce_add values
                  else if String.eqb name "average" then
                    if 0 <? length values
                    then js_divide (reduce_add values) (length values)
                    else VNull
                  else if String.eqb name "min" then
                    if 0 <? length values then Math_min values else VNull
                  else if String.eqb name "max" then
                    if 0 <? length values then Math_max values else VNull
                  else if String.eqb name "countDistinct" then
                    VNum (Z.of_nat (length (foldl set_add [] values)))
                  else VUndefined)
          | None => custom
          end
    end
  else custom.

(** What follows the lookup of the group column in the operation that
    [groupBy(field, aggregations)] queues; [aggregations] are the
    entries of the object, in the order of [Object.entries]. *)
Definition aggregate (field : string) (table : Table)
    (groupByVector : Vector) (aggregations : list (string * Aggregation))
  : result StepResult :=
  let '(uniqueValues, valueToIndices) := groupBy_groups groupByVector in
  let result :=
    foldl (fun r aggField => obj_set r aggField [])
      [(field, uniqueValues)] (List.map fst aggregations) in
  let* result :=
    foldl (fun acc value =>
             let* r := acc in
             let indices := map_get valueToIndices value in
             foldl (fun acc '(aggField, aggFn) =>
                      let* r := acc in
                      let* cell :=
                        match indices with
                        | Some indices => aggregate_group table indices aggFn
                        | None =>
                            Err (TypeError_read VUndefined
                                   (if String.eqb (agg_name aggFn) "count"
                                    then "length" else "map"))
                        end in
                      match push_cell r aggField cell with
                      | Some r' => Ok r'
                      | None => Err (TypeError_read VUndefined "push")
                      end)
               (Ok r) aggregations)
      (Ok result) uniqueValues in
  Ok {| res_table := tableFromArrays result; res_schema := None |}.

(** [groupBy(field, aggregations)], called on the store [this] *)
Definition groupBy_ (h : Heap) (this : nat) (field : string)
    (aggregations : list (string * Aggregation)) : Heap * nat :=
  createInstance h this
    (groupBy_executor (aggregate field) field aggregations).

End GroupBy.

(** The rows of a group: the indices of the rows whose cell is [value],
    in the order of the table. *)
Definition group_indices (groupByVector : Vector) (value : value)
  : list nat :=
  List.filter (fun i => strict_eq (get groupByVector i) value)
    (seq 0 (length groupByVector)).

(** What an aggregation computes for a group of rows of [table]:
    a function named [count] counts the rows; a function named [sum]
    with a [sourceField] that is a column of integers adds the integers
    of the group, those of the column being integers that JavaScript
    adds exactly; a function with another name than the six that
    [groupBy] computes itself is called with the rows of the group. *)
Inductive aggregates (table : Table) : Aggregation -> (list nat -> value)
                                       -> Prop :=
| aggregates_count aggFn :
    agg_name aggFn = "count" ->
    aggregates table aggFn
      (fun indices => VNum (Z.of_nat (length indices)))
| aggregates_sum aggFn source sourceVector :
    agg_name aggFn = "sum" ->
    sourceField aggFn = Some source -> source <> "" ->
    getChild table (VStr source) = Some sourceVector ->
    integer_column sourceVector ->
    safe_to_add (numbers_of sourceVector) ->
    aggregates table aggFn
      (fun indices =>
         VNum (foldl Z.add 0%Z
                 (numbers_of (List.map (get sourceVector) indices))))
| aggregates_custom aggFn (f : list Row -> value) :
    optimizable (agg_name aggFn) = false ->
    (forall rows, agg_apply aggFn rows = Ok (f rows)) ->
    aggregates table aggFn
      (fun indices => f (List.map (row_of table) indices)).

(** [Aggregations.count()] and [Aggregations.sum(field)], as [groupBy]
    sees them: functions named [count] and [sum], the second with its
    [sourceField]. *)
Definition count_aggregation : Aggregation :=
  {| agg_name := "count";
     sourceField := None;
     agg_apply := fun values =>
                    Ok (VNum (Z.of_nat (Aggregations_count values))) |}.

Definition sum_aggregation (NaN : value) (field : string) : Aggregation :=
  {| agg_name := "sum";
     sourceField := Some field;
     agg_apply := fun values =>
                    Ok (default NaN (Aggregations_sum field values)) |}.

(** * Proofs *)

(** ** Batched loops visit every row once, in order *)

Lemma concat_batch_rows (fuel i n batchSize : nat) :
  0 < batchSize -> n - i <= fuel ->
  concat (List.map (fun i => seq i (Nat.min (i + batchSize) n - i))
            (batch_starts fuel i n batchSize)) = seq i (n - i).
Proof.
  intros Hb. revert i.
  induction fuel as [|fuel IH]; intros i Hfuel; simpl.
  - replace (n - i) with 0 by lia. reflexivity.
  - destruct (Nat.ltb_spec i n) as [Hlt|Hge]; simpl.
    + rewrite IH by lia.
      destruct (Nat.le_gt_cases n (i + batchSize)) as [Hlast|Hmore].
      * rewrite Nat.min_r by lia.
        replace (n - (i + batchSize)) with 0 by lia.
        simpl. apply app_nil_r.
      * rewrite Nat.min_l by lia.
        replace (n - i) with ((i + batchSize - i) + (n - (i + batchSize)))
          by lia.
        rewrite seq_app. f_equal. f_equal; lia.
    + replace (n - i) with 0 by lia. reflexivity.
Qed.

Lemma batched_indices_seq (n batchSize : nat) :
  0 < batchSize -> batched_indices n batchSize = seq 0 n.
Proof.
  intros Hb. unfold batched_indices, batches.
  rewrite concat_batch_rows by lia. f_equal. lia.
Qed.

(** ** Row loops that narrow a mask *)

Lemma kept_bit_idem keep i b :
  kept_bit keep i (kept_bit keep i b) = kept_bit keep i b.
Proof.
  unfold kept_bit.
  destruct (b =? 0)%Z eqn:Hb; [now rewrite Hb|].
  destruct (keep i); [now rewrite Hb | reflexivity].
Qed.

Lemma narrow_lookup keep (mask : Mask) j i :
  narrow keep mask j !! i =
  if decide (j = i) then kept_bit keep i <$> mask !! i else mask !! i.
Proof.
  unfold narrow, filtered_out, clear, kept_bit.
  destruct (decide (j = i)) as [->|Hne].
  - destruct (mask !! i) as [b|] eqn:Hi; cbn [fmap option_fmap option_map].
    + destruct (b =? 0)%Z; [exact Hi|].
      destruct (keep i); [exact Hi|].
      apply list_lookup_insert_eq. now apply lookup_lt_Some in Hi.
    + destruct (keep i); [exact Hi|].
      rewrite list_insert_ge; [exact Hi|]. now apply lookup_ge_None.
  - destruct (mask !! j) as [b|]; [destruct (b =? 0)%Z|];
      try reflexivity;
      destruct (keep j); try reflexivity;
      now apply list_lookup_insert_ne.
Qed.

Lemma narrow_length keep (mask : Mask) j :
  length (narrow keep mask j) = length mask.
Proof.
  unfold narrow, clear.
  destruct (filtered_out mask j); [reflexivity|].
  destruct (keep j); [reflexivity|]. apply length_insert.
Qed.

Lemma foldl_narrow_length keep rows (mask : Mask) :
  length (foldl (narrow keep) mask rows) = length mask.
Proof.
  revert mask. induction rows as [|j rows IH]; intros mask; simpl.
  - reflexivity.
  - rewrite IH. apply narrow_length.
Qed.

Lemma foldl_narrow_lookup keep rows (mask : Mask) i :
  foldl (narrow keep) mask rows !! i =
  (fun b => if bool_decide (i ∈ rows) then kept_bit keep i b else b)
    <$> mask !! i.
Proof.
  revert mask. induction rows as [|j rows IH]; intros mask;
    cbn [foldl].
  - rewrite bool_decide_eq_false_2 by apply not_elem_of_nil.
    now destruct (mask !! i).
  - rewrite IH, narrow_lookup.
    destruct (decide (j = i)) as [->|Hne].
    + rewrite (bool_decide_eq_true_2 (i ∈ i :: rows))
        by apply list_elem_of_here.
      destruct (mask !! i) as [b|]; simpl; [|reflexivity].
      destruct (bool_decide (i ∈ rows)); [|reflexivity].
      now rewrite kept_bit_idem.
    + destruct (mask !! i) as [b|]; simpl; [|reflexivity].
      f_equal. destruct (decide (i ∈ rows)) as [Hin|Hnin].
      * rewrite (bool_decide_eq_true_2 (i ∈ rows)) by assumption.
        rewrite (bool_decide_eq_true_2 (i ∈ j :: rows)); [reflexivity|].
        now apply list_elem_of_further.
      * rewrite (bool_decide_eq_false_2 (i ∈ rows)) by assumption.
        rewrite (bool_decide_eq_false_2 (i ∈ j :: rows)); [reflexivity|].
        intros [Heq|Hin]%elem_of_cons; [congruence | contradiction].
Qed.

Lemma foldl_pointwise {A B} (f g : A -> B -> A) (a : A) (l : list B) :
  (forall x y, f x y = g x y) -> foldl f a l = foldl g a l.
Proof.
  intros Hfg. revert a. induction l as [|y l IH]; intros a; simpl.
  - reflexivity.
  - now rewrite Hfg, IH.
Qed.

Lemma foldl_narrow_true keep rows (mask : Mask) :
  (forall j, keep j = true) -> foldl (narrow keep) mask rows = mask.
Proof.
  intros Hkeep. revert mask.
  induction rows as [|j rows IH]; intros mask; cbn [foldl].
  - reflexivity.
  - rewrite IH. unfold narrow. rewrite Hkeep.
    now destruct (filtered_out mask j).
Qed.

(** ** Masks as selections of rows *)

Lemma FilterCondition_nested_ind (P : FilterCondition -> Prop) :
  (forall l, Forall P l -> P (AND l)) ->
  (forall l, Forall P l -> P (OR l)) ->
  (forall c, P c -> P (NOT c)) ->
  (forall field filter, P (FieldFilter field filter)) ->
  forall c, P c.
Proof.
  intros HAND HOR HNOT HField. fix IH 1. intros [l|l|c|field filter].
  - apply HAND. induction l as [|c l IHl]; constructor; [apply IH|exact IHl].
  - apply HOR. induction l as [|c l IHl]; constructor; [apply IH|exact IHl].
  - apply HNOT, IH.
  - apply HField.
Qed.

Lemma map_fmap {A B} (f : A -> B) (l : list A) : List.map f l = f <$> l.
Proof. induction l as [|x l IH]; simpl; [reflexivity | now rewrite IH]. Qed.

Lemma select_lookup keep (mask : Mask) i :
  select keep mask !! i = (fun b => if keep i then b else 0%Z) <$> mask !! i.
Proof. unfold select. apply list_lookup_imap. Qed.

Lemma select_length keep (mask : Mask) :
  length (select keep mask) = length mask.
Proof. unfold select. apply length_imap. Qed.

Lemma select_ext keep keep' (mask : Mask) :
  (forall i, i < length mask -> keep i = keep' i) ->
  select keep mask = select keep' mask.
Proof.
  intros Hext. unfold select. apply imap_ext. intros i b Hi.
  rewrite Hext; [reflexivity|]. now apply lookup_lt_Some in Hi.
Qed.

Lemma select_true (mask : Mask) : select (fun _ => true) mask = mask.
Proof.
  apply list_eq. intros i. rewrite select_lookup.
  now destruct (mask !! i).
Qed.

Lemma select_select keep keep' (mask : Mask) :
  select keep' (select keep mask) = select (fun i => keep i && keep' i) mask.
Proof.
  apply list_eq. intros i. rewrite !select_lookup.
  destruct (mask !! i) as [b|]; simpl; [|reflexivity].
  now destruct (keep i), (keep' i).
Qed.

Lemma select_mask01 keep (mask : Mask) :
  mask01 mask -> mask01 (select keep mask).
Proof.
  unfold mask01. intros H01. apply Forall_lookup_2. intros i b.
  rewrite select_lookup. destruct (mask !! i) as [b'|] eqn:Hi; simpl;
    [|discriminate].
  intros [= <-]. destruct (keep i); [|now left].
  exact (Forall_lookup_1 _ _ _ _ H01 Hi).
Qed.

Lemma filled_lookup_lt n b i : i < n -> filled n b !! i = Some b.
Proof. apply lookup_replicate_2. Qed.

Lemma filled_lookup_ge n b i : n <= i -> filled n b !! i = None.
Proof. intros Hge. now apply lookup_replicate_None. Qed.

Lemma filled_mask01 n : mask01 (filled n 1%Z).
Proof.
  unfold mask01, filled. apply Forall_lookup_2. intros i b Hi.
  apply lookup_replicate in Hi. right. tauto.
Qed.

Lemma filled_zero_select n :
  filled n 0%Z = select (fun _ => false) (filled n 1%Z).
Proof.
  apply list_eq. intros i. rewrite select_lookup.
  destruct (Nat.lt_ge_cases i n) as [Hlt|Hge].
  - now rewrite !filled_lookup_lt by assumption.
  - now rewrite !filled_lookup_ge by assumption.
Qed.

Lemma foldl_narrow_select keep (mask : Mask) :
  foldl (narrow keep) mask (seq 0 (length mask)) = select keep mask.
Proof.
  apply list_eq. intros i. rewrite foldl_narrow_lookup, select_lookup.
  destruct (mask !! i) as [b|] eqn:Hi; simpl; [|reflexivity].
  rewrite bool_decide_eq_true_2.
  - unfold kept_bit. destruct (Z.eqb_spec b 0) as [->|_]; [|reflexivity].
    now destruct (keep i).
  - apply list_elem_of_In, in_seq. apply lookup_lt_Some in Hi. lia.
Qed.

Lemma land_select keep (mask : Mask) :
  mask01 mask ->
  zip_with Z.land mask (select keep (filled (length mask) 1%Z)) =
  select keep mask.
Proof.
  intros H01. apply list_eq. intros i.
  rewrite lookup_zip_with, !select_lookup.
  destruct (mask !! i) as [b|] eqn:Hi; simpl; [|reflexivity].
  rewrite filled_lookup_lt by now apply lookup_lt_Some in Hi.
  simpl. f_equal.
  destruct (Forall_lookup_1 _ _ _ _ H01 Hi) as [->| ->];
    now destruct (keep i).
Qed.

Lemma or_select keep keep' n :
  zip_with (fun o t => if (o =? 0)%Z then t else o)
    (select keep (filled n 1%Z)) (select keep' (filled n 1%Z)) =
  select (fun i => keep i || keep' i) (filled n 1%Z).
Proof.
  apply list_eq. intros i.
  rewrite lookup_zip_with, !select_lookup.
  destruct (Nat.lt_ge_cases i n) as [Hlt|Hge].
  - rewrite !filled_lookup_lt by assumption. simpl.
    now destruct (keep i), (keep' i).
  - now rewrite !filled_lookup_ge by assumption.
Qed.

Lemma flip_select keep n :
  List.map (fun b => if (b =? 0)%Z then 1%Z else 0%Z)
    (select keep (filled n 1%Z)) =
  select (fun i => negb (keep i)) (filled n 1%Z).
Proof.
  rewrite map_fmap. apply list_eq. intros i.
  rewrite list_lookup_fmap, !select_lookup.
  destruct (Nat.lt_ge_cases i n) as [Hlt|Hge].
  - rewrite !filled_lookup_lt by assumption. simpl.
    now destruct (keep i).
  - now rewrite !filled_lookup_ge by assumption.
Qed.

Lemma and_select keep keep' n :
  mask_and (select keep (filled n 1%Z)) (select keep' (filled n 1%Z)) =
  select (fun i => keep i && keep' i) (filled n 1%Z).
Proof.
  unfold mask_and. apply list_eq. intros i.
  rewrite lookup_zip_with, !select_lookup.
  destruct (Nat.lt_ge_cases i n) as [Hlt|Hge].
  - rewrite !filled_lookup_lt by assumption. simpl.
    now destruct (keep i), (keep' i).
  - now rewrite !filled_lookup_ge by assumption.
Qed.

Lemma lor_select keep keep' n :
  mask_or (select keep (filled n 1%Z)) (select keep' (filled n 1%Z)) =
  select (fun i => keep i || keep' i) (filled n 1%Z).
Proof.
  unfold mask_or. apply list_eq. intros i.
  rewrite lookup_zip_with, !select_lookup.
  destruct (Nat.lt_ge_cases i n) as [Hlt|Hge].
  - rewrite !filled_lookup_lt by assumption. simpl.
    now destruct (keep i), (keep' i).
  - now rewrite !filled_lookup_ge by assumption.
Qed.

Lemma not_select keep n :
  mask_not (select keep (filled n 1%Z)) =
  select (fun i => negb (keep i)) (filled n 1%Z).
Proof.
  unfold mask_not. rewrite map_fmap. apply list_eq. intros i.
  rewrite list_lookup_fmap, !select_lookup.
  destruct (Nat.lt_ge_cases i n) as [Hlt|Hge].
  - rewrite !filled_lookup_lt by assumption. simpl.
    now destruct (keep i).
  - now rewrite !filled_lookup_ge by assumption.
Qed.

(** ** The mask evaluator against the null policy *)

Section MaskEvaluator.

Context (StringToNumber : string -> option Z).

#[local] Abbreviation policy := (null_policy StringToNumber).

Ltac split_row :=
  repeat (simpl;
          match goal with
          | |- context [filtered_out ?m ?j] => destruct (filtered_out m j)
          | |- context [is_null ?v] => destruct (is_null v)
          | |- context [is_number ?v] => destruct (is_number v)
          | |- context [strict_eq ?a ?b] => destruct (strict_eq a b)
          | |- context [array_includes ?a ?b] =>
              destruct (array_includes a b)
          | |- context [match ?v with VStr _ => _ | _ => _ end] =>
              destruct v
          | |- context [negb ?b] => destruct b
          | |- context [if ?b then _ else _] => destruct b
          end);
  try reflexivity.

Lemma eq_row_narrow value vector mask j :
  eq_row value vector mask j =
  narrow (fun j => policy (VStr "eq") value (get vector j)) mask j.
Proof.
  unfold eq_row, narrow, null_policy, isValid. simpl. split_row.
Qed.

Lemma neq_row_narrow value vector mask j :
  neq_row value vector mask j =
  narrow (fun j => policy (VStr "neq") value (get vector j)) mask j.
Proof.
  unfold neq_row, narrow, null_policy, isValid. simpl. split_row.
Qed.

Lemma range_row_narrow op value vector mask j :
  In op (List.map VStr ["gt"; "gte"; "lt"; "lte"]) ->
  range_row StringToNumber op value vector mask j =
  narrow (fun j => policy op value (get vector j)) mask j.
Proof.
  intros Hop. simpl in Hop.
  destruct Hop as [<-|[<-|[<-|[<-|[]]]]];
    unfold range_row, narrow, null_policy, comparison_holds, isValid;
    simpl; split_row.
Qed.

Lemma string_row_narrow op value vector mask j :
  In op (List.map VStr ["contains"; "startsWith"; "endsWith"]) ->
  string_row op value vector mask j =
  narrow (fun j => policy op value (get vector j)) mask j.
Proof.
  intros Hop. simpl in Hop.
  destruct Hop as [<-|[<-|[<-|[]]]];
    unfold string_row, narrow, null_policy, string_test, isValid;
    simpl; split_row.
Qed.

Lemma in_row_narrow value vector mask j :
  in_row value vector mask j =
  narrow (fun j => policy (VStr "in") value (get vector j)) mask j.
Proof.
  unfold in_row, narrow, null_policy, isValid. simpl. split_row.
Qed.

Lemma op_is_eq op s : op_is op s = true -> op = VStr s.
Proof.
  unfold op_is. destruct op; simpl; try discriminate.
  now intros ->%String.eqb_eq.
Qed.

Lemma op_in_In op ops : op_in op ops = true -> In op (List.map VStr ops).
Proof.
  unfold op_in. intros [x [Hin Heq]]%existsb_exists.
  apply op_is_eq in Heq. subst. now apply in_map.
Qed.

Lemma evaluateBasicFilter_narrow table field filter vector mask :
  getChild table field = Some vector ->
  evaluateBasicFilter StringToNumber table field filter mask =
  Ok (foldl (narrow (fun j => policy (op filter) (fvalue filter)
                                (get vector j)))
        mask (seq 0 (numRows table))).
Proof.
  intros Hchild. unfold evaluateBasicFilter.
  rewrite Hchild, batched_indices_seq by lia.
  destruct filter as [o v]. cbn [op fvalue] in *.
  destruct (op_is o "eq") eqn:E1.
  { apply op_is_eq in E1. subst o. f_equal.
    apply foldl_pointwise. intros m j. apply eq_row_narrow. }
  destruct (op_is o "neq") eqn:E2.
  { apply op_is_eq in E2. subst o. f_equal.
    apply foldl_pointwise. intros m j. apply neq_row_narrow. }
  destruct (op_in o ["gt"; "gte"; "lt"; "lte"]) eqn:E3.
  { f_equal. apply foldl_pointwise. intros m j.
    apply range_row_narrow. now apply op_in_In. }
  destruct (op_in o ["contains"; "startsWith"; "endsWith"]) eqn:E4.
  { f_equal. apply foldl_pointwise. intros m j.
    apply string_row_narrow. now apply op_in_In. }
  destruct (op_is o "in") eqn:E5.
  { apply op_is_eq in E5. subst o. f_equal.
    apply foldl_pointwise. intros m j. apply in_row_narrow. }
  f_equal. symmetry. apply foldl_narrow_true. intros j.
  unfold null_policy. now rewrite E1, E2, E3, E4, E5.
Qed.

Lemma validateField_present schema fieldName :
  In fieldName (List.map name (columns schema)) ->
  validateField schema (VStr fieldName) = Ok tt.
Proof.
  intros Hin. unfold validateField.
  replace (existsb _ _) with true; [reflexivity|].
  symmetry. apply existsb_exists. exists fieldName. split; [exact Hin|].
  apply String.eqb_refl.
Qed.

(** C1.  Evaluating the field condition [{field, {op, value}}] with one
    of the ten operators keeps a row that is still in the mask exactly
    when the null policy of section 4.2 says so for its cell and the
    filter value: the evaluation succeeds, and the bit of row [i] in the
    resulting mask is 1 if [null_policy] holds and 0 otherwise. *)
Theorem null_policy_laws schema table field filter vector (mask : Mask) i :
  In field (List.map name (columns schema)) ->
  getChild table (VStr field) = Some vector ->
  In (op filter) (List.map VStr basic_ops) ->
  i < numRows table ->
  mask !! i = Some 1%Z ->
  exists mask' : Mask,
    evaluateFilterCondition StringToNumber schema table
      (FieldFilter (VStr field) filter) mask = Ok mask' /\
    mask' !! i =
    Some (if policy (op filter) (fvalue filter) (get vector i)
          then 1%Z else 0%Z).
Proof.
  intros Hschema Hchild Hop Hi Hmask.
  eexists. split.
  - cbn [evaluateFilterCondition]. rewrite validateField_present by assumption.
    unfold bind.
    exact (evaluateBasicFilter_narrow table (VStr field) filter vector mask
             Hchild).
  - rewrite foldl_narrow_lookup, Hmask.
    rewrite bool_decide_eq_true_2
      by (apply list_elem_of_In, in_seq; lia).
    unfold kept_bit. simpl.
    now destruct (policy _ _ _).
Qed.

Lemma evaluateBasicFilter_select table field filter vector (mask : Mask) :
  getChild table field = Some vector ->
  length mask = numRows table ->
  evaluateBasicFilter StringToNumber table field filter mask =
  Ok (select (fun j => policy (op filter) (fvalue filter) (get vector j))
        mask).
Proof.
  intros Hchild Hlen.
  rewrite (evaluateBasicFilter_narrow _ _ _ _ _ Hchild), <- Hlen.
  now rewrite foldl_narrow_select.
Qed.

(** The evaluator computes the row-wise meaning of the condition. *)
Lemma evaluateFilterCondition_select schema table c :
  fields_exist schema table c = true ->
  forall mask : Mask,
    mask01 mask -> length mask = numRows table ->
    evaluateFilterCondition StringToNumber schema table c mask =
    Ok (select (keeps StringToNumber table c) mask).
Proof.
  induction c as [l IH|l IH|c IH|field filter]
    using FilterCondition_nested_ind; intros Hfields.
  - (* AND *)
    cbn [evaluateFilterCondition keeps fields_exist] in *.
    induction IH as [|c l Hc _ IHl]; intros mask H01 Hlen.
    + now rewrite select_true.
    + cbn [forallb] in *. apply andb_true_iff in Hfields as [Hf1 Hf2].
      rewrite (Hc Hf1 mask H01 Hlen). cbn [bind].
      rewrite (IHl Hf2) by
        (try apply select_mask01; try rewrite select_length; assumption).
      now rewrite select_select.
  - (* OR *)
    cbn [evaluateFilterCondition keeps fields_exist] in *.
    intros mask H01 Hlen.
    assert (Hloop : forall keep,
      (fix each (l : list FilterCondition) (orMask : Mask) : result Mask :=
         match l with
         | [] => Ok orMask
         | subCondition :: rest =>
             let* tempMask :=
               evaluateFilterCondition StringToNumber schema table
                 subCondition (filled (length mask) 1%Z) in
             each rest
               (zip_with (fun o t => if (o =? 0)%Z then t else o)
                  orMask tempMask)
         end) l (select keep (filled (length mask) 1%Z)) =
      Ok (select (fun i => keep i
                           || existsb (fun c' => keeps StringToNumber table c' i) l)
            (filled (length mask) 1%Z))).
    { clear H01. induction IH as [|c l Hc _ IHl]; intros keep.
      - f_equal. apply select_ext. intros i _. cbn [existsb].
        now rewrite orb_false_r.
      - cbn [forallb existsb] in *.
        apply andb_true_iff in Hfields as [Hf1 Hf2].
        rewrite (Hc Hf1) by
          (try apply filled_mask01; try apply length_replicate;
           unfold filled; rewrite ?length_replicate; assumption).
        cbn [bind]. rewrite or_select, (IHl Hf2).
        f_equal. apply select_ext. intros i _. now rewrite orb_assoc. }
    rewrite filled_zero_select, Hloop. cbn [bind orb].
    now rewrite land_select.
  - (* NOT *)
    cbn [evaluateFilterCondition keeps fields_exist] in *.
    intros mask H01 Hlen.
    rewrite (IH Hfields) by
      (try apply filled_mask01; unfold filled;
       rewrite ?length_replicate; assumption).
    cbn [bind]. rewrite flip_select. now rewrite land_select.
  - (* field *)
    cbn [evaluateFilterCondition keeps fields_exist] in *.
    intros mask H01 Hlen.
    apply andb_true_iff in Hfields as [Hschema Hchild].
    unfold validateField. rewrite Hschema. cbn [bind].
    destruct (getChild table field) as [vector|] eqn:Hvec; [|discriminate].
    now apply evaluateBasicFilter_select.
Qed.

Lemma mask_of_select schema table c :
  fields_exist schema table c = true ->
  mask_of StringToNumber schema table c =
  Ok (select (keeps StringToNumber table c) (filled (numRows table) 1%Z)).
Proof.
  intros Hfields. unfold mask_of.
  apply evaluateFilterCondition_select;
    [assumption | apply filled_mask01 | apply length_replicate].
Qed.

(** C2.  For conditions [A] and [B] whose fields all exist, the masks
    computed from an all-ones mask over the same table compose: the mask
    of [AND [A; B]] is the bitwise AND of the masks of [A] and [B], the
    mask of [OR [A; B]] is their bitwise OR, and the mask of [NOT A] is
    the complement of the mask of [A]. *)
Theorem mask_composition schema table A B :
  fields_exist schema table A = true ->
  fields_exist schema table B = true ->
  exists mA mB : Mask,
    mask_of StringToNumber schema table A = Ok mA /\
    mask_of StringToNumber schema table B = Ok mB /\
    mask_of StringToNumber schema table (AND [A; B]) = Ok (mask_and mA mB) /\
    mask_of StringToNumber schema table (OR [A; B]) = Ok (mask_or mA mB) /\
    mask_of StringToNumber schema table (NOT A) = Ok (mask_not mA).
Proof.
  intros HA HB.
  exists (select (keeps StringToNumber table A) (filled (numRows table) 1%Z)),
    (select (keeps StringToNumber table B) (filled (numRows table) 1%Z)).
  repeat split.
  - now apply mask_of_select.
  - now apply mask_of_select.
  - rewrite mask_of_select by (cbn [fields_exist forallb]; now rewrite HA, HB).
    rewrite and_select. f_equal. apply select_ext. intros i _.
    cbn [keeps forallb]. now rewrite andb_true_r.
  - rewrite mask_of_select by (cbn [fields_exist forallb]; now rewrite HA, HB).
    rewrite lor_select. f_equal. apply select_ext. intros i _.
    cbn [keeps existsb]. now rewrite orb_false_r.
  - rewrite mask_of_select by assumption.
    now rewrite not_select.
Qed.

End MaskEvaluator.

(** ** The lazy pipeline *)

Lemma set_schema_length h id schema :
  length (set_schema h id schema) = length h.
Proof.
  unfold set_schema. destruct (h !! id); [apply length_insert|reflexivity].
Qed.

Lemma set_schema_table h id schema j :
  table_ <$> set_schema h id schema !! j = table_ <$> h !! j.
Proof.
  unfold set_schema. destruct (h !! id) as [store|] eqn:Hid; [|reflexivity].
  destruct (decide (id = j)) as [->|Hne].
  - rewrite list_lookup_insert_eq by now apply lookup_lt_Some in Hid.
    now rewrite Hid.
  - now rewrite list_lookup_insert_ne.
Qed.

Lemma set_schema_pending h id schema j :
  pendingOperations <$> set_schema h id schema !! j =
  pendingOperations <$> h !! j.
Proof.
  unfold set_schema. destruct (h !! id) as [store|] eqn:Hid; [|reflexivity].
  destruct (decide (id = j)) as [->|Hne].
  - rewrite list_lookup_insert_eq by now apply lookup_lt_Some in Hid.
    now rewrite Hid.
  - now rewrite list_lookup_insert_ne.
Qed.

(** Running operations only ever writes schemas: the heap keeps its size,
    and every store keeps its table and its queue. *)
Lemma run_batch_preserves this batch h table schema :
  let h' := fst (run_batch this batch h table schema) in
  length h' = length h /\
  forall j, table_ <$> h' !! j = table_ <$> h !! j /\
            pendingOperations <$> h' !! j = pendingOperations <$> h !! j.
Proof.
  revert h table schema.
  induction batch as [|operation rest IH]; intros h table schema;
    cbn [run_batch run_operation].
  - simpl. auto.
  - destruct (executor operation schema table) as [out|e].
    + destruct (res_schema out) as [s|].
      * specialize (IH (set_schema (set_schema h (owner operation) schema)
                          this s) (res_table out) s).
        cbv zeta in *. destruct IH as [Hlen Hj]. split.
        -- now rewrite Hlen, !set_schema_length.
        -- intros j. destruct (Hj j) as [Ht Hp].
           now rewrite Ht, Hp, !set_schema_table, !set_schema_pending.
      * specialize (IH (set_schema h (owner operation) schema)
                          (res_table out) schema).
        cbv zeta in *. destruct IH as [Hlen Hj]. split.
        -- now rewrite Hlen, !set_schema_length.
        -- intros j. destruct (Hj j) as [Ht Hp].
           now rewrite Ht, Hp, !set_schema_table, !set_schema_pending.
    + simpl. split; [apply set_schema_length|].
      intros j. now rewrite set_schema_table, set_schema_pending.
Qed.

Lemma run_batch_app this a b h table schema :
  run_batch this (a ++ b) h table schema =
  match run_batch this a h table schema with
  | (h', Err e) => (h', Err e)
  | (h', Ok (table', schema')) => run_batch this b h' table' schema'
  end.
Proof.
  revert h table schema.
  induction a as [|operation a IH]; intros h table schema;
    cbn [run_batch app run_operation].
  - reflexivity.
  - destruct (executor operation schema table) as [out|e]; [|reflexivity].
    destruct (res_schema out); apply IH.
Qed.

(** The batches of ten are the queue, cut in pieces. *)
Lemma run_batches_flat this pending fuel i h table schema :
  length pending - i <= fuel ->
  run_batches this pending
    (batch_starts fuel i (length pending) 10) 10 h table schema =
  run_batch this (drop i pending) h table schema.
Proof.
  revert i h table schema.
  induction fuel as [|fuel IH]; intros i h table schema Hfuel;
    cbn [batch_starts].
  - rewrite drop_ge by lia. reflexivity.
  - destruct (Nat.ltb_spec i (length pending)) as [Hlt|Hge].
    + cbn [run_batches]. unfold slice.
      replace (i + 10 - i) with 10 by lia.
      rewrite <- (take_drop 10 (drop i pending)) at 2.
      rewrite run_batch_app.
      destruct (run_batch this (take 10 (drop i pending)) h table schema)
        as [h' [[table' schema']|e]]; [|reflexivity].
      rewrite drop_drop. apply IH. lia.
    + rewrite drop_ge by lia. reflexivity.
Qed.

Lemma run_queue_flat this pending h table schema :
  run_queue this pending h table schema =
  run_batch this pending h table schema.
Proof.
  unfold run_queue. rewrite run_batches_flat by lia. reflexivity.
Qed.

Lemma run_batch_result this batch h table schema :
  snd (run_batch this batch h table schema) =
  apply_in_order (List.map executor batch) table schema.
Proof.
  revert h table schema.
  induction batch as [|operation rest IH]; intros h table schema;
    cbn [run_batch run_operation apply_in_order List.map].
  - reflexivity.
  - destruct (executor operation schema table) as [out|e]; [|reflexivity].
    cbn [bind]. destruct (res_schema out); apply IH.
Qed.

Lemma run_batch_fails this batch h table schema h' e :
  run_batch this batch h table schema = (h', Err e) ->
  exists prefix operation suffix table1 schema1,
    batch = prefix ++ operation :: suffix /\
    apply_in_order (List.map executor prefix) table schema =
      Ok (table1, schema1) /\
    executor operation schema1 table1 = Err e /\
    run_batch this (prefix ++ [operation]) h table schema = (h', Err e).
Proof.
  revert h table schema.
  induction batch as [|operation rest IH]; intros h table schema;
    cbn [run_batch run_operation].
  - discriminate.
  - destruct (executor operation schema table) as [out|e0] eqn:Hexec.
    + intros Hrun.
      assert (Hstep : exists h1 s1,
        run_batch this rest h1 (res_table out) s1 = (h', Err e) /\
        s1 = default schema (res_schema out) /\
        forall l, run_batch this (operation :: l) h table schema =
                  run_batch this l h1 (res_table out) s1).
      { destruct (res_schema out) as [s|] eqn:Hs.
        - eexists _, _. split; [exact Hrun|]. split; [reflexivity|].
          intros l. cbn [run_batch run_operation]. now rewrite Hexec, Hs.
        - eexists _, _. split; [exact Hrun|]. split; [reflexivity|].
          intros l. cbn [run_batch run_operation]. now rewrite Hexec, Hs. }
      destruct Hstep as (h1 & s1 & Hrest & -> & Hcons).
      destruct (IH _ _ _ Hrest)
        as (prefix & op' & suffix & t1 & sch1 & -> & Hpre & Hfail & Hcut).
      exists (operation :: prefix), op', suffix, t1, sch1.
      repeat split.
      * cbn [List.map apply_in_order]. rewrite Hexec. exact Hpre.
      * exact Hfail.
      * cbn [app]. rewrite Hcons. exact Hcut.
    + intros [= <- <-].
      exists [], operation, rest, table, schema.
      repeat split; [exact Hexec|].
      cbn [app run_batch run_operation]. now rewrite Hexec.
Qed.

Lemma resolveTable_unfold h this store :
  h !! this = Some store ->
  resolveTable h this =
  match pendingOperations store with
  | [] => (h, Ok (table_ store))
  | _ :: _ =>
      match run_batch this (pendingOperations store) h
              (table_ store) (schema_ store) with
      | (h', Err e) => (h', Err e)
      | (h', Ok (currentTable, resolvedSchema)) =>
          (<[this := {| table_ := currentTable;
                        schema_ := resolvedSchema;
                        pendingOperations := [] |}]> h',
           Ok currentTable)
      end
  end.
Proof.
  intros Hstore. unfold resolveTable. rewrite Hstore.
  destruct (pendingOperations store) as [|operation rest]; [reflexivity|].
  cbn [length Nat.eqb]. now rewrite run_queue_flat.
Qed.

Lemma resolveTable_result h this store :
  h !! this = Some store ->
  snd (resolveTable h this) =
  (let* out := apply_in_order (List.map executor (pendingOperations store))
                 (table_ store) (schema_ store) in
   Ok (fst out)).
Proof.
  intros Hstore. rewrite (resolveTable_unfold _ _ _ Hstore).
  destruct (pendingOperations store) as [|operation rest] eqn:Hpending.
  - reflexivity.
  - rewrite <- (run_batch_result this (operation :: rest) h).
    now destruct (run_batch this (operation :: rest) h (table_ store)
                    (schema_ store)) as [h' [[t s]|e]].
Qed.

(** C3.  Resolving a handle yields the table obtained by applying its
    queued steps to the base table one after the other in the order they
    were queued; for two steps [S1] then [S2] it is [S2] applied to the
    output of [S1].  After a successful resolve the handle holds the
    result and an empty queue, so the steps are not run again. *)
Theorem pipeline_ordering h this store :
  h !! this = Some store ->
  snd (resolveTable h this) =
    (let* out := apply_in_order (List.map executor (pendingOperations store))
                   (table_ store) (schema_ store) in
     Ok (fst out)) /\
  (forall S1 S2,
      pendingOperations store = [S1; S2] ->
      snd (resolveTable h this) =
        (let* out1 := executor S1 (schema_ store) (table_ store) in
         let* out2 := executor S2 (default (schema_ store) (res_schema out1))
                        (res_table out1) in
         Ok (res_table out2))) /\
  (forall h' table,
      resolveTable h this = (h', Ok table) ->
      table_ <$> h' !! this = Some table /\
      pendingOperations <$> h' !! this = Some [] /\
      resolveTable h' this = (h', Ok table)).
Proof.
  intros Hstore. split; [|split].
  - now apply resolveTable_result.
  - intros S1 S2 Hpending.
    rewrite (resolveTable_result _ _ _ Hstore), Hpending.
    cbn [List.map apply_in_order].
    destruct (executor S1 (schema_ store) (table_ store)) as [out1|e];
      [|reflexivity].
    cbn [bind].
    now destruct (executor S2 _ (res_table out1)) as [out2|e].
  - intros h' table. rewrite (resolveTable_unfold _ _ _ Hstore).
    destruct (pendingOperations store) as [|operation rest] eqn:Hpending.
    + intros [= <- <-]. rewrite Hstore. cbn [fmap option_fmap option_map].
      rewrite Hpending. repeat split.
      rewrite (resolveTable_unfold _ _ _ Hstore). now rewrite Hpending.
    + pose proof (run_batch_preserves this (operation :: rest) h
                    (table_ store) (schema_ store)) as [Hlen _].
      destruct (run_batch this (operation :: rest) h (table_ store)
                  (schema_ store)) as [h1 [[t s]|e]]; [|discriminate].
      intros [= <- <-]. cbn [fst] in Hlen.
      assert (Hthis : this < length h1)
        by (rewrite Hlen; now apply lookup_lt_Some in Hstore).
      assert (Hnew : <[this := {| table_ := t; schema_ := s;
                                  pendingOperations := [] |}]> h1 !! this =
                     Some {| table_ := t; schema_ := s;
                             pendingOperations := [] |})
        by now apply list_lookup_insert_eq.
      rewrite Hnew. repeat split.
      now rewrite (resolveTable_unfold _ _ _ Hnew).
Qed.

(** C4, as the code has it.  When a queued step fails, the steps before
    it have succeeded in order, the error raised by [resolveTable] is the
    error of that step as it is, no later step runs (the outcome is the
    one of the queue cut after the failing step), the handle keeps its
    table and its queue, and resolving again re-attempts that same queue
    on that same table. *)
Theorem resolve_failure h this store h' e :
  h !! this = Some store ->
  resolveTable h this = (h', Err e) ->
  exists prefix operation suffix table schema,
    pendingOperations store = prefix ++ operation :: suffix /\
    apply_in_order (List.map executor prefix) (table_ store) (schema_ store)
      = Ok (table, schema) /\
    executor operation schema table = Err e /\
    run_queue this (prefix ++ [operation]) h (table_ store) (schema_ store)
      = (h', Err e) /\
    table_ <$> h' !! this = Some (table_ store) /\
    pendingOperations <$> h' !! this = Some (pendingOperations store) /\
    (forall store', h' !! this = Some store' ->
       snd (resolveTable h' this) =
       (let* out := apply_in_order
                      (List.map executor (pendingOperations store))
                      (table_ store) (schema_ store') in
        Ok (fst out))).
Proof.
  intros Hstore. rewrite (resolveTable_unfold _ _ _ Hstore).
  destruct (pendingOperations store) as [|op0 rest] eqn:Hpending;
    [discriminate|].
  pose proof (run_batch_preserves this (op0 :: rest) h
                (table_ store) (schema_ store)) as [_ Hkeep].
  destruct (run_batch this (op0 :: rest) h (table_ store) (schema_ store))
    as [h1 [[t s]|e1]] eqn:Hrun; [discriminate|].
  intros [= <- <-]. cbn [fst] in Hkeep.
  destruct (run_batch_fails _ _ _ _ _ _ _ Hrun)
    as (prefix & operation & suffix & t1 & s1 & Hsplit & Hpre & Hfail & Hcut).
  destruct (Hkeep this) as [Htable Hqueue].
  rewrite Hstore in Htable, Hqueue. cbn [fmap option_fmap option_map] in *.
  exists prefix, operation, suffix, t1, s1.
  split; [exact Hsplit|]. split; [exact Hpre|]. split; [exact Hfail|].
  split; [now rewrite run_queue_flat|].
  split; [exact Htable|]. split; [now rewrite Hqueue, Hpending|].
  intros store' Hstore'. rewrite (resolveTable_result _ _ _ Hstore').
  rewrite Hstore' in Htable, Hqueue.
  cbn [fmap option_fmap option_map] in *.
  injection Htable as ->. injection Hqueue as ->. now rewrite Hpending.
Qed.

(** ** Applying a mask *)

Lemma applyFilterMask_none_kept table (mask : Mask) :
  foldl Z.add 0%Z mask = 0%Z -> applyFilterMask table mask = [].
Proof. intros Hsum. unfold applyFilterMask. now rewrite Hsum. Qed.

Lemma applyFilterMask_all_kept table (mask : Mask) :
  foldl Z.add 0%Z mask = Z.of_nat (numRows table) ->
  0 < numRows table ->
  applyFilterMask table mask = table.
Proof.
  intros Hsum Hrows. unfold applyFilterMask. rewrite Hsum.
  destruct (Z.eqb_spec (Z.of_nat (numRows table)) 0) as [Hz|_]; [lia|].
  now rewrite Z.eqb_refl.
Qed.

(** C5, at the failing input.  Masking the one and only row of a table
    with one column away yields a table without any column, where the
    claim asks for the column of the input; a table without rows is not
    returned as it is either; and a second filter on the result of a
    filter that kept no row hits the "implementation error" of the mask
    evaluator, the schema still listing the column the table has lost. *)
Theorem applyFilterMask_loses_columns :
  let table := [("a", [VNum 1])] in
  let schema := {| tableName := "t"; columns := [column "a"] |} in
  let none := [FieldFilter (VStr "a") {| op := VStr "eq"; fvalue := VNum 2 |}] in
  fieldNamesOf table = ["a"] /\
  applyFilterMask table [0%Z] = [] /\
  fieldNamesOf (applyFilterMask table [0%Z]) = [] /\
  applyFilterMask (emptyLike table) [] = [] /\
  filter_executor decimal_StringToNumber none schema table =
    Ok {| res_table := []; res_schema := Some schema |} /\
  filter_executor decimal_StringToNumber none schema [] =
    Err ("Error filtering data: Implementation error: Field 'a' exists "
         +:+ "in schema but not in table data.").
Proof. repeat split. Qed.

(** ** Validation of the fields of a filter *)

Lemma validateField_cases schema field :
  (in_schema schema field = true /\ validateField schema field = Ok tt) \/
  (in_schema schema field = false /\
   validateField schema field = Err (field_not_found schema field)).
Proof.
  unfold validateField, in_schema, field_not_found.
  destruct (existsb _ _); [left|right]; split; reflexivity.
Qed.

Lemma validate_each schema (l : list FilterCondition) :
  Forall (validated schema) l ->
  let each :=
    fix each (l : list FilterCondition) : result unit :=
      match l with
      | [] => Ok tt
      | subCondition :: rest =>
          let* _ := validateFilterCondition schema subCondition in
          each rest
      end in
  (each l = Ok tt /\
   Forall (fun f => in_schema schema f = true)
     (flat_map referenced_fields l)) \/
  (exists f, In f (flat_map referenced_fields l) /\
             in_schema schema f = false /\
             each l = Err (field_not_found schema f)).
Proof.
  intros Hl. cbv zeta.
  induction Hl as [|c l Hc _ IH]; cbn [flat_map].
  - left. split; [reflexivity|constructor].
  - destruct Hc as [[Hok Hall]|(f & Hin & Habs & Herr)].
    + rewrite Hok. cbn [bind].
      destruct IH as [[Hok' Hall']|(f & Hin & Habs & Herr)].
      * left. split; [exact Hok'|]. apply Forall_app. now split.
      * right. exists f. repeat split; [|exact Habs|exact Herr].
        apply in_or_app. now right.
    + right. exists f. rewrite Herr. repeat split; [|exact Habs].
      apply in_or_app. now left.
Qed.

Lemma validateFilterCondition_cases schema c : validated schema c.
Proof.
  induction c as [l IH|l IH|c IH|field filter]
    using FilterCondition_nested_ind.
  - exact (validate_each schema l IH).
  - exact (validate_each schema l IH).
  - exact IH.
  - unfold validated. cbn [validateFilterCondition referenced_fields].
    destruct (validateField_cases schema field) as [[Hin Hok]|[Habs Herr]].
    + left. split; [exact Hok|]. now repeat constructor.
    + right. exists field. repeat split; [now left|exact Habs|exact Herr].
Qed.

Lemma validateFilterFields_cases schema filters :
  (validateFilterFields schema filters = Ok tt /\
   Forall (fun f => in_schema schema f = true)
     (flat_map referenced_fields filters)) \/
  (exists f, In f (flat_map referenced_fields filters) /\
             in_schema schema f = false /\
             validateFilterFields schema filters =
               Err (field_not_found schema f)).
Proof.
  induction filters as [|c filters IH];
    cbn [flat_map validateFilterFields].
  - left. split; [reflexivity|constructor].
  - destruct (validateFilterCondition_cases schema c)
      as [[Hok Hall]|(f & Hin & Habs & Herr)].
    + rewrite Hok. cbn [bind].
      destruct IH as [[Hok' Hall']|(f & Hin & Habs & Herr)].
      * left. split; [exact Hok'|]. apply Forall_app. now split.
      * right. exists f. repeat split; [|exact Habs|exact Herr].
        apply in_or_app. now right.
    + right. exists f. rewrite Herr. repeat split; [|exact Habs].
      apply in_or_app. now left.
Qed.

(** C6, as the code has it.  A filter one of whose conditions refers to a
    field absent from the schema fails, whatever the table, with the
    error that names an absent field it refers to and lists the available
    fields (under the context of the filter step): validation comes
    before any work on rows.  A group-by on a column absent from the
    table raises nothing: it returns the columns of the table with no
    row. *)
Theorem absent_field_behaviour (StringToNumber : string -> option Z)
    {Aggregations : Type}
    (aggregate : Table -> Vector -> Aggregations -> result StepResult)
    schema filters table field (aggregations : Aggregations) :
  (exists f, In f (flat_map referenced_fields filters) /\
             in_schema schema f = false) ->
  getChild table (VStr field) = None ->
  (exists f, In f (flat_map referenced_fields filters) /\
             in_schema schema f = false /\
             forall table',
               filter_executor StringToNumber filters schema table' =
               Err ("Error filtering data: " +:+ field_not_found schema f))
  /\
  groupBy_executor aggregate field aggregations schema table =
    Ok {| res_table := emptyLike table; res_schema := None |}.
Proof.
  intros (f & Hin & Habs) Hchild. split.
  - destruct (validateFilterFields_cases schema filters)
      as [[_ Hall]|(f' & Hin' & Habs' & Herr)].
    + rewrite Forall_forall in Hall.
      rewrite (Hall f) in Habs; [discriminate|]. now apply list_elem_of_In.
    + exists f'. repeat split; [exact Hin'|exact Habs'|].
      intros table'. unfold filter_executor. now rewrite Herr.
  - unfold groupBy_executor. now rewrite Hchild.
Qed.

(** C6, the counterexample: grouping the sample table by a column it does
    not have completes, with an empty table, and raises nothing. *)
Lemma groupBy_absent_column_completes :
  getChild people (VStr "department") = None /\
  in_schema people_schema (VStr "department") = false /\
  groupBy_executor (fun _ _ (_ : unit) => Err "aggregation")
    "department" tt people_schema people =
  Ok {| res_table := [("id", []); ("name", []); ("age", [])];
        res_schema := None |}.
Proof. repeat split. Qed.

(** ** Filters read from JSON *)

Lemma apply_in_order_app steps steps' table schema :
  apply_in_order (steps ++ steps') table schema =
  (let* out := apply_in_order steps table schema in
   apply_in_order steps' (fst out) (snd out)).
Proof.
  revert table schema.
  induction steps as [|step steps IH]; intros table schema;
    cbn [app apply_in_order bind].
  - reflexivity.
  - destruct (step schema table) as [out|e]; cbn [bind]; [apply IH|].
    reflexivity.
Qed.

Lemma createInstance_spec h this store executor :
  h !! this = Some store ->
  createInstance h this executor =
  (h ++ [{| table_ := table_ store; schema_ := schema_ store;
            pendingOperations :=
              pendingOperations store
                ++ [{| owner := this; executor := executor |}] |}],
   length h).
Proof. intros Hstore. unfold createInstance. now rewrite Hstore. Qed.

(** C9, as the code has it.  When reading the filters from the string
    throws (the text is not JSON, or deserializing the parsed value
    throws), [filterFromJson] returns a new store whose queue is the
    queue of the original store followed by one identity operation, and
    resolving the new store gives what resolving the original gives. *)
Theorem filterFromJson_unreadable
    (JSON_parse : string -> result value)
    (StringToNumber : string -> option Z) h this store json e :
  h !! this = Some store ->
  filtersFromJson JSON_parse json = Err e ->
  exists h' new,
    filterFromJson JSON_parse StringToNumber h this json = (h', new) /\
    h' !! new =
      Some {| table_ := table_ store; schema_ := schema_ store;
              pendingOperations :=
                pendingOperations store
                  ++ [{| owner := this; executor := identity_executor |}] |}
    /\ snd (resolveTable h' new) = snd (resolveTable h this).
Proof.
  intros Hstore Herr. unfold filterFromJson. rewrite Herr.
  rewrite (createInstance_spec _ _ _ _ Hstore).
  eexists _, _. split; [reflexivity|].
  assert (Hnew : forall x : ArrowStore, (h ++ [x]) !! length h = Some x)
    by (intros x; now apply list_lookup_middle).
  split; [apply Hnew|].
  rewrite (resolveTable_result _ _ _ (Hnew _)).
  rewrite (resolveTable_result _ _ _ Hstore).
  cbn [table_ schema_ pendingOperations].
  rewrite map_app, apply_in_order_app. cbn [List.map executor].
  destruct (apply_in_order _ (table_ store) (schema_ store))
    as [[table schema]|e']; reflexivity.
Qed.

(** C9, the counterexample.  The text of [json_without_field] is not a
    serialization of a filter-condition array, its field entry having no
    [field]; reading it does not throw, so the store returned carries a
    filter, not an identity operation, and resolving it fails where
    resolving the original store gives the sample table. *)
Lemma filterFromJson_keeps_bad_filter :
  ~ valid_filter_json JSON_parse_int json_without_field /\
  filtersFromJson JSON_parse_int json_without_field =
    Ok [FieldFilter VUndefined {| op := VStr "eq"; fvalue := VNum 1 |}] /\
  (let '(h', new) :=
     filterFromJson JSON_parse_int decimal_StringToNumber people_heap 0
       json_without_field in
   snd (resolveTable h' new) =
     Err ("Error filtering data: Filter error: Field 'undefined' does not "
          +:+ "exist in the table schema. Available fields are: "
          +:+ "id, name, age")) /\
  snd (resolveTable people_heap 0) = Ok people.
Proof.
  split; [|repeat split].
  intros (items & Hparse & Hall).
  vm_compute in Hparse. injection Hparse as <-.
  apply Forall_cons_1 in Hall as [Hbad _].
  inversion Hbad as [props field filter o Htype Hfield
                    |props items Htype|props items Htype
                    |props condition Htype];
    subst; vm_compute in Htype; try discriminate Htype.
  vm_compute in Hfield. discriminate Hfield.
Qed.

(** ** Records as association lists *)

Lemma obj_get_set {A} (o : list (string * A)) k k' v :
  obj_get (obj_set o k v) k' =
  if String.eqb k k' then Some v else obj_get o k'.
Proof.
  induction o as [|[k0 v0] o IH]; cbn [obj_set obj_get].
  - reflexivity.
  - destruct (String.eqb_spec k0 k) as [->|Hne]; cbn [obj_get].
    + now destruct (String.eqb k k').
    + rewrite IH. destruct (String.eqb_spec k0 k') as [->|Hne'];
        [|reflexivity].
      destruct (String.eqb_spec k k') as [->|_]; [contradiction|reflexivity].
Qed.

Lemma init_columns_get (names : list string) field
    (sc : list (string * list value)) :
  In field names ->
  obj_get (foldl (fun sc f => obj_set sc f []) sc names) field = Some [].
Proof.
  revert sc. induction names as [|n names IH]; intros sc Hin;
    cbn [foldl]; [contradiction|].
  destruct (in_dec String.string_dec field names) as [Hrest|Hrest].
  - now apply IH.
  - destruct Hin as [->|Hin]; [|contradiction].
    clear IH. revert sc.
    assert (Hkeep : forall sc0 : list (string * list value),
               obj_get sc0 field = Some [] ->
               obj_get (foldl (fun sc f => obj_set sc f []) sc0 names) field
               = Some []).
    { induction names as [|n names IH]; intros sc0 Hsc0; cbn [foldl];
        [exact Hsc0|].
      apply IH; [intros Hin; apply Hrest; now right|].
      rewrite obj_get_set. now destruct (String.eqb n field). }
    intros sc. apply Hkeep. rewrite obj_get_set. now rewrite String.eqb_refl.
Qed.

Lemma getChild_In table field vector :
  getChild table (VStr field) = Some vector -> In field (fieldNamesOf table).
Proof.
  induction table as [|[n col] table IH]; cbn [getChild]; [discriminate|].
  cbn [strict_eq fieldNamesOf List.map fst].
  destruct (String.eqb_spec n field) as [->|_]; [now left|].
  intros H. right. now apply IH.
Qed.

Lemma getChild_tableFromArrays cols field :
  getChild (tableFromArrays cols) (VStr field) =
  List.map (fun v => if is_nullish v then VNull else v)
    <$> obj_get cols field.
Proof.
  induction cols as [|[k arr] cols IH];
    cbn [tableFromArrays List.map getChild obj_get strict_eq];
    [reflexivity|].
  now destruct (String.eqb k field).
Qed.

(** ** Sorting *)

Lemma insert_sorted_Forall {A} (P : A -> Prop) compareFn x (l : list A) :
  P x -> Forall P l -> Forall P (insert_sorted compareFn x l).
Proof.
  intros Hx Hl. induction Hl as [|y l Hy Hl IH]; cbn [insert_sorted].
  - now repeat constructor.
  - destruct (compareFn x y <=? 0)%Z; repeat constructor; assumption.
Qed.

Lemma insert_sorted_perm {A} compareFn x (l : list A) :
  insert_sorted compareFn x l ≡ₚ x :: l.
Proof.
  induction l as [|y l IH]; cbn [insert_sorted]; [reflexivity|].
  destruct (compareFn x y <=? 0)%Z; [reflexivity|].
  rewrite IH. apply Permutation_swap.
Qed.

Lemma array_sort_perm {A} compareFn (l : list A) :
  array_sort compareFn l ≡ₚ l.
Proof.
  unfold array_sort. induction l as [|x l IH]; cbn [foldr]; [reflexivity|].
  now rewrite insert_sorted_perm, IH.
Qed.

Section SortingProofs.

Context (StringToNumber : string -> option Z).
Context (localeCompare : string -> string -> Z).

#[local] Abbreviation index_cmp :=
  (index_compare StringToNumber localeCompare).

Lemma insert_null_row vector direction x l :
  is_nullish (get vector x) = true ->
  insert_sorted (index_cmp vector direction) x l = x :: l.
Proof.
  intros Hx. destruct l as [|y l]; cbn [insert_sorted]; [reflexivity|].
  unfold index_compare. rewrite Hx.
  now destruct (is_nullish (get vector y)).
Qed.

Lemma insert_after_null_rows vector direction x nulls others :
  is_nullish (get vector x) = false ->
  Forall (fun i => is_nullish (get vector i) = true) nulls ->
  insert_sorted (index_cmp vector direction) x (nulls ++ others) =
  nulls ++ insert_sorted (index_cmp vector direction) x others.
Proof.
  intros Hx Hnulls.
  induction Hnulls as [|y nulls Hy _ IH]; cbn [app insert_sorted];
    [reflexivity|].
  unfold index_compare at 1. rewrite Hx, Hy. cbn. now rewrite IH.
Qed.

Lemma array_sort_null_rows_first vector direction indices :
  null_rows_first vector
    (array_sort (index_cmp vector direction) indices).
Proof.
  unfold array_sort.
  induction indices as [|x indices IH]; cbn [foldr].
  - exists [], []. repeat split; constructor.
  - destruct IH as (nulls & others & -> & Hnulls & Hothers).
    destruct (is_nullish (get vector x)) eqn:Hx.
    + rewrite insert_null_row by assumption.
      exists (x :: nulls), others. repeat split; [|assumption].
      now constructor.
    + rewrite insert_after_null_rows by assumption.
      exists nulls, (insert_sorted (index_cmp vector direction) x others).
      repeat split; [assumption|].
      now apply insert_sorted_Forall.
Qed.

(** Whatever the sorting algorithm, an arrangement of the rows that the
    comparator accepts has the null rows first. *)
Lemma ordered_null_rows_first vector direction indices :
  ordered_by (index_cmp vector direction) indices ->
  null_rows_first vector indices.
Proof.
  induction indices as [|x indices IH]; intros Hordered.
  - exists [], []. repeat split; constructor.
  - assert (Htail : ordered_by (index_cmp vector direction) indices).
    { intros i j a b Hij Ha Hb.
      apply (Hordered (S i) (S j) a b); [lia|exact Ha|exact Hb]. }
    destruct (IH Htail) as (nulls & others & -> & Hnulls & Hothers).
    destruct (is_nullish (get vector x)) eqn:Hx.
    + exists (x :: nulls), others. repeat split; [|assumption].
      now constructor.
    + exists [], (x :: nulls ++ others). repeat split; [constructor|].
      constructor; [exact Hx|].
      apply Forall_lookup_2. intros j y Hy.
      specialize (Hordered 0 (S j) x y (Nat.lt_0_succ j) eq_refl Hy).
      unfold index_compare in Hordered. rewrite Hx in Hordered.
      destruct (is_nullish (get vector y)); [lia|reflexivity].
Qed.

Lemma gather_row_get table sc idx field vector arr :
  NoDup (fieldNamesOf table) ->
  getChild table (VStr field) = Some vector ->
  obj_get sc field = Some arr ->
  obj_get (gather_row table sc idx) field = Some (arr ++ [get vector idx]).
Proof.
  intros Hnodup Hchild. unfold gather_row.
  pose proof (getChild_In _ _ _ Hchild) as Hin.
  revert sc arr Hin.
  induction Hnodup as [|n names Hn Hnodup IH]; intros sc arr Hin Hsc;
    [contradiction|].
  cbn [foldl].
  assert (Hkeep : forall names' (sc0 : list (string * list value)) arr0,
             ~ In field names' ->
             obj_get sc0 field = Some arr0 ->
             obj_get
               (foldl (fun sc f =>
                         let cell := match getChild table (VStr f) with
                                     | Some col => get col idx
                                     | None => VNull
                                     end in
                         match push_cell sc f cell with
                         | Some sc' => sc'
                         | None => sc
                         end) sc0 names') field = Some arr0).
  { clear. induction names' as [|m names' IH']; intros sc0 arr0 Hnot Hsc0;
      cbn [foldl]; [exact Hsc0|].
    apply IH'; [intros H; apply Hnot; now right|].
    unfold push_cell. destruct (obj_get sc0 m); [|exact Hsc0].
    rewrite obj_get_set.
    destruct (String.eqb_spec m field) as [->|_]; [|exact Hsc0].
    exfalso. apply Hnot. now left. }
  destruct (String.eqb_spec n field) as [->|Hne].
  - apply Hkeep; [now rewrite <- list_elem_of_In|].
    rewrite Hchild. unfold push_cell. rewrite Hsc, obj_get_set.
    now rewrite String.eqb_refl.
  - destruct Hin as [Heq|Hin]; [contradiction|].
    apply IH; [exact Hin|].
    unfold push_cell. destruct (obj_get sc n); [|exact Hsc].
    rewrite obj_get_set.
    destruct (String.eqb_spec n field) as [Heq|_]; [contradiction|].
    exact Hsc.
Qed.

Lemma gather_rows_get table sc indices field vector arr :
  NoDup (fieldNamesOf table) ->
  getChild table (VStr field) = Some vector ->
  obj_get sc field = Some arr ->
  obj_get (foldl (gather_row table) sc indices) field =
  Some (arr ++ List.map (get vector) indices).
Proof.
  intros Hnodup Hchild. revert sc arr.
  induction indices as [|idx indices IH]; intros sc arr Hsc;
    cbn [foldl List.map].
  - now rewrite app_nil_r.
  - rewrite (IH _ (arr ++ [get vector idx])).
    + now rewrite <- app_assoc.
    + now apply gather_row_get.
Qed.

(** C10.  Sorting by one field puts every row whose cell in that field is
    null or undefined before every row whose cell is not, for both
    directions: the sort succeeds, the sorted column holds the cells of
    the input column, null cells first; any arrangement of the rows that
    the comparator accepts has the null rows first; the comparator treats
    a null cell alike in both directions and on two other cells the
    descending comparator is the opposite of the ascending one. *)
Theorem sort_nulls_first schema table field direction vector :
  NoDup (fieldNamesOf table) ->
  getChild table (VStr field) = Some vector ->
  (exists sorted cells,
      sort_executor StringToNumber localeCompare
        [{| sort_field := field; direction := direction |}] schema table =
        Ok {| res_table := sorted; res_schema := Some schema |} /\
      getChild sorted (VStr field) = Some cells /\
      cells ≡ₚ List.map (fun v => if is_nullish v then VNull else v)
                 (List.map (get vector) (seq 0 (numRows table))) /\
      nulls_first cells) /\
  (forall indices,
      ordered_by (index_cmp vector direction) indices ->
      null_rows_first vector indices) /\
  (forall a b,
      is_nullish (get vector a) = true \/ is_nullish (get vector b) = true ->
      index_cmp vector desc a b = index_cmp vector asc a b) /\
  (forall a b,
      is_nullish (get vector a) = false ->
      is_nullish (get vector b) = false ->
      index_cmp vector desc a b = (- index_cmp vector asc a b)%Z).
Proof.
  intros Hnodup Hchild. split; [|split; [|split]].
  2: { intros indices. apply ordered_null_rows_first. }
  - set (indices := array_sort (index_cmp vector direction)
                      (seq 0 (numRows table))).
    eexists _, (List.map (fun v => if is_nullish v then VNull else v)
                  (List.map (get vector) indices)).
    split; [|split; [|split]].
    + cbn [sort_executor sort_field]. rewrite Hchild. reflexivity.
    + rewrite getChild_tableFromArrays.
      rewrite (gather_rows_get _ _ _ _ _ [] Hnodup Hchild); [reflexivity|].
      apply init_columns_get. now apply getChild_In in Hchild.
    + apply Permutation_map, Permutation_map. apply array_sort_perm.
    + destruct (array_sort_null_rows_first vector direction
                  (seq 0 (numRows table)))
        as (nulls & others & Hsplit & Hnulls & Hothers).
      fold indices in Hsplit. rewrite Hsplit, !map_app.
      eexists _, _. split; [reflexivity|].
      split; rewrite List.Forall_forall in *.
      * intros v (w & <- & (i & <- & Hi)%in_map_iff)%in_map_iff.
        now rewrite (Hnulls i Hi).
      * intros v (w & <- & (i & <- & Hi)%in_map_iff)%in_map_iff.
        pose proof (Hothers i Hi) as Hnot. now rewrite Hnot.
  - intros a b Hnull. unfold index_compare.
    destruct (is_nullish (get vector a)), (is_nullish (get vector b));
      try reflexivity.
    destruct Hnull; discriminate.
  - intros a b Ha Hb. unfold index_compare. now rewrite Ha, Hb.
Qed.

End SortingProofs.

(** ** The SQL filter compiler *)

Lemma substring_whole (s : string) :
  String.substring 0 (String.length s) s = s.
Proof. induction s as [|c s IH]; simpl; [reflexivity | now rewrite IH]. Qed.

Lemma substring_without_last (s : string) :
  String.substring 0 (String.length s - 1) s = without_last s.
Proof.
  induction s as [|c s IH]; [reflexivity|].
  destruct s as [|c' s']; [reflexivity|].
  change (String.length (String c (String c' s')) - 1)
    with (S (String.length s')).
  change (String.length (String c' s') - 1) with (String.length s' - 0) in IH.
  rewrite Nat.sub_0_r in IH.
  change (String c (String.substring 0 (String.length s') (String c' s')) =
          String c (without_last (String c' s'))).
  now rewrite IH.
Qed.

Lemma startsWith_percent (p : string) :
  startsWith p "%" = first_char_is "%" p.
Proof.
  unfold startsWith. destruct p as [|c p]; [reflexivity|].
  cbn [String.prefix first_char_is].
  destruct (ascii_dec "%" c) as [<-|Hne].
  - now destruct p.
  - symmetry. apply Ascii.eqb_neq. congruence.
Qed.

Lemma endsWith_percent (p : string) :
  endsWith p "%" = last_char_is "%" p.
Proof.
  unfold endsWith. induction p as [|c p IH]; [reflexivity|].
  destruct p as [|c' p'].
  - cbn. now destruct (Ascii.eqb c "%").
  - change (String.length "%") with 1 in *.
    change (String.length (String c (String c' p')))
      with (S (S (String.length p'))).
    change (String.length (String c' p')) with (S (String.length p')) in IH.
    change (last_char_is "%" (String c (String c' p')))
      with (last_char_is "%" (String c' p')).
    rewrite <- IH.
    change (S (S (String.length p')) - 1) with (S (String.length p')).
    change (S (String.length p') - 1) with (String.length p' - 0).
    rewrite Nat.sub_0_r. reflexivity.
Qed.

Lemma string_slice_inner (p : string) :
  first_char_is "%" p = true ->
  string_slice p 1 (-1) = without_last (without_first p).
Proof.
  destruct p as [|c p]; [discriminate|]. intros _.
  unfold string_slice. cbn [without_first String.length].
  rewrite <- substring_without_last.
  change (1 <? 0)%Z with false. change (-1 <? 0)%Z with true. cbv iota.
  replace (Z.to_nat (1 `min` _)) with 1 by lia.
  replace (Z.to_nat _) with (String.length p - 1) by lia.
  reflexivity.
Qed.

Lemma string_slice_rest (p : string) :
  first_char_is "%" p = true ->
  string_slice p 1 (Z.of_nat (String.length p)) = without_first p.
Proof.
  destruct p as [|c p]; [discriminate|]. intros _.
  unfold string_slice. cbn [without_first String.length].
  change (1 <? 0)%Z with false.
  destruct (Z.ltb_spec (Z.of_nat (S (String.length p))) 0) as [Hneg|_];
    [lia|].
  replace (Z.to_nat (1 `min` _)) with 1 by lia.
  replace (Z.to_nat _) with (String.length p) by lia.
  change (String.substring 1 (String.length p) (String c p))
    with (String.substring 0 (String.length p) p).
  apply substring_whole.
Qed.

Lemma string_slice_front (p : string) :
  string_slice p 0 (-1) = without_last p.
Proof.
  unfold string_slice. rewrite <- substring_without_last.
  change (0 <? 0)%Z with false. change (-1 <? 0)%Z with true. cbv iota.
  replace (Z.to_nat (0 `min` _)) with 0 by lia.
  replace (Z.to_nat _) with (String.length p - 1) by lia.
  reflexivity.
Qed.

(** The case analysis of [parseLikeExpression] is the one of the
    specification. *)
Lemma like_filter_spec fieldName pattern :
  like_filter fieldName pattern =
  FieldFilter (VStr fieldName)
    {| op := VStr (like_op pattern); fvalue := VStr (like_value pattern) |}.
Proof.
  unfold like_filter, like_op, like_value.
  rewrite startsWith_percent, endsWith_percent.
  destruct (first_char_is "%" pattern) eqn:Hfirst;
    destruct (last_char_is "%" pattern) eqn:Hlast; cbn [andb].
  - now rewrite string_slice_inner.
  - now rewrite string_slice_rest.
  - now rewrite string_slice_front.
  - reflexivity.
Qed.

Lemma letter_not_space c : is_letter_ c = true -> is_space c = false.
Proof.
  destruct c as [[] [] [] [] [] [] [] []]; vm_compute; congruence.
Qed.

Lemma append_empty (b : string) : EmptyString +:+ b = b.
Proof. reflexivity. Qed.

Lemma append_String c (a b : string) : String c a +:+ b = String c (a +:+ b).
Proof. reflexivity. Qed.

Lemma length_append (a b : string) :
  String.length (a +:+ b) = String.length a + String.length b.
Proof.
  induction a as [|c a IH]; rewrite ?append_empty, ?append_String;
    cbn [String.length plus]; [reflexivity | now rewrite IH].
Qed.

Lemma span_word class (word rest : string) :
  all_chars class word = true ->
  first_char_is " " rest = true ->
  class " "%char = false ->
  span class (word +:+ rest) = (word, rest).
Proof.
  intros Hword Hrest Hspace.
  induction word as [|c word IH];
    rewrite ?append_empty, ?append_String; cbn [span].
  - destruct rest as [|c rest]; [reflexivity|]. cbn [span].
    cbn [first_char_is] in Hrest. apply Ascii.eqb_eq in Hrest. subst c.
    now rewrite Hspace.
  - cbn [all_chars] in Hword. apply andb_true_iff in Hword as [Hc Hword].
    rewrite Hc, (IH Hword). reflexivity.
Qed.

Lemma string_span_plain (p rest : string) :
  plain_pattern p = true ->
  string_span (p +:+ String quote_char rest) = Some (p, rest).
Proof.
  unfold plain_pattern. induction p as [|c p IH]; intros Hp.
  - cbn. reflexivity.
  - cbn [all_chars] in Hp. apply andb_true_iff in Hp as [Hc Hp].
    apply andb_true_iff in Hc as [Hquote Hback].
    apply negb_true_iff in Hquote, Hback.
    rewrite append_String. cbn [string_span]. rewrite Hquote, Hback. cbn [andb].
    rewrite (IH Hp).
    now destruct (p +:+ String quote_char rest) eqn:Htail;
      [destruct p; discriminate|].
Qed.

Lemma unescape_plain (p : string) :
  plain_pattern p = true -> unescape_quotes p = p.
Proof.
  unfold plain_pattern. induction p as [|c p IH]; intros Hp; [reflexivity|].
  cbn [all_chars] in Hp. apply andb_true_iff in Hp as [Hc Hp].
  apply andb_true_iff in Hc as [_ Hback]. apply negb_true_iff in Hback.
  destruct p as [|c' p']; [reflexivity|].
  change (unescape_quotes (String c (String c' p')))
    with (if Ascii.eqb c backslash && Ascii.eqb c' quote_char
          then String c' (unescape_quotes p')
          else String c (unescape_quotes (String c' p'))).
  rewrite Hback. cbn [andb]. now rewrite (IH Hp).
Qed.

Lemma trimEnd_append (a b : string) :
  trimEnd b = b -> b <> EmptyString -> trimEnd (a +:+ b) = a +:+ b.
Proof.
  intros Hb Hne. induction a as [|c a IH];
    rewrite ?append_empty, ?append_String; cbn [trimEnd].
  - exact Hb.
  - rewrite IH. destruct (a +:+ b) eqn:Hab; [|reflexivity].
    destruct a; [contradiction|discriminate].
Qed.

Lemma word_token_identifier (f : string) (position : nat) :
  is_identifier f = true ->
  word_token f position = token TokenType.IDENTIFIER f position.
Proof.
  unfold is_identifier, word_token. destruct f as [|c f]; [discriminate|].
  intros [_ Hkey%negb_true_iff]%andb_true_iff.
  cbn [existsb keywords] in Hkey.
  repeat (apply orb_false_iff in Hkey as [? Hkey]).
  repeat match goal with H : String.eqb _ _ = false |- _ =>
                           rewrite H; clear H end.
  reflexivity.
Qed.

(** One pass of the lexer on each kind of lexeme of [f LIKE 'p']. *)
Lemma tokenize_word n (word rest : string) position tokens :
  is_identifier word = true ->
  first_char_is " " rest = true ->
  tokenize_loop (S n) (word +:+ rest) position tokens =
  tokenize_loop n rest (position + String.length word)
    (tokens ++ [token TokenType.IDENTIFIER word position]).
Proof.
  intros Hid Hrest. pose proof Hid as Hid'.
  unfold is_identifier in Hid. destruct word as [|c word]; [discriminate|].
  apply andb_true_iff in Hid as [[Hletter Hchars]%andb_true_iff _].
  rewrite append_String. cbn [tokenize_loop].
  rewrite (letter_not_space _ Hletter), Hletter.
  rewrite <- append_String, (span_word _ _ _ Hchars Hrest eq_refl).
  now rewrite (word_token_identifier _ _ Hid').
Qed.

Lemma tokenize_space n (rest : string) position tokens :
  tokenize_loop (S n) (String " " rest) position tokens =
  tokenize_loop n rest (position + 1) tokens.
Proof. reflexivity. Qed.

Lemma tokenize_LIKE n (rest : string) position tokens :
  tokenize_loop (S n) ("LIKE" +:+ String " " rest) position tokens =
  tokenize_loop n (String " " rest) (position + 4)
    (tokens ++ [token TokenType.LIKE "LIKE" position]).
Proof. reflexivity. Qed.

Lemma tokenize_string n (p : string) position tokens :
  plain_pattern p = true ->
  tokenize_loop (S n) (String quote_char (p +:+ String quote_char ""))
    position tokens =
  tokenize_loop n EmptyString (position + 1 + String.length p + 1)
    (tokens ++ [token TokenType.STRING p position]).
Proof.
  intros Hp. cbn [tokenize_loop].
  change (is_space quote_char) with false.
  change (is_letter_ quote_char) with false.
  change (is_digit quote_char) with false.
  change (Ascii.eqb quote_char quote_char) with true. cbv iota.
  now rewrite (string_span_plain _ _ Hp), (unescape_plain _ Hp).
Qed.

Lemma tokenize_like (f p : string) :
  is_identifier f = true ->
  plain_pattern p = true ->
  exists p1 p2 p3,
    tokenize (like_text f p) =
    Ok [token TokenType.IDENTIFIER f 0; token TokenType.LIKE "LIKE" p1;
        token TokenType.STRING p p2; token TokenType.EOF "EOF" p3].
Proof.
  intros Hf Hp. unfold tokenize, like_text.
  assert (Htrim : trim (f +:+ " LIKE '" +:+ p +:+ "'") =
                  f +:+ " LIKE '" +:+ p +:+ "'").
  { unfold trim.
    assert (HtrimStart : forall rest, trimStart (f +:+ rest) = f +:+ rest).
    { intros rest. unfold is_identifier in Hf.
      destruct f as [|c f]; [discriminate|].
      apply andb_true_iff in Hf as [[Hletter _]%andb_true_iff _].
      rewrite append_String. cbn [trimStart].
      now rewrite (letter_not_space _ Hletter). }
    rewrite HtrimStart.
    repeat (apply trimEnd_append; [|now destruct p]).
    reflexivity. }
  rewrite Htrim.
  assert (Hlen : String.length (f +:+ " LIKE '" +:+ p +:+ "'") =
                 5 + (String.length f + String.length p + 3)).
  { rewrite !length_append. cbn [String.length]. lia. }
  rewrite Hlen.
  change (S (5 + (String.length f + String.length p + 3)))
    with (S (S (S (S (S (S (String.length f + String.length p + 3))))))).
  change (" LIKE '" +:+ p +:+ "'")
    with (String " " ("LIKE" +:+ String " "
                        (String quote_char (p +:+ String quote_char "")))).
  rewrite (tokenize_word _ f (String " " _) _ _ Hf eq_refl).
  rewrite tokenize_space, tokenize_LIKE, tokenize_space.
  rewrite (tokenize_string _ _ _ _ Hp).
  cbn [tokenize_loop app]. eexists _, _, _. reflexivity.
Qed.

Section SqlParserProofs.

Context (parseFloat : string -> value).

(** The parser on the tokens of [f LIKE 'p'], whatever the pattern. *)
Lemma parse_like (f pattern : string) p0 p1 p2 p3 :
  parse parseFloat
    [token TokenType.IDENTIFIER f p0; token TokenType.LIKE "LIKE" p1;
     token TokenType.STRING pattern p2; token TokenType.EOF "EOF" p3] =
  Ok [like_filter f pattern].
Proof. reflexivity. Qed.

Lemma like_op_cases (p : string) :
  like_op p = "contains" \/ like_op p = "endsWith"
  \/ like_op p = "startsWith".
Proof.
  unfold like_op.
  destruct (first_char_is "%" p), (last_char_is "%" p); cbn [andb]; auto.
Qed.

(** C8.  The text [f LIKE 'p'], for an identifier [f] and a pattern [p]
    that can stand between the quotes as it is, compiles to the single
    field condition on [f] whose operator and value follow the case
    analysis of the specification; on the tokens of such a text the
    parser does so for every pattern; and the operator is never [eq]. *)
Theorem like_translation (f p : string) :
  is_identifier f = true ->
  plain_pattern p = true ->
  parseSqlFilter parseFloat (like_text f p) =
    Ok [FieldFilter (VStr f)
          {| op := VStr (like_op p); fvalue := VStr (like_value p) |}] /\
  (forall pattern p0 p1 p2 p3,
      parse parseFloat
        [token TokenType.IDENTIFIER f p0; token TokenType.LIKE "LIKE" p1;
         token TokenType.STRING pattern p2; token TokenType.EOF "EOF" p3] =
      Ok [FieldFilter (VStr f)
            {| op := VStr (like_op pattern);
               fvalue := VStr (like_value pattern) |}]) /\
  (forall pattern, like_op pattern <> "eq").
Proof.
  intros Hf Hp. split; [|split].
  - unfold parseSqlFilter.
    destruct (tokenize_like f p Hf Hp) as (p1 & p2 & p3 & ->).
    cbn [bind rewrap]. rewrite parse_like. now rewrite like_filter_spec.
  - intros pattern p0 p1 p2 p3. rewrite parse_like.
    now rewrite like_filter_spec.
  - intros pattern.
    destruct (like_op_cases pattern) as [-> | [-> | ->]]; discriminate.
Qed.

End SqlParserProofs.

(** ** Pivot *)

(** C7, at the failing input.  The sample asks for the rows of the pivot
    in ascending order of the year; [orderBy] sorts the pivot
    combinations, among which a group-by field like the year never is, so
    the rows come in the order the years first occur, 2022 before 2021.
    A limit of 0 truncates nothing. *)
Theorem pivot_orderBy_leaves_rows
    (StringToNumber : string -> option Z)
    (localeCompare : string -> string -> Z) :
  (exists pivoted,
      pivot StringToNumber localeCompare sales (sales_by_year None) =
        Ok pivoted /\
      getChild pivoted (VStr "year") = Some [VNum 2022; VNum 2021] /\
      ordered_cells asc [VNum 2022; VNum 2021] = false) /\
  (exists pivoted,
      pivot StringToNumber localeCompare sales (sales_by_year (Some 0%Z)) =
        Ok pivoted /\
      numRows pivoted = 2).
Proof. split; eexists; repeat split. Qed.

(** ** Worked examples *)

(** C4, the counterexample.  The second store of [failing_heap] has a
    step that returns a new schema followed by a step that fails.  After
    the failed resolve the error is the one of the failing step, with no
    context added, and the store holds the new schema, not the one it
    had: the failed resolution has changed the handle. *)
Lemma resolve_failure_changes_schema :
  snd (resolveTable failing_heap 1) = Err "aggregation failed" /\
  schema_ <$> failing_heap !! 1 = Some people_schema /\
  schema_ <$> fst (resolveTable failing_heap 1) !! 1 = Some renamed_schema /\
  fst (resolveTable failing_heap 1) !! 1 <> failing_heap !! 1.
Proof. repeat split. discriminate. Qed.

(** The null policy on the sample table: [name = null] keeps the second
    row, whose name is null. *)
Lemma null_policy_laws_witness :
  exists mask' : Mask,
    evaluateFilterCondition decimal_StringToNumber people_schema people
      name_is_null [1; 1; 1]%Z = Ok mask' /\
    mask' !! 1 = Some 1%Z.
Proof.
  apply (null_policy_laws decimal_StringToNumber people_schema people "name"
           {| op := VStr "eq"; fvalue := VNull |}
           [VStr "Alice"; VNull; VStr "Charlie"] [1; 1; 1]%Z 1).
  - simpl. tauto.
  - reflexivity.
  - simpl. tauto.
  - simpl. lia.
  - reflexivity.
Defined.

(** The composition laws on the two sample filters. *)
Lemma mask_composition_witness :
  exists mA mB : Mask,
    mask_of decimal_StringToNumber people_schema people name_is_null
      = Ok mA /\
    mask_of decimal_StringToNumber people_schema people age_above_26
      = Ok mB /\
    mask_of decimal_StringToNumber people_schema people
      (AND [name_is_null; age_above_26]) = Ok (mask_and mA mB) /\
    mask_of decimal_StringToNumber people_schema people
      (OR [name_is_null; age_above_26]) = Ok (mask_or mA mB) /\
    mask_of decimal_StringToNumber people_schema people (NOT name_is_null)
      = Ok (mask_not mA).
Proof.
  apply (mask_composition decimal_StringToNumber people_schema people
           name_is_null age_above_26); reflexivity.
Defined.

(** The two queued filters of [filtered_heap] run in the order they were
    queued. *)
Lemma pipeline_ordering_witness :
  snd (resolveTable filtered_heap 1) =
  (let* out1 := filter_executor decimal_StringToNumber [name_is_null]
                  people_schema people in
   let* out2 := filter_executor decimal_StringToNumber [NOT age_above_26]
                  (default people_schema (res_schema out1))
                  (res_table out1) in
   Ok (res_table out2)).
Proof.
  refine (proj1 (proj2 (pipeline_ordering filtered_heap 1 _ eq_refl))
            _ _ eq_refl).
Defined.

(** The failed resolve of [failing_heap] leaves the table and the queue
    of the store as they were. *)
Lemma resolve_failure_witness :
  table_ <$> fst (resolveTable failing_heap 1) !! 1 = Some people /\
  (pendingOperations <$> fst (resolveTable failing_heap 1) !! 1) =
  (pendingOperations <$> failing_heap !! 1).
Proof.
  destruct (resolve_failure failing_heap 1 _
              (fst (resolveTable failing_heap 1)) "aggregation failed"
              eq_refl eq_refl)
    as (prefix & operation & suffix & table & schema
        & _ & _ & _ & _ & Htable & Hqueue & _).
  split; [exact Htable | exact Hqueue].
Defined.

(** A filter on a field the sample schema lacks, and a group-by on a
    column the sample table lacks. *)
Lemma absent_field_behaviour_witness :
  (exists f,
      In f (flat_map referenced_fields
              [FieldFilter (VStr "salary")
                 {| op := VStr "gt"; fvalue := VNum 1 |}]) /\
      in_schema people_schema f = false /\
      forall table',
        filter_executor decimal_StringToNumber
          [FieldFilter (VStr "salary")
             {| op := VStr "gt"; fvalue := VNum 1 |}] people_schema table' =
        Err ("Error filtering data: " +:+ field_not_found people_schema f))
  /\
  groupBy_executor (fun _ _ (_ : unit) => Err "aggregation failed")
    "department" tt people_schema people =
  Ok {| res_table := emptyLike people; res_schema := None |}.
Proof.
  apply (absent_field_behaviour decimal_StringToNumber).
  - exists (VStr "salary"). split; [left; reflexivity | reflexivity].
  - reflexivity.
Defined.

(** [name LIKE '%li%'] compiles to [contains "li"]. *)
Lemma like_translation_witness :
  parseSqlFilter integer_parseFloat (like_text "name" "%li%") =
  Ok [FieldFilter (VStr "name")
        {| op := VStr "contains"; fvalue := VStr "li" |}].
Proof.
  exact (proj1 (like_translation integer_parseFloat "name" "%li%"
                  eq_refl eq_refl)).
Defined.

(** A text that is not JSON gives a store with an identity operation. *)
Lemma filterFromJson_unreadable_witness :
  exists h' new,
    filterFromJson JSON_parse_int decimal_StringToNumber people_heap 0
      "not json" = (h', new) /\
    h' !! new =
      Some {| table_ := people; schema_ := people_schema;
              pendingOperations :=
                [{| owner := 0; executor := identity_executor |}] |} /\
    snd (resolveTable h' new) = snd (resolveTable people_heap 0).
Proof.
  exact (filterFromJson_unreadable JSON_parse_int decimal_StringToNumber
           people_heap 0 _ "not json" "Unexpected token in JSON"
           eq_refl eq_refl).
Defined.

(** Sorting the sample table by age, descending: the row without an age
    still comes first. *)
Lemma sort_nulls_first_witness :
  exists sorted cells,
    sort_executor decimal_StringToNumber ordinal_localeCompare
      [{| sort_field := "age"; direction := desc |}] people_schema people =
      Ok {| res_table := sorted; res_schema := Some people_schema |} /\
    getChild sorted (VStr "age") = Some cells /\
    cells ≡ₚ [VNum 25; VNum 30; VNull] /\
    nulls_first cells.
Proof.
  refine (proj1 (sort_nulls_first decimal_StringToNumber
                   ordinal_localeCompare people_schema people "age" desc
                   [VNum 25; VNum 30; VNull] _ eq_refl)).
  apply (bool_decide_unpack _). vm_compute. exact I.
Defined.

(** ** Ordering a pivot by fields that are not pivot columns *)

Lemma has_key_set {A} (o : list (string * A)) k k' v :
  has_key (obj_set o k v) k' = String.eqb k k' || has_key o k'.
Proof.
  unfold has_key. rewrite obj_get_set. now destruct (String.eqb k k').
Qed.

Lemma has_key_merge {A} (b a : list (string * A)) k :
  has_key (obj_merge a b) k = has_key a k || existsb (String.eqb k) (List.map fst b).
Proof.
  unfold obj_merge. revert a.
  induction b as [|[k0 v0] b IH]; intros a; cbn [foldl List.map fst existsb].
  - now rewrite orb_false_r.
  - rewrite IH, has_key_set, (String.eqb_sym k k0).
    now destruct (String.eqb k0 k), (has_key a k).
Qed.

(** The keys of what [generateCartesianProduct] builds from the values of
    the columns [cols] are keys of [current] or columns of [cols]. *)
Lemma cartesian_keys (cols : list string) (arrays : list (list Row)) :
  Forall2 (fun col items =>
             forall item, In item items -> List.map fst item = [col])
    cols arrays ->
  forall current combo k,
    In combo (generateCartesianProduct arrays current) ->
    has_key combo k = true ->
    has_key current k = true \/ In k cols.
Proof.
  induction 1 as [|col items cols arrays Hitems _ IH];
    intros current combo k Hin Hkey.
  - cbn in Hin. destruct Hin as [<-|[]]. now left.
  - cbn [generateCartesianProduct] in Hin.
    apply in_flat_map in Hin as (item & Hitem & Hin).
    destruct (IH _ _ _ Hin Hkey) as [Hmerged|Hcols]; [|right; now right].
    rewrite has_key_merge, (Hitems _ Hitem) in Hmerged.
    cbn [existsb] in Hmerged. rewrite orb_false_r in Hmerged.
    apply orb_true_iff in Hmerged as [Hcur|Heq]; [now left|].
    apply String.eqb_eq in Heq. right. now left.
Qed.

Lemma mapM_Forall2 {A B} (f : A -> result B) (P : A -> B -> Prop)
    (l : list A) (out : list B) :
  (forall x y, f x = Ok y -> P x y) ->
  mapM f l = Ok out -> Forall2 P l out.
Proof.
  intros Hf. revert out.
  induction l as [|x l IH]; intros out; cbn [mapM].
  - intros [= <-]. constructor.
  - destruct (f x) as [y|e] eqn:Hx; cbn [bind]; [|discriminate].
    destruct (mapM f l) as [ys|e]; cbn [bind]; [|discriminate].
    intros [= <-]. constructor; [now apply Hf | now apply IH].
Qed.

(** A pivot combination has the pivot columns and [_pivotKey] as keys,
    and no other. *)
Lemma pivotCombinations_keys distinct onColumns combos combo k :
  pivotCombinations_of distinct onColumns = Ok combos ->
  In combo combos ->
  has_key combo k = true ->
  In k onColumns \/ k = "_pivotKey".
Proof.
  assert (Hmany :
    (let* arrays :=
       mapM (fun col =>
               let* values := values_of distinct col in
               Ok (List.map (fun val => [(col, val)]) values))
         onColumns in
     Ok (List.map (fun combo =>
                     obj_set combo "_pivotKey"
                       (VStr (join "_"
                                (List.map (fun col => String_ (prop combo col))
                                   onColumns))))
           (generateCartesianProduct arrays []))) = Ok combos ->
    In combo combos -> has_key combo k = true ->
    In k onColumns \/ k = "_pivotKey").
  { destruct (mapM _ onColumns) as [arrays|e] eqn:Harrays; cbn [bind];
      [|discriminate].
    intros [= <-] (raw & <- & Hraw)%in_map_iff Hkey.
    rewrite has_key_set in Hkey.
    apply orb_true_iff in Hkey as [Heq|Hkey].
    { apply String.eqb_eq in Heq. now right. }
    assert (Hshape : Forall2 (fun col items =>
                       forall item, In item items ->
                                    List.map fst item = [col])
                       onColumns arrays).
    { eapply mapM_Forall2; [|exact Harrays].
      intros col items. cbn beta.
      destruct (values_of distinct col); cbn [bind]; [|discriminate].
      intros [= <-] item (val & <- & _)%in_map_iff. reflexivity. }
    destruct (cartesian_keys _ _ Hshape _ _ _ Hraw Hkey) as [Hnone|Hcol];
      [discriminate | now left]. }
  unfold pivotCombinations_of.
  destruct onColumns as [|col [|col' more]]; [exact Hmany| |exact Hmany].
  destruct (values_of distinct col) as [values|e]; cbn [bind];
    [|discriminate].
  clear Hmany. intros Hcombos Hin Hkey.
  assert (Hcombo : exists val,
             combo = obj_set (obj_set [] col val) "_pivotKey"
                       (VStr (String_ val))).
  { injection Hcombos as <-. apply in_map_iff in Hin as (val & <- & _).
    now exists val. }
  destruct Hcombo as (val & ->).
  rewrite !has_key_set in Hkey. cbn [has_key obj_get] in Hkey.
  rewrite orb_false_r in Hkey.
  apply orb_true_iff in Hkey as [Heq|Heq]; apply String.eqb_eq in Heq.
  - now right.
  - left. now left.
Qed.

(** Sorting with a comparator that finds every two elements equal leaves
    the list as it is. *)
Lemma array_sort_indifferent {A} (compareFn : A -> A -> Z) (l : list A) :
  (forall x y, In x l -> In y l -> compareFn x y = 0%Z) ->
  array_sort compareFn l = l.
Proof.
  unfold array_sort. induction l as [|x l IH]; intros Hzero; cbn [foldr].
  - reflexivity.
  - rewrite IH by (intros a b Ha Hb; apply Hzero; now right).
    destruct l as [|y l]; cbn [insert_sorted]; [reflexivity|].
    rewrite (Hzero x y); [reflexivity | now left | right; now left].
Qed.

Section PivotProofs.

Context (StringToNumber : string -> option Z).
Context (localeCompare : string -> string -> Z).

Lemma combination_compare_foreign orderBy (a b : Row) :
  (forall order, In order orderBy ->
                 has_key a (last_segment (order_field order)) = false) ->
  combination_compare StringToNumber localeCompare orderBy a b = 0%Z.
Proof.
  induction orderBy as [|order orderBy IH]; intros Hforeign;
    cbn [combination_compare]; [reflexivity|].
  rewrite (Hforeign order) by now left. cbn [andb].
  apply IH. intros o Ho. apply Hforeign. now right.
Qed.

(** Ordering a pivot by fields that are neither pivot columns nor
    [_pivotKey], as group-by fields are, changes nothing. *)
Lemma pivot_orderBy_foreign table options orders :
  (forall order, In order orders ->
     ~ In (last_segment (order_field order)) (on options) /\
     last_segment (order_field order) <> "_pivotKey") ->
  pivot StringToNumber localeCompare table
    {| on := on options; using_ := using_ options;
       groupBy := groupBy options; orderBy := Some orders;
       limit := limit options |} =
  pivot StringToNumber localeCompare table
    {| on := on options; using_ := using_ options;
       groupBy := groupBy options; orderBy := None;
       limit := limit options |}.
Proof.
  intros Hforeign. unfold pivot, pivot_rows. cbn [on using_ groupBy orderBy limit].
  destruct (pivotCombinations_of _ (on options)) as [combos|e] eqn:Hcombos;
    [|reflexivity].
  cbn [bind]. destruct orders as [|order orders]; [reflexivity|].
  rewrite array_sort_indifferent; [reflexivity|].
  intros a b Ha _. apply combination_compare_foreign.
  intros o Ho. destruct (Hforeign o Ho) as [Hnot_on Hnot_key].
  destruct (has_key a (last_segment (order_field o))) eqn:Hkey;
    [|reflexivity].
  destruct (pivotCombinations_keys _ _ _ _ _ Hcombos Ha Hkey); contradiction.
Qed.

End PivotProofs.

(** Texts on which reading the filters throws. *)
Lemma filtersFromJson_throws_examples :
  filtersFromJson JSON_parse_int "not json" =
    Err "Unexpected token in JSON" /\
  filtersFromJson JSON_parse_int "{}" =
    Err "serialized.map is not a function" /\
  filtersFromJson JSON_parse_int "[1]" =
    Err "Unknown serialized filter type: 1" /\
  filtersFromJson JSON_parse_int "[null]" =
    Err "Cannot read properties of null (reading 'type')" /\
  filtersFromJson JSON_parse_int
    ("[{" +:+ quote "type" +:+ ":" +:+ quote "and" +:+ "}]") =
    Err "Cannot read properties of undefined (reading 'map')" /\
  filtersFromJson JSON_parse_int
    ("[{" +:+ quote "type" +:+ ":" +:+ quote "not" +:+ "}]") =
    Err "Cannot read properties of undefined (reading 'type')" /\
  filtersFromJson JSON_parse_int
    ("[{" +:+ quote "type" +:+ ":" +:+ quote "field" +:+ "}]") =
    Err "Cannot read properties of undefined (reading 'op')".
Proof. repeat split. Qed.

(** ** Filters written and read back *)

Lemma deserialize_each (l : list FilterCondition) :
  Forall (fun c => deserializeFilter (serializeFilter c) = Ok c) l ->
  (fix each (items : list value) : result (list FilterCondition) :=
     match items with
     | [] => Ok []
     | condition :: more =>
         let* c := deserializeFilter condition in
         let* cs := each more in
         Ok (c :: cs)
     end) (List.map serializeFilter l) = Ok l.
Proof.
  induction 1 as [|c l Hc _ IH]; cbn [List.map]; [reflexivity|].
  rewrite Hc. cbn [bind]. rewrite IH. reflexivity.
Qed.

Lemma deserialize_serialize c : deserializeFilter (serializeFilter c) = Ok c.
Proof.
  induction c as [l IH|l IH|c IH|field [o v]]
    using FilterCondition_nested_ind.
  - cbn. rewrite (deserialize_each l IH). reflexivity.
  - cbn. rewrite (deserialize_each l IH). reflexivity.
  - cbn. cbn in IH. rewrite IH. reflexivity.
  - reflexivity.
Qed.

(** X1.  Serializing filter conditions and deserializing the result gives
    the conditions back, whatever their nesting, fields, operators and
    values; and [filtersFromJson(filtersToJson(filters))] is [filters]
    whenever [JSON.parse] reads the written text back as the serialized
    array. *)
Theorem filters_round_trip (JSON_parse : string -> result value)
    (filters : list FilterCondition) :
  deserializeFilters (serializeFilters filters) = Ok filters /\
  (JSON_parse (filtersToJson filters) = Ok (serializeFilters filters) ->
   filtersFromJson JSON_parse (filtersToJson filters) = Ok filters).
Proof.
  assert (Hobj : deserializeFilters (serializeFilters filters) = Ok filters).
  { apply deserialize_each, Forall_forall. intros c _.
    apply deserialize_serialize. }
  split; [exact Hobj|].
  intros Hparse. unfold filtersFromJson. rewrite Hparse. exact Hobj.
Qed.

Lemma filters_round_trip_witness :
  filtersFromJson JSON_parse_int
    (filtersToJson [name_is_null; OR [NOT age_above_26; name_is_null]]) =
  Ok [name_is_null; OR [NOT age_above_26; name_is_null]].
Proof.
  apply (proj2 (filters_round_trip JSON_parse_int
                  [name_is_null; OR [NOT age_above_26; name_is_null]])).
  vm_compute. reflexivity.
Defined.

(** ** The rows a filter returns *)


Lemma filter_length_all {A} (f : A -> bool) (l : list A) :
  length (List.filter f l) = length l -> List.filter f l = l.
Proof.
  induction l as [|x l IH]; cbn [List.filter]; [reflexivity|].
  destruct (f x); cbn [length]; intros Hlen.
  - f_equal. apply IH. lia.
  - pose proof (List.filter_length_le f l). lia.
Qed.

Lemma kept_rows_snoc (mask : Mask) b :
  kept_rows (mask ++ [b]) (S (length mask)) =
  kept_rows mask (length mask) ++ (if (b =? 1)%Z then [length mask] else []).
Proof.
  unfold kept_rows. rewrite seq_S, List.filter_app. cbn [List.filter].
  f_equal.
  - apply List.filter_ext_in. intros j Hj%in_seq. unfold mask_keeps.
    now rewrite lookup_app_l by lia.
  - unfold mask_keeps. rewrite Nat.add_0_l.
    rewrite lookup_app_r by lia. rewrite Nat.sub_diag. cbn.
    now destruct (b =? 1)%Z.
Qed.

Lemma mask_sum (mask : Mask) :
  mask01 mask ->
  foldl Z.add 0%Z mask = Z.of_nat (length (kept_rows mask (length mask))).
Proof.
  induction mask as [|b mask IH] using rev_ind; intros H01; [reflexivity|].
  apply Forall_app in H01 as [H01 Hb]. inversion_clear Hb as [|? ? Hb' _].
  rewrite foldl_app. cbn [foldl]. rewrite IH by assumption.
  rewrite length_app. cbn [length]. rewrite Nat.add_1_r, kept_rows_snoc.
  rewrite length_app. destruct Hb' as [->| ->]; cbn; lia.
Qed.

Lemma map_get_seq (vector : Vector) :
  List.map (get vector) (seq 0 (length vector)) = vector.
Proof.
  induction vector as [|v vector IH] using rev_ind; [reflexivity|].
  rewrite length_app. cbn [length]. rewrite Nat.add_1_r, seq_S, List.map_app.
  cbn [List.map]. f_equal.
  - etransitivity; [|exact IH]. apply List.map_ext_in. intros j Hj%in_seq.
    unfold get. now rewrite List.app_nth1 by lia.
  - unfold get. rewrite List.app_nth2 by lia.
    now rewrite Nat.add_0_l, Nat.sub_diag.
Qed.

Lemma take_all_rows table :
  well_formed table -> take_rows table (seq 0 (numRows table)) = table.
Proof.
  intros [_ Hcols]. unfold take_rows.
  generalize dependent (numRows table). intros n Hcols.
  induction Hcols as [|[f vector] cols [Hlen _] _ IH]; [reflexivity|].
  cbn [List.map]. cbn [snd] in Hlen. rewrite IH. f_equal. f_equal.
  rewrite <- Hlen. apply map_get_seq.
Qed.

Lemma cell_get (vector : Vector) i :
  (if isValid vector i then get vector i else VNull) = get vector i.
Proof.
  unfold isValid. now destruct (get vector i).
Qed.

Lemma obj_get_app_fresh {A} (o o' : list (string * A)) k :
  ~ In k (List.map fst o) -> obj_get (o ++ o') k = obj_get o' k.
Proof.
  induction o as [|[k0 v0] o IH]; cbn [List.map fst app obj_get];
    [reflexivity|].
  intros Hfresh. destruct (String.eqb_spec k0 k) as [->|_].
  - exfalso. apply Hfresh. now left.
  - apply IH. intros Hin. apply Hfresh. now right.
Qed.

Lemma obj_set_app_fresh {A} (o o' : list (string * A)) k v :
  ~ In k (List.map fst o) -> obj_set (o ++ o') k v = o ++ obj_set o' k v.
Proof.
  induction o as [|[k0 v0] o IH]; cbn [List.map fst app obj_set];
    [reflexivity|].
  intros Hfresh. destruct (String.eqb_spec k0 k) as [->|_].
  - exfalso. apply Hfresh. now left.
  - f_equal. apply IH. intros Hin. apply Hfresh. now right.
Qed.

Lemma columns_with_keys g table :
  List.map fst (columns_with g table) = fieldNamesOf table.
Proof.
  unfold columns_with, fieldNamesOf.
  induction table as [|[f vector] table IH]; cbn [List.map fst];
    [reflexivity | now rewrite IH].
Qed.

Lemma getChild_app_fresh (pre suf : Table) f :
  ~ In f (fieldNamesOf pre) ->
  getChild (pre ++ suf) (VStr f) = getChild suf (VStr f).
Proof.
  induction pre as [|[k v] pre IH];
    cbn [fieldNamesOf List.map fst app getChild strict_eq]; [reflexivity|].
  intros Hfresh. destruct (String.eqb_spec k f) as [->|_].
  - exfalso. apply Hfresh. now left.
  - apply IH. intros Hin. apply Hfresh. now right.
Qed.

(** A loop over the field names that rewrites the column of each field in
    turn rewrites every column. *)
Lemma foldl_each_column
    (step : list (string * list value) -> string -> list (string * list value))
    (g g' : Vector -> list value) (table : Table) :
  (forall pre f vector suf,
      table = pre ++ (f, vector) :: suf ->
      step (columns_with g' pre ++ (f, g vector) :: columns_with g suf) f =
      columns_with g' pre ++ (f, g' vector) :: columns_with g suf) ->
  foldl step (columns_with g table) (fieldNamesOf table) =
  columns_with g' table.
Proof.
  intros Hstep.
  assert (Hgen : forall suf pre,
             table = pre ++ suf ->
             foldl step (columns_with g' pre ++ columns_with g suf)
               (fieldNamesOf suf) = columns_with g' table).
  { induction suf as [|[f vector] suf IH]; intros pre Htable.
    - cbn. rewrite app_nil_r in *. now subst.
    - cbn [fieldNamesOf List.map fst foldl columns_with].
      change (List.map (fun '(f, vector) => (f, g vector)) suf)
        with (columns_with g suf).
      rewrite (Hstep pre f vector suf Htable).
      replace (columns_with g' pre ++ (f, g' vector) :: columns_with g suf)
        with (columns_with g' (pre ++ [(f, vector)]) ++ columns_with g suf).
      2: { unfold columns_with. rewrite List.map_app. cbn [List.map].
           now rewrite <- app_assoc. }
      apply IH. now rewrite <- app_assoc. }
  exact (Hgen table [] eq_refl).
Qed.

Lemma write_cells (field : string) (base : nat) (cell : nat -> value)
    (pre : list (string * list value)) arr suf (writes : list (nat * nat)) :
  ~ In field (List.map fst pre) ->
  foldl (fun fv '(idx, rowIdx) =>
           write_cell fv field (base + idx) (cell rowIdx))
    (pre ++ (field, arr) :: suf) writes =
  pre ++ (field,
          foldl (fun arr '(idx, rowIdx) =>
                   arr_set arr (base + idx) (cell rowIdx))
            arr writes) :: suf.
Proof.
  intros Hfresh. revert arr.
  induction writes as [|[idx rowIdx] writes IH]; intros arr; cbn [foldl];
    [reflexivity|].
  unfold write_cell at 2.
  rewrite obj_get_app_fresh by assumption. cbn [obj_get].
  rewrite String.eqb_refl.
  rewrite obj_set_app_fresh by assumption. cbn [obj_set].
  rewrite String.eqb_refl. apply IH.
Qed.

Lemma write_run (cell : nat -> value) (base : nat) (rows : list nat) :
  forall (s k : nat) (done : list value),
    length done = base + s -> length rows <= k ->
    foldl (fun arr '(idx, rowIdx) => arr_set arr (base + idx) (cell rowIdx))
      (done ++ replicate k VUndefined) (combine (seq s (length rows)) rows) =
    (done ++ List.map cell rows) ++ replicate (k - length rows) VUndefined.
Proof.
  induction rows as [|r rows IH]; intros s k done Hdone Hk;
    cbn [length seq combine foldl List.map].
  - now rewrite app_nil_r, Nat.sub_0_r.
  - cbn [length] in Hk. destruct k as [|k]; [lia|].
    unfold arr_set at 2. rewrite length_app, length_replicate.
    destruct (Nat.ltb_spec (base + s) (length done + S k)) as [_|Hge];
      [|lia].
    rewrite <- Hdone. rewrite insert_app_r_alt by lia.
    rewrite Nat.sub_diag. cbn [replicate]. cbn.
    change (done ++ VUndefined :: replicate k VUndefined) with
      (done ++ VUndefined :: replicate k VUndefined).
    replace (done ++ cell r :: replicate k VUndefined)
      with ((done ++ [cell r]) ++ replicate k VUndefined)
      by now rewrite <- app_assoc.
    rewrite (IH (S s) k (done ++ [cell r])).
    + rewrite <- !app_assoc. reflexivity.
    + rewrite length_app. cbn [length]. lia.
    + lia.
Qed.

Lemma init_columns (c : list value) (names : list string)
    (acc : list (string * list value)) :
  NoDup (List.map fst acc ++ names) ->
  foldl (fun fv field => obj_set fv field c) acc names =
  acc ++ List.map (fun n => (n, c)) names.
Proof.
  revert acc. induction names as [|n names IH]; intros acc Hnodup;
    cbn [foldl List.map].
  - now rewrite app_nil_r.
  - assert (Hfresh : ~ In n (List.map fst acc)).
    { apply NoDup_app in Hnodup as (_ & Hdisj & _).
      intros Hin. apply (Hdisj n); [now apply list_elem_of_In|].
      apply list_elem_of_In. now left. }
    replace (obj_set acc n c) with (acc ++ [(n, c)]).
    2: { rewrite <- (app_nil_r acc) at 2.
         now rewrite obj_set_app_fresh by assumption. }
    rewrite IH.
    + now rewrite <- app_assoc.
    + rewrite List.map_app. cbn [List.map fst]. now rewrite <- app_assoc.
Qed.

Lemma copy_batch_rows table (mask : Mask) count (done batch : list nat) :
  NoDup (fieldNamesOf table) ->
  length done + length (List.filter (mask_keeps mask) batch) <= count ->
  copy_batch table mask
    (columns_with (partial_column count done) table, length done) batch =
  (columns_with
     (partial_column count (done ++ List.filter (mask_keeps mask) batch)) table,
   length (done ++ List.filter (mask_keeps mask) batch)).
Proof.
  intros Hnames Hroom. unfold copy_batch.
  set (indices := List.filter (mask_keeps mask) batch) in *.
  destruct (Nat.eqb_spec (length indices) 0) as [Hnone|Hsome].
  - apply length_zero_iff_nil in Hnone. rewrite Hnone.
    now rewrite app_nil_r.
  - rewrite length_app. f_equal.
    apply foldl_each_column.
    intros pre f vector suf Htable.
    assert (Hfresh : ~ In f (fieldNamesOf pre)).
    { rewrite Htable in Hnames. unfold fieldNamesOf in Hnames.
      rewrite List.map_app in Hnames. cbn [List.map fst] in Hnames.
      apply NoDup_app in Hnames as (_ & Hdisj & _).
      intros Hin. apply (Hdisj f); [now apply list_elem_of_In|].
      apply list_elem_of_In. now left. }
    rewrite Htable, getChild_app_fresh by assumption.
    cbn [getChild strict_eq]. rewrite String.eqb_refl.
    rewrite (foldl_pointwise _
               (fun fv '(idx, rowIdx) =>
                  write_cell fv f (length done + idx) (get vector rowIdx)))
      by (intros fv [idx rowIdx]; now rewrite cell_get).
    rewrite write_cells by now rewrite columns_with_keys.
    f_equal. f_equal. f_equal. unfold partial_column.
    rewrite (write_run (get vector) (length done) indices 0
               (count - length done) (List.map (get vector) done))
      by (rewrite ?length_map; lia).
    rewrite List.map_app, length_app. f_equal. f_equal. lia.
Qed.

Lemma copy_batches_rows table (mask : Mask) count
    (batches : list (list nat)) (done : list nat) :
  NoDup (fieldNamesOf table) ->
  length done + length (List.filter (mask_keeps mask) (concat batches))
    <= count ->
  foldl (copy_batch table mask)
    (columns_with (partial_column count done) table, length done) batches =
  (columns_with
     (partial_column count
        (done ++ List.filter (mask_keeps mask) (concat batches))) table,
   length (done ++ List.filter (mask_keeps mask) (concat batches))).
Proof.
  intros Hnames. revert done.
  induction batches as [|batch batches IH]; intros done Hroom;
    cbn [foldl concat].
  - cbn. now rewrite app_nil_r.
  - cbn [concat] in Hroom. rewrite List.filter_app, length_app in Hroom.
    rewrite copy_batch_rows by (assumption || lia).
    rewrite IH by (rewrite length_app; lia).
    now rewrite List.filter_app, app_assoc.
Qed.

(** A mask over the rows of a well-formed table that keeps at least one
    row: [applyFilterMask] returns, for every column, the cells of the
    kept rows in the order of the table. *)
Lemma applyFilterMask_kept_rows table (mask : Mask) :
  well_formed table ->
  mask01 mask -> length mask = numRows table ->
  kept_rows mask (numRows table) <> [] ->
  applyFilterMask table mask = take_rows table (kept_rows mask (numRows table)).
Proof.
  intros Hwf H01 Hlen Hsome.
  pose proof (mask_sum mask H01) as Hsum. rewrite Hlen in Hsum.
  set (kept := kept_rows mask (numRows table)) in *.
  unfold applyFilterMask. rewrite Hsum.
  destruct (Z.eqb_spec (Z.of_nat (length kept)) 0) as [Hzero|_].
  { destruct kept; [contradiction|discriminate]. }
  destruct (Z.eqb_spec (Z.of_nat (length kept)) (Z.of_nat (numRows table)))
    as [Hall|_].
  { assert (Hkept : kept = seq 0 (numRows table)).
    { apply filter_length_all. rewrite length_seq.
      fold (kept_rows mask (numRows table)). fold kept. lia. }
    rewrite Hkept. symmetry. now apply take_all_rows. }
  rewrite Nat2Z.id. destruct Hwf as [Hnames Hcols].
  rewrite (init_columns _ _ []) by exact Hnames. cbn [app].
  replace (List.map (fun n => (n, replicate (length kept) VUndefined))
             (fieldNamesOf table))
    with (columns_with (partial_column (length kept) []) table).
  2: { unfold columns_with, fieldNamesOf, partial_column.
       rewrite List.map_map. apply List.map_ext. intros [f vector].
       cbn. now rewrite Nat.sub_0_r. }
  assert (Hconcat : List.filter (mask_keeps mask)
                      (concat (batches (numRows table) 1000)) = kept).
  { change (concat (batches (numRows table) 1000))
      with (batched_indices (numRows table) 1000).
    now rewrite batched_indices_seq by lia. }
  change 0 with (length (@nil nat)) at 1.
  rewrite (copy_batches_rows table mask (length kept) _ [] Hnames)
    by (rewrite Hconcat; cbn; lia).
  cbn [fst app]. rewrite Hconcat.
  unfold tableFromArrays, columns_with, take_rows, partial_column.
  rewrite List.map_map.
  apply List.map_ext_in. intros [f vector] Hin.
  f_equal. rewrite Nat.sub_diag. cbn [replicate]. rewrite app_nil_r.
  rewrite List.map_map. apply List.map_ext_in. intros r Hr.
  rewrite List.Forall_forall in Hcols.
  destruct (Hcols _ Hin) as [Hlength Hdefined]. cbn [snd] in *.
  apply List.filter_In in Hr as [Hr%in_seq _].
  rewrite List.Forall_forall in Hdefined.
  assert (Hcell : get vector r <> VUndefined).
  { apply Hdefined. unfold get. apply nth_In. lia. }
  now destruct (get vector r).
Qed.


Lemma numRows_take_rows table rows :
  table <> [] -> numRows (take_rows table rows) = length rows.
Proof.
  destruct table as [|[f vector] table]; [contradiction|].
  intros _. cbn. now rewrite length_map.
Qed.

Lemma get_map_get (vector : Vector) (rows : list nat) j :
  j < length rows ->
  get (List.map (get vector) rows) j = get vector (nth j rows 0).
Proof.
  intros Hj. unfold get at 1.
  rewrite (nth_indep _ VNull (get vector 0)) by now rewrite length_map.
  now rewrite List.map_nth.
Qed.

Lemma toArray_take_rows table rows :
  table <> [] ->
  toArray (take_rows table rows) = List.map (row_of table) rows.
Proof.
  intros Hcols. unfold toArray. rewrite numRows_take_rows by assumption.
  transitivity (List.map (fun j => row_of table (nth j rows 0))
                  (seq 0 (length rows))).
  - apply List.map_ext_in. intros j Hj%in_seq.
    unfold take_rows, row_of. rewrite List.map_map.
    apply List.map_ext. intros [f vector]. f_equal.
    apply get_map_get. lia.
  - rewrite <- (List.map_map (fun j => nth j rows 0) (row_of table)).
    f_equal. clear. induction rows as [|r rows IH]; [reflexivity|].
    cbn [length seq List.map]. f_equal.
    rewrite <- seq_shift, List.map_map. exact IH.
Qed.

Lemma fieldNamesOf_take_rows table rows :
  fieldNamesOf (take_rows table rows) = fieldNamesOf table.
Proof.
  unfold fieldNamesOf, take_rows. rewrite List.map_map.
  apply List.map_ext. now intros [f vector].
Qed.

Section FilterRows.

Context (StringToNumber : string -> option Z).

Lemma createComplexFilterMask_AND schema table filters :
  createComplexFilterMask StringToNumber schema table filters =
  evaluateFilterCondition StringToNumber schema table (AND filters)
    (filled (numRows table) 1%Z).
Proof.
  unfold createComplexFilterMask. cbn [evaluateFilterCondition].
  generalize (filled (numRows table) 1%Z).
  induction filters as [|c filters IH]; intros mask; cbn [foldl];
    [reflexivity|].
  cbn [bind].
  destruct (evaluateFilterCondition StringToNumber schema table c mask)
    as [mask'|e]; cbn [bind]; [apply IH|].
  clear. induction filters as [|c filters IH]; cbn [foldl bind];
    [reflexivity | exact IH].
Qed.

Lemma validateFilterFields_AND schema filters :
  validateFilterFields schema [AND filters] =
  validateFilterFields schema filters.
Proof.
  cbn [validateFilterFields validateFilterCondition].
  induction filters as [|c filters IH]; [reflexivity|].
  cbn [validateFilterFields].
  destruct (validateFilterCondition schema c) as [[]|e]; cbn [bind];
    [exact IH | reflexivity].
Qed.

Lemma fields_exist_in_schema schema table c :
  fields_exist schema table c = true ->
  Forall (fun f => in_schema schema f = true) (referenced_fields c).
Proof.
  induction c as [l IH|l IH|c IH|field filter]
    using FilterCondition_nested_ind;
    cbn [fields_exist referenced_fields]; intros Hfields.
  - induction IH as [|c l Hc _ IHl]; cbn [flat_map]; [constructor|].
    cbn [forallb] in Hfields. apply andb_true_iff in Hfields as [H1 H2].
    apply Forall_app. split; [now apply Hc | now apply IHl].
  - induction IH as [|c l Hc _ IHl]; cbn [flat_map]; [constructor|].
    cbn [forallb] in Hfields. apply andb_true_iff in Hfields as [H1 H2].
    apply Forall_app. split; [now apply Hc | now apply IHl].
  - now apply IH.
  - apply andb_true_iff in Hfields as [Hschema _].
    constructor; [exact Hschema|constructor].
Qed.

Lemma validateFilterFields_exist schema table filters :
  fields_exist schema table (AND filters) = true ->
  validateFilterFields schema filters = Ok tt.
Proof.
  intros Hfields.
  apply fields_exist_in_schema in Hfields. cbn [referenced_fields] in Hfields.
  destruct (validateFilterFields_cases schema filters)
    as [[Hok _]|(f & Hin & Habs & _)]; [exact Hok|].
  rewrite Forall_forall in Hfields.
  rewrite (Hfields f) in Habs; [discriminate | now apply list_elem_of_In].
Qed.

Lemma kept_rows_select keep n :
  kept_rows (select keep (filled n 1%Z)) n = List.filter keep (seq 0 n).
Proof.
  unfold kept_rows. apply List.filter_ext_in. intros j Hj%in_seq.
  unfold mask_keeps. rewrite select_lookup, filled_lookup_lt by lia.
  cbn. now destruct (keep j).
Qed.

Lemma filter_executor_rows schema table filters :
  well_formed table ->
  fields_exist schema table (AND filters) = true ->
  List.filter (keeps StringToNumber table (AND filters))
    (seq 0 (numRows table)) <> [] ->
  filter_executor StringToNumber filters schema table =
  Ok {| res_table :=
          take_rows table
            (List.filter (keeps StringToNumber table (AND filters))
               (seq 0 (numRows table)));
        res_schema := Some schema |}.
Proof.
  intros Hwf Hfields Hsome. unfold filter_executor.
  rewrite (validateFilterFields_exist _ _ _ Hfields). cbn [bind].
  rewrite createComplexFilterMask_AND.
  rewrite evaluateFilterCondition_select;
    [|assumption|apply filled_mask01|apply length_replicate].
  cbn [bind rewrap]. f_equal. f_equal.
  rewrite <- kept_rows_select.
  apply applyFilterMask_kept_rows; try assumption.
  - apply select_mask01, filled_mask01.
  - rewrite select_length. apply length_replicate.
  - now rewrite kept_rows_select.
Qed.

End FilterRows.

(** Well-formedness of a table given by its cells. *)
Ltac well_formed_table :=
  split;
  [ apply (bool_decide_unpack _); vm_compute; exact I
  | repeat (constructor;
            [ split; [reflexivity
                     | repeat (constructor; [discriminate|]); constructor]
            | ]);
    constructor ].

(** X2.  Passing a list of conditions to [filter] is the same as passing
    their conjunction as one [AND] condition: the validation of the
    fields has the same outcome, the same mask is computed, and the step
    returns the same table or raises the same error. *)
Theorem filter_list_is_conjunction (StringToNumber : string -> option Z)
    filters schema table :
  validateFilterFields schema [AND filters] =
    validateFilterFields schema filters /\
  createComplexFilterMask StringToNumber schema table [AND filters] =
    createComplexFilterMask StringToNumber schema table filters /\
  filter_executor StringToNumber [AND filters] schema table =
    filter_executor StringToNumber filters schema table.
Proof.
  assert (Hmask :
    createComplexFilterMask StringToNumber schema table [AND filters] =
    createComplexFilterMask StringToNumber schema table filters).
  { now rewrite (createComplexFilterMask_AND _ _ _ filters). }
  split; [apply validateFilterFields_AND|]. split; [exact Hmask|].
  unfold filter_executor. now rewrite validateFilterFields_AND, Hmask.
Qed.

(** X3.  For a well-formed table whose column names are ordinary keys
    (no array index, which the record of the new columns would list
    first, and no inherited name) and whose columns each hold one kind
    of value, and a mask of zeros and ones over its rows that keeps at
    least one row, [applyFilterMask] returns the columns of the table,
    each holding the cells of the kept rows in the order of the table;
    the result has as many rows as the mask has ones. *)
Theorem applyFilterMask_keeps_rows table (mask : Mask) :
  well_formed table -> arrow_columns table = true ->
  mask01 mask -> length mask = numRows table ->
  kept_rows mask (numRows table) <> [] ->
  applyFilterMask table mask =
    take_rows table (kept_rows mask (numRows table)) /\
  fieldNamesOf (applyFilterMask table mask) = fieldNamesOf table /\
  Z.of_nat (numRows (applyFilterMask table mask)) = foldl Z.add 0%Z mask.
Proof.
  intros Hwf _ H01 Hlen Hsome.
  rewrite (applyFilterMask_kept_rows table mask Hwf H01 Hlen Hsome).
  split; [reflexivity|]. split; [apply fieldNamesOf_take_rows|].
  rewrite (mask_sum mask H01), Hlen. f_equal.
  apply numRows_take_rows. intros ->. now apply Hsome.
Qed.

Lemma applyFilterMask_keeps_rows_witness :
  applyFilterMask people [1; 0; 1]%Z =
  [("id", [VNum 1; VNum 3]);
   ("name", [VStr "Alice"; VStr "Charlie"]);
   ("age", [VNum 25; VNull])].
Proof.
  refine (proj1 (applyFilterMask_keeps_rows people [1; 0; 1]%Z _ _ _ _ _)).
  - well_formed_table.
  - reflexivity.
  - repeat (constructor; [first [now left | now right]|]). constructor.
  - reflexivity.
  - discriminate.
Defined.

(** X4.  On a well-formed table whose column names are ordinary keys and
    whose columns each hold one kind of value, a filter whose fields all
    exist and that at least one row satisfies returns the columns of the
    table and, as rows, exactly the rows of the table that satisfy every
    condition of the list, in the order of the table; the step returns
    the schema of the store. *)
Theorem filter_returns_matching_rows (StringToNumber : string -> option Z)
    schema table filters :
  well_formed table -> arrow_columns table = true ->
  fields_exist schema table (AND filters) = true ->
  (exists i, i < numRows table /\
             keeps StringToNumber table (AND filters) i = true) ->
  exists out,
    filter_executor StringToNumber filters schema table = Ok out /\
    res_schema out = Some schema /\
    fieldNamesOf (res_table out) = fieldNamesOf table /\
    toArray (res_table out) =
      List.map (row_of table)
        (List.filter (keeps StringToNumber table (AND filters))
           (seq 0 (numRows table))).
Proof.
  intros Hwf _ Hfields (i & Hi & Hkeep).
  assert (Hsome : List.filter (keeps StringToNumber table (AND filters))
                    (seq 0 (numRows table)) <> []).
  { intros Hnone.
    assert (Hin : In i (List.filter (keeps StringToNumber table (AND filters))
                          (seq 0 (numRows table)))).
    { apply List.filter_In. split; [apply in_seq; lia | exact Hkeep]. }
    now rewrite Hnone in Hin. }
  eexists. split; [now apply filter_executor_rows|].
  cbn [res_schema res_table]. split; [reflexivity|].
  split; [apply fieldNamesOf_take_rows|].
  apply toArray_take_rows. intros ->. cbn in Hi. lia.
Qed.

Lemma filter_returns_matching_rows_witness :
  exists out,
    filter_executor decimal_StringToNumber [NOT age_above_26] people_schema
      people = Ok out /\
    res_schema out = Some people_schema /\
    fieldNamesOf (res_table out) = ["id"; "name"; "age"] /\
    toArray (res_table out) =
      [[("id", VNum 1); ("name", VStr "Alice"); ("age", VNum 25)];
       [("id", VNum 3); ("name", VStr "Charlie"); ("age", VNull)]].
Proof.
  apply (filter_returns_matching_rows decimal_StringToNumber people_schema
           people [NOT age_above_26]).
  - well_formed_table.
  - reflexivity.
  - reflexivity.
  - exists 0. split; [cbn; lia | reflexivity].
Defined.

(** ** The shape of a compiled SQL filter *)


Section SqlShape.

Context (parseFloat : string -> value).

(** What the descent leaves unread does not start with AND. *)
Lemma descent_stops_before_AND fuel :
  (forall expr tokens e rest,
      parseAnd_loop parseFloat fuel expr tokens = Ok (e, rest) ->
      check rest TokenType.AND = false) /\
  (forall tokens e rest,
      parseAnd parseFloat fuel tokens = Ok (e, rest) ->
      check rest TokenType.AND = false) /\
  (forall expr tokens e rest,
      check tokens TokenType.AND = false ->
      parseOr_loop parseFloat fuel expr tokens = Ok (e, rest) ->
      check rest TokenType.AND = false) /\
  (forall tokens e rest,
      parseOr parseFloat fuel tokens = Ok (e, rest) ->
      check rest TokenType.AND = false).
Proof.
  induction fuel as [|fuel (IHal & IHa & IHol & IHo)].
  - repeat split; intros; discriminate.
  - repeat split.
    + intros expr tokens e rest. cbn [parseAnd_loop].
      destruct (check tokens TokenType.AND) eqn:Hcheck.
      * destruct (parseNot parseFloat fuel (tl tokens)) as [[c r]|err];
          cbn [bind fst snd]; [|discriminate].
        apply IHal.
      * now intros [= <- <-].
    + intros tokens e rest. cbn [parseAnd].
      destruct (parseNot parseFloat fuel tokens) as [[c r]|err];
        cbn [bind fst snd]; [|discriminate].
      apply IHal.
    + intros expr tokens e rest Hstart. cbn [parseOr_loop].
      destruct (check tokens TokenType.OR) eqn:Hcheck.
      * destruct (parseAnd parseFloat fuel (tl tokens)) as [[c r]|err] eqn:Hand;
          cbn [bind fst snd]; [|discriminate].
        apply IHol. exact (IHa _ _ _ Hand).
      * now intros [= <- <-].
    + intros tokens e rest. cbn [parseOr].
      destruct (parseAnd parseFloat fuel tokens) as [[c r]|err] eqn:Hand;
        cbn [bind fst snd]; [|discriminate].
      apply IHol. exact (IHa _ _ _ Hand).
Qed.

Lemma parse_loop_shape fuel tokens filters result :
  parse_loop parseFloat fuel tokens filters = Ok result ->
  result = filters /\ isAtEnd tokens = true \/
  exists c, result = filters ++ [c] /\ isAtEnd tokens = false.
Proof.
  destruct fuel as [|fuel]; [discriminate|]. cbn [parse_loop].
  destruct tokens as [|t tokens]; [discriminate|].
  destruct (isAtEnd (t :: tokens)) eqn:Hend.
  - intros [= <-]. now left.
  - destruct (parseOr parseFloat fuel (t :: tokens)) as [[c r]|err] eqn:Hor;
      cbn [bind fst snd]; [|discriminate].
    destruct (descent_stops_before_AND fuel) as (_ & _ & _ & Hstop).
    rewrite (Hstop _ _ _ Hor).
    destruct (negb (isAtEnd r) && negb (check r TokenType.EOF));
      [discriminate|].
    intros [= <-]. right. now exists c.
Qed.

Lemma trimStart_spaces (s : string) :
  all_chars is_space s = true -> trimStart s = EmptyString.
Proof.
  induction s as [|c s IH]; cbn [all_chars trimStart]; [reflexivity|].
  intros [Hc Hs]%andb_true_iff. rewrite Hc. now apply IH.
Qed.

Lemma parseSqlFilter_shape sql filters :
  parseSqlFilter parseFloat sql = Ok filters -> length filters <= 1.
Proof.
  unfold parseSqlFilter.
  destruct (tokenize sql) as [tokens|err]; cbn [bind rewrap]; [|discriminate].
  unfold parse.
  destruct (parse_loop parseFloat _ tokens []) as [fs|err] eqn:Hparse;
    [|discriminate].
  intros [= <-].
  destruct (parse_loop_shape _ _ _ _ Hparse) as [[-> _]|(c & -> & _)];
    cbn; lia.
Qed.

Lemma parseSqlFilter_blank sql :
  all_chars is_space sql = true -> parseSqlFilter parseFloat sql = Ok [].
Proof.
  intros Hblank. unfold parseSqlFilter, tokenize, trim.
  now rewrite (trimStart_spaces _ Hblank).
Qed.

End SqlShape.

Section Flattening.

Context (StringToNumber : string -> option Z).

Lemma forallb_snoc {A} (f : A -> bool) l x :
  forallb f (l ++ [x]) = forallb f l && f x.
Proof. rewrite forallb_app. cbn. now rewrite andb_true_r. Qed.

Lemma existsb_snoc {A} (f : A -> bool) l x :
  existsb f (l ++ [x]) = existsb f l || f x.
Proof. rewrite existsb_app. cbn. now rewrite orb_false_r. Qed.

Lemma createAndFilter_keeps table left right i :
  keeps StringToNumber table (createAndFilter left right) i =
  keeps StringToNumber table (AND [left; right]) i.
Proof.
  destruct left; cbn [createAndFilter keeps forallb];
    rewrite ?andb_true_r; try reflexivity.
  now rewrite forallb_snoc.
Qed.

Lemma createOrFilter_keeps table left right i :
  keeps StringToNumber table (createOrFilter left right) i =
  keeps StringToNumber table (OR [left; right]) i.
Proof.
  destruct left; cbn [createOrFilter keeps existsb];
    rewrite ?orb_false_r; try reflexivity.
  now rewrite existsb_snoc.
Qed.

Lemma createAndFilter_fields schema table left right :
  fields_exist schema table (createAndFilter left right) =
  fields_exist schema table (AND [left; right]).
Proof.
  destruct left; cbn [createAndFilter fields_exist forallb];
    rewrite ?andb_true_r; try reflexivity.
  now rewrite forallb_snoc.
Qed.

Lemma createOrFilter_fields schema table left right :
  fields_exist schema table (createOrFilter left right) =
  fields_exist schema table (OR [left; right]).
Proof.
  destruct left; cbn [createOrFilter fields_exist forallb];
    rewrite ?andb_true_r; try reflexivity.
  now rewrite forallb_snoc.
Qed.


End Flattening.

Section FilterSqlProofs.

Context (parseFloat : string -> value).
Context (StringToNumber : string -> option Z).


End FilterSqlProofs.

(** X5.  A SQL filter text compiles to at most one condition: whenever
    [parseSqlFilter] returns, the list it returns is empty or has one
    element, the conjunctions of the text being folded into one [AND]
    node; and a text made of white space compiles to the empty list of
    conditions. *)
Theorem sql_compiles_to_one_condition (parseFloat : string -> value)
    (sql : string) :
  (forall filters,
      parseSqlFilter parseFloat sql = Ok filters -> length filters <= 1) /\
  (all_chars is_space sql = true -> parseSqlFilter parseFloat sql = Ok []).
Proof.
  split.
  - intros filters. apply parseSqlFilter_shape.
  - apply parseSqlFilter_blank.
Qed.

Lemma sql_compiles_to_one_condition_witness :
  (exists filters,
      parseSqlFilter integer_parseFloat "age > 26 AND id = 1 AND name = 'Bob'"
        = Ok filters /\ length filters <= 1) /\
  parseSqlFilter integer_parseFloat "   " = Ok [].
Proof.
  split.
  - eexists. split; [vm_compute; reflexivity|].
    apply (proj1 (sql_compiles_to_one_condition integer_parseFloat
                    "age > 26 AND id = 1 AND name = 'Bob'")).
    vm_compute. reflexivity.
  - apply (proj2 (sql_compiles_to_one_condition integer_parseFloat "   ")).
    reflexivity.
Defined.

(** X6.  The flattening done by [createAndFilter] and [createOrFilter]
    does not change the rows kept: for conditions whose fields exist, the
    evaluator computes for [createAndFilter left right] the mask of
    [AND [left; right]] and for [createOrFilter left right] the mask of
    [OR [left; right]], from any mask of zeros and ones over the rows. *)
Theorem flattening_keeps_meaning (StringToNumber : string -> option Z)
    schema table left right (mask : Mask) :
  fields_exist schema table left = true ->
  fields_exist schema table right = true ->
  mask01 mask -> length mask = numRows table ->
  evaluateFilterCondition StringToNumber schema table
    (createAndFilter left right) mask =
  evaluateFilterCondition StringToNumber schema table
    (AND [left; right]) mask /\
  evaluateFilterCondition StringToNumber schema table
    (createOrFilter left right) mask =
  evaluateFilterCondition StringToNumber schema table
    (OR [left; right]) mask.
Proof.
  intros Hleft Hright H01 Hlen.
  assert (Hand : fields_exist schema table (AND [left; right]) = true)
    by (cbn [fields_exist forallb]; now rewrite Hleft, Hright).
  assert (Hor : fields_exist schema table (OR [left; right]) = true)
    by (cbn [fields_exist forallb]; now rewrite Hleft, Hright).
  split.
  - rewrite !evaluateFilterCondition_select;
      rewrite ?createAndFilter_fields; try assumption.
    f_equal. apply select_ext. intros i _. apply createAndFilter_keeps.
  - rewrite !evaluateFilterCondition_select;
      rewrite ?createOrFilter_fields; try assumption.
    f_equal. apply select_ext. intros i _. apply createOrFilter_keeps.
Qed.

Lemma flattening_keeps_meaning_witness :
  let left := AND [name_is_null; NOT name_is_null] in
  let left' := OR [name_is_null; age_above_26] in
  evaluateFilterCondition decimal_StringToNumber people_schema people
    (createAndFilter left age_above_26) [1; 1; 1]%Z =
  evaluateFilterCondition decimal_StringToNumber people_schema people
    (AND [left; age_above_26]) [1; 1; 1]%Z /\
  evaluateFilterCondition decimal_StringToNumber people_schema people
    (createOrFilter left' (NOT age_above_26)) [1; 1; 1]%Z =
  evaluateFilterCondition decimal_StringToNumber people_schema people
    (OR [left'; NOT age_above_26]) [1; 1; 1]%Z.
Proof.
  split.
  - refine (proj1 (flattening_keeps_meaning decimal_StringToNumber
                     people_schema people
                     (AND [name_is_null; NOT name_is_null]) age_above_26
                     [1; 1; 1]%Z _ _ _ _));
      try reflexivity.
    repeat (constructor; [now right|]). constructor.
  - refine (proj2 (flattening_keeps_meaning decimal_StringToNumber
                     people_schema people
                     (OR [name_is_null; age_above_26]) (NOT age_above_26)
                     [1; 1; 1]%Z _ _ _ _));
      try reflexivity.
    repeat (constructor; [now right|]). constructor.
Defined.

(** X7.  [filterSql] does its checks when it is called, not when the
    table is resolved.  On a store, it raises the error of the compiler
    under the context "Invalid SQL filter: "; or the query refers to a
    field that the schema of the store does not have, and it raises the
    missing-field error under that context, no store being created; or
    the query compiled to at most one condition, all of whose fields are
    in the schema, and the store returned is the one [filter] returns for
    the compiled conditions. *)
Theorem filterSql_validates_eagerly (parseFloat : string -> value)
    (StringToNumber : string -> option Z) h this store sql :
  h !! this = Some store ->
  (exists e, parseSqlFilter parseFloat sql = Err e /\
             filterSql parseFloat StringToNumber h this sql =
             Err ("Invalid SQL filter: " +:+ e)) \/
  (exists filters f,
      parseSqlFilter parseFloat sql = Ok filters /\
      In f (flat_map referenced_fields filters) /\
      in_schema (schema_ store) f = false /\
      filterSql parseFloat StringToNumber h this sql =
      Err ("Invalid SQL filter: " +:+ field_not_found (schema_ store) f)) \/
  (exists filters,
      parseSqlFilter parseFloat sql = Ok filters /\
      length filters <= 1 /\
      Forall (fun f => in_schema (schema_ store) f = true)
        (flat_map referenced_fields filters) /\
      filterSql parseFloat StringToNumber h this sql =
      Ok (filter_ StringToNumber h this filters)).
Proof.
  intros Hstore. unfold filterSql. rewrite Hstore.
  destruct (parseSqlFilter parseFloat sql) as [filters|e] eqn:Hparse;
    cbn [bind rewrap].
  - right.
    destruct (validateFilterFields_cases (schema_ store) filters)
      as [[Hok Hall]|(f & Hin & Habs & Herr)].
    + right. exists filters. rewrite Hok. cbn [bind].
      repeat split; try assumption.
      exact (parseSqlFilter_shape _ _ _ Hparse).
    + left. exists filters, f. rewrite Herr. cbn [bind].
      repeat split; assumption.
  - left. exists e. split; reflexivity.
Qed.

Lemma filterSql_validates_eagerly_witness :
  let filterSql := filterSql integer_parseFloat decimal_StringToNumber in
  let sql := "salary > 10" in
  (exists e, parseSqlFilter integer_parseFloat sql = Err e /\
             filterSql people_heap 0 sql =
             Err ("Invalid SQL filter: " +:+ e)) \/
  (exists filters f,
      parseSqlFilter integer_parseFloat sql = Ok filters /\
      In f (flat_map referenced_fields filters) /\
      in_schema people_schema f = false /\
      filterSql people_heap 0 sql =
      Err ("Invalid SQL filter: " +:+ field_not_found people_schema f)) \/
  (exists filters,
      parseSqlFilter integer_parseFloat sql = Ok filters /\
      length filters <= 1 /\
      Forall (fun f => in_schema people_schema f = true)
        (flat_map referenced_fields filters) /\
      filterSql people_heap 0 sql =
      Ok (filter_ decimal_StringToNumber people_heap 0 filters)).
Proof.
  exact (filterSql_validates_eagerly integer_parseFloat
           decimal_StringToNumber people_heap 0 _ "salary > 10" eq_refl).
Defined.

(** ** Reductions visit every row once *)


Lemma get_slice (vector : Vector) start stop j :
  j < stop - start -> get (slice vector start stop) j = get vector (start + j).
Proof.
  intros Hj. unfold get, slice.
  rewrite !nth_lookup, lookup_take_lt, lookup_drop by lia. reflexivity.
Qed.

Lemma numRows_table_slice table start stop :
  stop <= numRows table ->
  numRows (table_slice table start stop) = stop - start.
Proof.
  destruct table as [|[f vector] table]; cbn.
  - lia.
  - intros Hstop. unfold slice. rewrite length_take, length_drop. lia.
Qed.

Lemma seq_offset start len :
  seq start len = List.map (fun j => start + j) (seq 0 len).
Proof. rewrite map_fmap, fmap_add_seq. f_equal. lia. Qed.

(** The rows of a slice are the rows of the table between its bounds. *)
Lemma toArray_table_slice table start stop :
  stop <= numRows table ->
  toArray (table_slice table start stop) =
  List.map (row_of table) (seq start (stop - start)).
Proof.
  intros Hstop. unfold toArray.
  rewrite numRows_table_slice by assumption.
  rewrite (seq_offset start), List.map_map.
  apply List.map_ext_in. intros j Hj%in_seq.
  unfold table_slice, row_of. rewrite List.map_map.
  apply List.map_ext. intros [f vector]. f_equal.
  apply get_slice. lia.
Qed.

Lemma foldl_concat {A B} (f : A -> B -> A) (a : A) (ls : list (list B)) :
  foldl f a (concat ls) = foldl (fun a l => foldl f a l) a ls.
Proof.
  revert a. induction ls as [|l ls IH]; intros a; cbn [concat foldl];
    [reflexivity|].
  now rewrite foldl_app, IH.
Qed.

Section ReduceProofs.

Context {R : Type}.
Context (reducer : R -> Row -> nat -> result R).

Lemma foldl_Err {B} (f : R -> B -> result R) e (l : list B) :
  foldl (fun acc x => let* result := acc in f result x) (Err e) l = Err e.
Proof. induction l as [|x l IH]; cbn [foldl bind]; [reflexivity|exact IH]. Qed.

(** The inner loop over a batch is the reducer applied to the rows of the
    batch, with their indices in the table. *)
Lemma reduce_batch table start rows (acc : result R) :
  foldl (fun acc '(j, row) =>
           let* result := acc in
           reducer result row (start + j))
    acc
    (combine (seq 0 (length (List.map (row_of table) rows)))
       (List.map (row_of table) rows)) =
  foldl (fun acc '(j, i) =>
           let* result := acc in
           reducer result (row_of table i) (start + j))
    acc (combine (seq 0 (length rows)) rows).
Proof.
  rewrite length_map. generalize 0.
  revert acc. induction rows as [|i rows IH]; intros acc s;
    cbn [length seq List.map combine foldl]; [reflexivity|].
  apply IH.
Qed.

Lemma reduce_run table start len (acc : result R) :
  foldl (fun acc '(j, i) =>
           let* result := acc in
           reducer result (row_of table i) (start + j))
    acc (combine (seq 0 len) (seq start len)) =
  foldl (reduce_step reducer table) acc (seq start len).
Proof.
  rewrite (seq_offset start len).
  generalize (seq 0 len). intros l. revert acc.
  induction l as [|j l IH]; intros acc; cbn [List.map combine foldl];
    [reflexivity|].
  apply IH.
Qed.

End ReduceProofs.

Section ReduceTheorems.

Context {R : Type}.
Context (reducer : R -> Row -> nat -> result R).

Lemma reduce_rows_fold (initialValue : R) table :
  reduce_rows reducer initialValue table =
  foldl (reduce_step reducer table) (Ok initialValue)
    (seq 0 (numRows table)).
Proof.
  unfold reduce_rows.
  destruct (Nat.eqb_spec (numRows table) 0) as [->|Hrows]; [reflexivity|].
  cbv zeta.
  assert (Hsize : 0 < 10000) by (apply Nat.ltb_lt; reflexivity).
  rewrite <- (batched_indices_seq (numRows table) 10000 Hsize). clear Hsize.
  unfold batched_indices, batches. rewrite foldl_concat.
  generalize (batch_starts (numRows table) 0 (numRows table) 10000).
  intros starts. generalize (Ok initialValue).
  induction starts as [|i starts IH]; intros acc; cbn [List.map foldl];
    [reflexivity|].
  rewrite <- IH. f_equal.
  destruct acc as [result|e]; cbn [bind].
  - rewrite toArray_table_slice by lia.
    rewrite reduce_batch, length_seq. apply reduce_run.
  - generalize (seq i (Nat.min (i + 10000) (numRows table) - i)).
    intros l. induction l as [|x l IHl]; [reflexivity|exact IHl].
Qed.

End ReduceTheorems.

Lemma foldl_map {A B C} (g : A -> C -> A) (h : B -> C) (a : A) (l : list B) :
  foldl g a (List.map h l) = foldl (fun a x => g a (h x)) a l.
Proof.
  revert a. induction l as [|x l IH]; intros a; cbn [List.map foldl];
    [reflexivity | apply IH].
Qed.

Lemma combine_seq_indexed {A} (f : nat -> A) start len :
  combine (seq 0 len) (List.map f (seq start len)) =
  List.map (fun j => (j, f (start + j))) (seq 0 len).
Proof.
  rewrite (seq_offset start len), List.map_map.
  generalize (seq 0 len). intros l.
  induction l as [|j l IH]; cbn [List.map combine]; [reflexivity|].
  now rewrite IH.
Qed.

(** The batches of [reduceRight] hold the rows from the last to the
    first. *)
Lemma concat_batch_ends (fuel : nat) (i batchSize : Z) :
  (0 < batchSize)%Z -> Z.to_nat (i + 1) <= fuel ->
  concat (List.map (fun i =>
                      let start := Z.to_nat (Z.max 0 (i - batchSize + 1)) in
                      rev (seq start (Z.to_nat (i + 1) - start)))
            (batch_ends fuel i batchSize)) =
  rev (seq 0 (Z.to_nat (i + 1))).
Proof.
  intros Hsize. revert i.
  induction fuel as [|fuel IH]; intros i Hfuel; cbn [batch_ends].
  - replace (Z.to_nat (i + 1)) with 0 by lia. reflexivity.
  - destruct (Z.leb_spec 0 i) as [Hi|Hi].
    + cbn [List.map concat]. rewrite IH by lia. cbv zeta.
      replace (Z.to_nat (Z.max 0 (i - batchSize + 1)))
        with (Z.to_nat (i - batchSize + 1)) by lia.
      set (start := Z.to_nat (i - batchSize + 1)).
      replace (Z.to_nat (i + 1)) with (start + (Z.to_nat (i + 1) - start))
        at 2 by lia.
      rewrite seq_app, rev_app_distr. reflexivity.
    + replace (Z.to_nat (i + 1)) with 0 by lia. reflexivity.
Qed.

Lemma batch_ends_bound (fuel : nat) (i batchSize n : Z) :
  (0 < batchSize)%Z -> (i < n)%Z ->
  Forall (fun k => (k < n)%Z) (batch_ends fuel i batchSize).
Proof.
  intros Hsize. revert i.
  induction fuel as [|fuel IH]; intros i Hi; cbn [batch_ends];
    [constructor|].
  destruct (0 <=? i)%Z; constructor; [exact Hi | apply IH; lia].
Qed.

Section ReduceRightTheorems.

Context {R : Type}.
Context (reducer : R -> Row -> nat -> result R).

Lemma reduceRight_rows_fold (initialValue : R) table :
  reduceRight_rows reducer initialValue table =
  foldl (reduce_step reducer table) (Ok initialValue)
    (rev (seq 0 (numRows table))).
Proof.
  unfold reduceRight_rows.
  destruct (Nat.eqb_spec (numRows table) 0) as [->|Hrows]; [reflexivity|].
  cbv zeta.
  assert (Hsize : (0 < 10000)%Z) by reflexivity.
  transitivity
    (foldl (reduce_step reducer table) (Ok initialValue)
       (rev (seq 0 (Z.to_nat (Z.of_nat (numRows table) - 1 + 1)))));
    [|do 3 f_equal; lia].
  rewrite <- (concat_batch_ends (numRows table) _ 10000 Hsize) by lia.
  rewrite foldl_concat, foldl_map.
  pose proof (batch_ends_bound (numRows table)
                (Z.of_nat (numRows table) - 1) 10000
                (Z.of_nat (numRows table)) Hsize ltac:(lia)) as Hbound.
  revert Hbound.
  generalize (batch_ends (numRows table) (Z.of_nat (numRows table) - 1) 10000).
  intros ends. generalize (Ok initialValue).
  induction ends as [|i ends IH]; intros acc Hbound; cbn [foldl];
    [reflexivity|].
  inversion_clear Hbound as [|? ? Hi Hends].
  rewrite <- (IH _ Hends). f_equal.
  destruct acc as [result|e]; cbn [bind].
  - cbv zeta. set (start := Z.to_nat (Z.max 0 (i - 10000 + 1))).
    rewrite toArray_table_slice by lia.
    rewrite length_map, length_seq, combine_seq_indexed.
    rewrite <- List.map_rev, foldl_map.
    rewrite (seq_offset start), <- List.map_rev, foldl_map.
    reflexivity.
  - generalize (rev (seq (Z.to_nat (Z.max 0 (i - 10000 + 1)))
                       (Z.to_nat (i + 1)
                        - Z.to_nat (Z.max 0 (i - 10000 + 1))))).
    intros l. induction l as [|x l IHl]; [reflexivity|exact IHl].
Qed.

End ReduceRightTheorems.

(** X8.  [reduce] is the left fold of the reducer over the rows of the
    resolved table: every row is visited once, from the first to the
    last, with its index in the table, whatever the batches; a table
    without rows gives the initial value; an error of the reducer, or of
    the resolution, is raised under the context of the operation. *)
Theorem reduce_is_left_fold {R : Type}
    (reducer : R -> Row -> nat -> result R) h this (initialValue : R) :
  reduce reducer h this initialValue =
  (fst (resolveTable h this),
   rewrap "Error in reduce operation: "
     (let* table := snd (resolveTable h this) in
      foldl (reduce_step reducer table) (Ok initialValue)
        (seq 0 (numRows table)))).
Proof.
  unfold reduce. destruct (resolveTable h this) as [h' [table|e]];
    cbn [fst snd bind]; [|reflexivity].
  now rewrite reduce_rows_fold.
Qed.

(** X9.  [reduceRight] is the fold of the reducer over the rows of the
    resolved table from the last to the first: every row is visited
    once, with its index in the table, whatever the batches. *)
Theorem reduceRight_is_right_fold {R : Type}
    (reducer : R -> Row -> nat -> result R) h this (initialValue : R) :
  reduceRight reducer h this initialValue =
  (fst (resolveTable h this),
   rewrap "Error in reduceRight operation: "
     (let* table := snd (resolveTable h this) in
      foldl (reduce_step reducer table) (Ok initialValue)
        (rev (seq 0 (numRows table))))).
Proof.
  unfold reduceRight. destruct (resolveTable h this) as [h' [table|e]];
    cbn [fst snd bind]; [|reflexivity].
  now rewrite reduceRight_rows_fold.
Qed.

(** ** Rows turned into columns, and back *)


Lemma obj_get_entry {A} (pre suf : list (string * A)) k a :
  ~ In k (List.map fst pre) -> obj_get (pre ++ (k, a) :: suf) k = Some a.
Proof.
  intros Hfresh. rewrite obj_get_app_fresh by assumption.
  cbn [obj_get]. now rewrite String.eqb_refl.
Qed.

Lemma obj_set_entry {A} (pre suf : list (string * A)) k a b :
  ~ In k (List.map fst pre) ->
  obj_set (pre ++ (k, a) :: suf) k b = pre ++ (k, b) :: suf.
Proof.
  intros Hfresh. rewrite obj_set_app_fresh by assumption.
  cbn [obj_set]. now rewrite String.eqb_refl.
Qed.

Lemma NoDup_app_fresh {A} (pre : list (string * A)) k a suf :
  NoDup (List.map fst (pre ++ (k, a) :: suf)) -> ~ In k (List.map fst pre).
Proof.
  rewrite List.map_app. cbn [List.map fst].
  intros (_ & Hdisj & _)%NoDup_app Hin.
  apply (Hdisj k); [now apply list_elem_of_In|]. apply list_elem_of_In.
  now left.
Qed.

(** The property [k] of a row whose keys are distinct is the value of
    its entry [k]. *)
Lemma prop_entry (row : Row) k v :
  NoDup (List.map fst row) -> In (k, v) row -> prop row k = v.
Proof.
  intros Hnodup Hin. apply in_split in Hin as (pre & suf & ->).
  unfold prop. rewrite obj_get_entry; [reflexivity|].
  now apply NoDup_app_fresh in Hnodup.
Qed.

Lemma entries_of_props (row : Row) :
  NoDup (List.map fst row) ->
  List.map (fun k => (k, prop row k)) (List.map fst row) = row.
Proof.
  intros Hnodup. rewrite List.map_map.
  rewrite <- (List.map_id row) at 2.
  apply List.map_ext_in. intros [k v] Hin. cbn [fst].
  now rewrite (prop_entry row k v).
Qed.

(** Pushing the entries of a row whose keys are the keys of the columns
    extends every column by one cell. *)
Lemma push_row (col : string -> list value) (suf pre : Row) :
  NoDup (List.map fst (pre ++ suf)) ->
  foldl (fun acc '(key, v) =>
           let* r := acc in
           match push_cell r key v with
           | Some r' => Ok r'
           | None => Err (TypeError_read VUndefined "push")
           end)
    (Ok (List.map (fun '(k, a) => (k, col k ++ [a])) pre
         ++ List.map (fun '(k, _) => (k, col k)) suf))
    suf =
  Ok (List.map (fun '(k, a) => (k, col k ++ [a])) (pre ++ suf)).
Proof.
  revert pre. induction suf as [|[k a] suf IH]; intros pre Hnodup;
    cbn [foldl List.map].
  - now rewrite !app_nil_r.
  - assert (Hfresh : ~ In k (List.map fst
                              (List.map (fun '(k, a) => (k, col k ++ [a]))
                                 pre))).
    { rewrite List.map_map.
      rewrite (List.map_ext _ fst) by now intros [k' a'].
      now apply NoDup_app_fresh in Hnodup. }
    cbn [bind]. unfold push_cell.
    rewrite obj_get_entry, obj_set_entry by assumption.
    replace (pre ++ (k, a) :: suf) with ((pre ++ [(k, a)]) ++ suf) in *
      by now rewrite <- app_assoc.
    rewrite <- (IH (pre ++ [(k, a)]) Hnodup).
    rewrite List.map_app. cbn [List.map]. now rewrite <- app_assoc.
Qed.

Lemma columns_of_snoc keys rows row :
  NoDup keys -> List.map fst row = keys ->
  List.map (fun '(k, a) =>
              (k, List.map (fun r => prop r k) rows ++ [a])) row =
  columns_of keys (rows ++ [row]).
Proof.
  intros Hnodup Hkeys. unfold columns_of. rewrite <- Hkeys, List.map_map.
  apply List.map_ext_in. intros [k a] Hin. cbn [fst].
  rewrite List.map_app. cbn [List.map].
  rewrite (prop_entry row k a); [reflexivity| |exact Hin].
  now rewrite Hkeys.
Qed.

Lemma push_rows keys (rows done : list Row) :
  NoDup keys -> uniform_rows keys rows ->
  foldl (fun acc row =>
           foldl (fun acc '(key, v) =>
                    let* r := acc in
                    match push_cell r key v with
                    | Some r' => Ok r'
                    | None => Err (TypeError_read VUndefined "push")
                    end)
             acc row)
    (Ok (columns_of keys done)) rows =
  Ok (columns_of keys (done ++ rows)).
Proof.
  intros Hnodup Hrows. revert done.
  induction Hrows as [|row rows Hrow _ IH]; intros done; cbn [foldl].
  - now rewrite app_nil_r.
  - pose (col := fun k : string => List.map (fun r : Row => prop r k) done).
    replace (columns_of keys done)
      with (List.map (fun '(k, a) => (k, col k ++ [a])) []
            ++ List.map (fun '(k, _) => (k, col k)) row).
    2: { unfold columns_of. rewrite <- Hrow, List.map_map. cbn [app List.map].
         apply List.map_ext. now intros [k a]. }
    rewrite (push_row col row []) by (cbn [app]; now rewrite Hrow).
    cbn [app]. unfold col.
    rewrite (columns_of_snoc keys done row Hnodup Hrow).
    rewrite IH. now rewrite <- app_assoc.
Qed.

(** Rows with the same distinct keys are turned into one column per key,
    holding the cells of the rows in order. *)
Lemma arrayToColumnarFormat_uniform keys rows :
  NoDup keys -> uniform_rows keys rows -> rows <> [] ->
  arrayToColumnarFormat rows = Ok (columns_of keys rows).
Proof.
  intros Hnodup Hrows Hsome. unfold arrayToColumnarFormat.
  destruct rows as [|firstRow rows]; [contradiction|].
  pose proof (Forall_inv Hrows) as Hfirst. cbn beta in Hfirst.
  rewrite Hfirst.
  rewrite (init_columns [] keys []) by exact Hnodup. cbn [app].
  change (List.map (fun n => (n, [])) keys) with (columns_of keys []).
  now rewrite (push_rows keys (firstRow :: rows) [] Hnodup Hrows).
Qed.

Lemma map_nth_seq {A B} (F : A -> B) (l : list A) d :
  List.map (fun j => F (nth j l d)) (seq 0 (length l)) = List.map F l.
Proof.
  rewrite <- (List.map_map (fun j => nth j l d) F). f_equal.
  induction l as [|x l IH]; [reflexivity|].
  cbn [length seq List.map]. f_equal.
  rewrite <- seq_shift, List.map_map. exact IH.
Qed.

Lemma numRows_columns_of keys rows :
  keys <> [] -> numRows (tableFromArrays (columns_of keys rows)) = length rows.
Proof.
  destruct keys as [|k keys]; [contradiction|]. intros _. cbn.
  now rewrite !length_map.
Qed.

Lemma fieldNamesOf_columns_of keys rows :
  fieldNamesOf (tableFromArrays (columns_of keys rows)) = keys.
Proof.
  unfold fieldNamesOf, tableFromArrays, columns_of.
  rewrite !List.map_map. cbn [fst]. apply List.map_id.
Qed.

(** The rows of the table built from the columns of uniform rows are
    those rows, as stored. *)
Lemma toArray_columns_of keys rows :
  keys <> [] ->
  toArray (tableFromArrays (columns_of keys rows)) =
  List.map (fun row => List.map (fun k => (k, stored (prop row k))) keys) rows.
Proof.
  intros Hkeys. unfold toArray. rewrite numRows_columns_of by assumption.
  rewrite <- (map_nth_seq
                (fun row => List.map (fun k => (k, stored (prop row k))) keys)
                rows []).
  apply List.map_ext_in. intros j Hj%in_seq.
  unfold tableFromArrays, columns_of. rewrite !List.map_map.
  apply List.map_ext. intros k. f_equal. rewrite List.map_map.
  unfold get.
  rewrite (nth_indep _ VNull (stored (prop [] k)))
    by (rewrite length_map; lia).
  now rewrite (List.map_nth (fun row => stored (prop row k))).
Qed.

Lemma stored_defined v : v <> VUndefined -> stored v = v.
Proof. now destruct v. Qed.

Lemma rows_round_trip keys rows :
  NoDup keys -> keys <> [] -> uniform_rows keys rows ->
  Forall (fun row => Forall (fun entry => snd entry <> VUndefined) row) rows ->
  toArray (tableFromArrays (columns_of keys rows)) = rows.
Proof.
  intros Hnodup Hkeys Hrows Hcells.
  rewrite toArray_columns_of by assumption.
  rewrite <- (List.map_id rows) at 2.
  apply List.map_ext_in. intros row Hin.
  unfold uniform_rows in Hrows.
  rewrite List.Forall_forall in Hrows, Hcells.
  specialize (Hrows row Hin). specialize (Hcells row Hin).
  subst keys.
  etransitivity; [|exact (entries_of_props row Hnodup)].
  apply List.map_ext_in. intros k Hk. f_equal.
  apply stored_defined.
  apply in_map_iff in Hk as ([k' v] & <- & Hentry). cbn [fst].
  rewrite (prop_entry row k' v Hnodup Hentry).
  rewrite List.Forall_forall in Hcells. exact (Hcells _ Hentry).
Qed.

Lemma set_fresh_all {A} (f : string -> A) (ks : list string)
    (acc : list (string * A)) :
  NoDup (List.map fst acc ++ ks) ->
  foldl (fun o k => obj_set o k (f k)) acc ks =
  acc ++ List.map (fun k => (k, f k)) ks.
Proof.
  revert acc. induction ks as [|k ks IH]; intros acc Hnodup;
    cbn [foldl List.map].
  - now rewrite app_nil_r.
  - assert (Hfresh : ~ In k (List.map fst acc)).
    { apply NoDup_app in Hnodup as (_ & Hdisj & _).
      intros Hin. apply (Hdisj k); [now apply list_elem_of_In|].
      apply list_elem_of_In. now left. }
    replace (obj_set acc k (f k)) with (acc ++ [(k, f k)]).
    2: { rewrite <- (app_nil_r acc) at 2.
         now rewrite obj_set_app_fresh by assumption. }
    rewrite IH.
    + now rewrite <- app_assoc.
    + rewrite List.map_app. cbn [List.map fst]. now rewrite <- app_assoc.
Qed.

Lemma length_flat_map_map {A B C} (g : A -> B -> C) (l : list A)
    (cs : list B) :
  length (flat_map (fun x => List.map (g x) cs) l) = length l * length cs.
Proof.
  induction l as [|x l IH]; cbn [flat_map length]; [reflexivity|].
  rewrite length_app, IH, length_map. lia.
Qed.

Section Unpivot.

Context (options : UnpivotOptions).

#[local] Abbreviation keys :=
  (identifierColumns options ++ [nameColumn options; valueColumn options]).

(** The row that the loops build, before it is stored. *)
Lemma unpivot_newRow row valueCol :
  NoDup keys ->
  obj_set
    (obj_set
       (foldl (fun newRow idCol => obj_set newRow idCol (prop row idCol))
          [] (identifierColumns options))
       (nameColumn options) (VStr valueCol))
    (valueColumn options) (prop row valueCol) =
  List.map (fun idCol => (idCol, prop row idCol)) (identifierColumns options)
  ++ [(nameColumn options, VStr valueCol);
      (valueColumn options, prop row valueCol)].
Proof.
  intros Hnodup.
  assert (Hids : NoDup (identifierColumns options))
    by now apply NoDup_app in Hnodup as (? & _ & _).
  assert (Hname : ~ In (nameColumn options) (identifierColumns options)).
  { apply NoDup_app in Hnodup as (_ & Hdisj & _). intros Hin.
    apply (Hdisj (nameColumn options)); [now apply list_elem_of_In|].
    apply list_elem_of_In. now left. }
  assert (Hvalue : ~ In (valueColumn options) (identifierColumns options)).
  { apply NoDup_app in Hnodup as (_ & Hdisj & _). intros Hin.
    apply (Hdisj (valueColumn options)); [now apply list_elem_of_In|].
    apply list_elem_of_In. right. now left. }
  assert (Hdiff : nameColumn options <> valueColumn options).
  { apply NoDup_app in Hnodup as (_ & _ & Hlast).
    apply NoDup_cons in Hlast as [Hnot _]. intros Heq. apply Hnot.
    rewrite Heq. apply list_elem_of_In. now left. }
  rewrite (set_fresh_all (prop row) _ []) by exact Hids. cbn [app].
  set (ids := List.map (fun k => (k, prop row k)) (identifierColumns options)).
  assert (Hkeys : List.map fst ids = identifierColumns options).
  { unfold ids. rewrite List.map_map. apply List.map_id. }
  assert (Hstep : forall (o : Row) k v,
             ~ In k (List.map fst o) -> obj_set o k v = o ++ [(k, v)]).
  { intros o k v Hfresh. rewrite <- (app_nil_r o) at 1.
    now rewrite obj_set_app_fresh. }
  rewrite (Hstep ids) by now rewrite Hkeys.
  rewrite Hstep; [now rewrite <- app_assoc|].
  rewrite List.map_app, Hkeys. cbn [List.map fst].
  intros [Hin|[Heq|[]]]%in_app_or; [contradiction|contradiction].
Qed.

Lemma unpivot_rows_raw rows :
  NoDup keys ->
  unpivot_rows rows options =
  flat_map (fun row =>
              List.map (fun valueCol =>
                          List.map (fun idCol => (idCol, prop row idCol))
                            (identifierColumns options)
                          ++ [(nameColumn options, VStr valueCol);
                              (valueColumn options, prop row valueCol)])
                (valueColumns options))
    rows.
Proof.
  intros Hnodup. unfold unpivot_rows.
  induction rows as [|row rows IH]; cbn [flat_map]; [reflexivity|].
  rewrite IH. f_equal. apply List.map_ext. intros valueCol.
  now apply unpivot_newRow.
Qed.

Lemma unpivot_rows_uniform rows :
  NoDup keys -> uniform_rows keys (unpivot_rows rows options).
Proof.
  intros Hnodup. rewrite unpivot_rows_raw by assumption.
  unfold uniform_rows. apply List.Forall_forall.
  intros newRow (row & _ & (valueCol & <- & _)%in_map_iff)%in_flat_map.
  rewrite List.map_app, List.map_map. cbn [List.map fst].
  now rewrite List.map_id.
Qed.

Lemma stored_unpivoted_row row valueCol :
  NoDup keys ->
  List.map (fun k =>
              (k, stored
                    (prop (List.map (fun idCol => (idCol, prop row idCol))
                             (identifierColumns options)
                           ++ [(nameColumn options, VStr valueCol);
                               (valueColumn options, prop row valueCol)])
                       k)))
    keys =
  unpivoted_row options row valueCol.
Proof.
  intros Hnodup.
  set (raw := List.map (fun idCol => (idCol, prop row idCol))
                (identifierColumns options)
              ++ [(nameColumn options, VStr valueCol);
                  (valueColumn options, prop row valueCol)]).
  assert (Hkeys : List.map fst raw = keys).
  { unfold raw. rewrite List.map_app, List.map_map. cbn [List.map fst].
    now rewrite List.map_id. }
  assert (Hraw : NoDup (List.map fst raw)) by now rewrite Hkeys.
  assert (Hprop : forall k v, In (k, v) raw -> prop raw k = v)
    by (intros k v; now apply prop_entry).
  unfold unpivoted_row. rewrite List.map_app. cbn [List.map]. f_equal.
  - apply List.map_ext_in. intros k Hk. f_equal. f_equal.
    apply Hprop. unfold raw. apply in_or_app. left.
    apply in_map_iff. now exists k.
  - rewrite (Hprop (nameColumn options) (VStr valueCol)),
      (Hprop (valueColumn options) (prop row valueCol)); [reflexivity| |];
      unfold raw; apply in_or_app; right; [right|]; now left.
Qed.

Lemma unpivot_result table schema :
  NoDup keys -> 0 < numRows table -> valueColumns options <> [] ->
  exists out newSchema,
    unpivot table schema options = Ok (out, newSchema) /\
    fieldNamesOf out = keys /\
    List.map name (columns newSchema) = keys /\
    numRows out = numRows table * length (valueColumns options) /\
    toArray out =
      flat_map (fun row =>
                  List.map (unpivoted_row options row) (valueColumns options))
        (toArray table).
Proof.
  intros Hnodup Hrows Hvalues. unfold unpivot.
  assert (Hkeys : keys <> []) by now destruct (identifierColumns options).
  assert (Hsome : unpivot_rows (toArray table) options <> []).
  { unfold toArray. destruct (numRows table) as [|n]; [lia|].
    cbn [seq List.map unpivot_rows flat_map].
    destruct (valueColumns options); [contradiction|discriminate]. }
  rewrite (arrayToColumnarFormat_uniform keys)
    by (try apply unpivot_rows_uniform; assumption).
  cbn [bind rewrap]. eexists _, _. split; [reflexivity|].
  split; [apply fieldNamesOf_columns_of|]. split.
  { cbn [columns]. rewrite List.map_app. cbn [List.map name]. f_equal.
    rewrite List.map_map. rewrite <- (List.map_id (identifierColumns options))
      at 2.
    apply List.map_ext. intros colName. unfold find_column.
    destruct (List.find _ (columns schema)) as [col|] eqn:Hfind;
      [|reflexivity].
    apply List.find_some in Hfind as [_ Heq]. now apply String.eqb_eq. }
  split.
  { rewrite numRows_columns_of by assumption.
    rewrite unpivot_rows_raw by assumption.
    rewrite length_flat_map_map. unfold toArray.
    now rewrite length_map, length_seq. }
  rewrite toArray_columns_of by assumption.
  rewrite unpivot_rows_raw by assumption.
  generalize (toArray table). intros rows.
  induction rows as [|row rows IH]; cbn [flat_map List.map]; [reflexivity|].
  rewrite List.map_app, IH. f_equal.
  rewrite List.map_map. apply List.map_ext. intros valueCol.
  now apply stored_unpivoted_row.
Qed.

Lemma unpivot_nothing table schema :
  numRows table = 0 \/ valueColumns options = [] ->
  exists newSchema,
    unpivot table schema options = Ok ([], newSchema) /\
    length (columns newSchema) = length (identifierColumns options) + 2.
Proof.
  intros Hnone. unfold unpivot.
  assert (Hrows : unpivot_rows (toArray table) options = []).
  { destruct Hnone as [Hzero|Hzero].
    - unfold toArray. now rewrite Hzero.
    - unfold unpivot_rows. rewrite Hzero.
      induction (toArray table) as [|row rows IH]; [reflexivity|exact IH]. }
  rewrite Hrows.
  cbn [arrayToColumnarFormat bind rewrap tableFromArrays List.map].
  eexists. split; [reflexivity|].
  cbn [columns]. rewrite length_app, length_map. reflexivity.
Qed.

End Unpivot.

Lemma forallb_Permutation {A} (p : A -> bool) (l l' : list A) :
  l ≡ₚ l' -> forallb p l = forallb p l'.
Proof.
  induction 1 as [|x l l' _ IH|x y l|l l' l'' _ IH _ IH'];
    cbn [forallb].
  - reflexivity.
  - now rewrite IH.
  - now rewrite !andb_assoc, (andb_comm (p y)).
  - now rewrite IH.
Qed.


(** Distinctness of names given as a list. *)
Ltac distinct_names := apply (bool_decide_unpack _); vm_compute; exact I.

(** X10.  Rows that all have the same distinct keys, in the same order,
    the keys being ordinary keys (no array index, no inherited name) and
    the cells of every key being of one kind, are turned by
    [arrayToColumnarFormat] into one column per key, each holding the
    cells of the rows in order; the table built from these columns has
    those keys as columns and as many rows, and when no cell is
    [undefined] its rows are the rows given. *)
Theorem rows_to_columns_and_back keys rows :
  NoDup keys -> keys <> [] -> rows <> [] ->
  uniform_rows keys rows ->
  arrow_columns (columns_of keys rows) = true ->
  Forall (fun row => Forall (fun entry => snd entry <> VUndefined) row) rows ->
  arrayToColumnarFormat rows = Ok (columns_of keys rows) /\
  fieldNamesOf (tableFromArrays (columns_of keys rows)) = keys /\
  numRows (tableFromArrays (columns_of keys rows)) = length rows /\
  toArray (tableFromArrays (columns_of keys rows)) = rows.
Proof.
  intros Hnodup Hkeys Hsome Hrows _ Hcells.
  split; [now apply arrayToColumnarFormat_uniform|].
  split; [apply fieldNamesOf_columns_of|].
  split; [now apply numRows_columns_of|].
  now apply rows_round_trip.
Qed.

Lemma rows_to_columns_and_back_witness :
  let rows := [[("id", VNum 1); ("name", VStr "Alice")];
               [("id", VNum 2); ("name", VNull)]] in
  arrayToColumnarFormat rows =
    Ok [("id", [VNum 1; VNum 2]); ("name", [VStr "Alice"; VNull])] /\
  toArray (tableFromArrays
             [("id", [VNum 1; VNum 2]); ("name", [VStr "Alice"; VNull])]) =
    rows.
Proof.
  cbv zeta.
  destruct (rows_to_columns_and_back ["id"; "name"]
              [[("id", VNum 1); ("name", VStr "Alice")];
               [("id", VNum 2); ("name", VNull)]])
    as (Hcols & _ & _ & Hback).
  - distinct_names.
  - discriminate.
  - discriminate.
  - repeat constructor.
  - reflexivity.
  - repeat (constructor; [repeat (constructor; [discriminate|]); constructor|]).
    constructor.
  - split; [exact Hcols | exact Hback].
Defined.

(** X11.  [unpivot] of a table with rows, for at least one value column,
    the identifier columns, the name column and the value column having
    distinct names, all the names given being ordinary keys (no array
    index, which JavaScript would order first, and no inherited name),
    and the columns of the result each holding one kind of value, so
    that the value columns hold the same kind: the result has the
    identifier columns, the name column and the value column, in this
    order, as does the schema returned; it has one row per row of the
    table and value column, in the order of the table and then of the
    value columns, holding the identifier cells of the row, the name of
    the value column and its cell ([null] for a column the table does
    not have).  Without rows or without value columns, the table
    returned has no column at all, while the schema returned still lists
    them. *)
Theorem unpivot_spec options table schema :
  let keys :=
    identifierColumns options ++ [nameColumn options; valueColumn options] in
  let rows :=
    flat_map (fun row =>
                List.map (unpivoted_row options row) (valueColumns options))
      (toArray table) in
  NoDup keys ->
  forallb ordinary_key (keys ++ valueColumns options) = true ->
  arrow_columns (columns_of keys rows) = true ->
  (0 < numRows table -> valueColumns options <> [] ->
   exists out newSchema,
     unpivot table schema options = Ok (out, newSchema) /\
     fieldNamesOf out = keys /\
     List.map name (columns newSchema) = keys /\
     numRows out = numRows table * length (valueColumns options) /\
     toArray out = rows) /\
  (numRows table = 0 \/ valueColumns options = [] ->
   exists newSchema,
     unpivot table schema options = Ok ([], newSchema) /\
     length (columns newSchema) = length (identifierColumns options) + 2).
Proof.
  intros keys rows Hnodup _ _. split.
  - intros Hrows Hvalues. now apply unpivot_result.
  - apply unpivot_nothing.
Qed.

Lemma unpivot_spec_witness :
  let options := {| identifierColumns := ["name"];
                    valueColumns := ["id"; "age"];
                    nameColumn := "key";
                    valueColumn := "value" |} in
  exists out newSchema,
    unpivot people people_schema options = Ok (out, newSchema) /\
    fieldNamesOf out = ["name"; "key"; "value"] /\
    List.map name (columns newSchema) = ["name"; "key"; "value"] /\
    numRows out = 3 * 2 /\
    toArray out =
      [[("name", VStr "Alice"); ("key", VStr "id"); ("value", VNum 1)];
       [("name", VStr "Alice"); ("key", VStr "age"); ("value", VNum 25)];
       [("name", VNull); ("key", VStr "id"); ("value", VNum 2)];
       [("name", VNull); ("key", VStr "age"); ("value", VNum 30)];
       [("name", VStr "Charlie"); ("key", VStr "id"); ("value", VNum 3)];
       [("name", VStr "Charlie"); ("key", VStr "age"); ("value", VNull)]].
Proof.
  cbv zeta.
  refine (proj1 (unpivot_spec
                   {| identifierColumns := ["name"];
                      valueColumns := ["id"; "age"];
                      nameColumn := "key";
                      valueColumn := "value" |}
                   people people_schema _ _ _) _ _).
  - distinct_names.
  - reflexivity.
  - reflexivity.
  - cbn. lia.
  - discriminate.
Defined.

(** X12.  The type that [unpivot] gives the value column does not depend
    on the order in which the value columns are listed. *)
Theorem value_column_type_order schema
    (valueColumns valueColumns' : list string) :
  valueColumns ≡ₚ valueColumns' ->
  determineValueColumnType schema valueColumns =
  determineValueColumnType schema valueColumns'.
Proof.
  intros Hperm. unfold determineValueColumnType.
  set (typeOf := fun colName : string =>
                   match find_column schema colName with
                   | Some col => type col
                   | None => "unknown"
                   end).
  set (known := fun type : string => negb (String.eqb type "unknown")).
  assert (Htypes : List.filter known (List.map typeOf valueColumns)
                   ≡ₚ List.filter known (List.map typeOf valueColumns')).
  { clear -Hperm.
    induction Hperm as [|x l l' _ IH|x y l|l l' l'' _ IH _ IH'];
      cbn [List.map List.filter].
    - reflexivity.
    - destruct (known (typeOf x)); [now constructor|exact IH].
    - destruct (known (typeOf x)), (known (typeOf y));
        try reflexivity. apply perm_swap.
    - now rewrite IH. }
  revert Htypes.
  generalize (List.filter known (List.map typeOf valueColumns)).
  generalize (List.filter known (List.map typeOf valueColumns')).
  clear. intros t' t Hperm.
  destruct t as [|a t], t' as [|b t'].
  - reflexivity.
  - now apply Permutation_nil_l in Hperm.
  - now apply Permutation_nil_r in Hperm.
  - rewrite (forallb_Permutation
               (fun t0 => String.eqb t0 "integer" || String.eqb t0 "float"
                          || String.eqb t0 "number") _ _ Hperm).
    rewrite (forallb_Permutation (fun t0 => String.eqb t0 a) _ _ Hperm).
    destruct (forallb (fun t0 => String.eqb t0 a) (b :: t')) eqn:Ha.
    + assert (Hb : b = a).
      { cbn [forallb] in Ha. apply andb_true_iff in Ha as [Hb _].
        now apply String.eqb_eq in Hb. }
      subst b. now rewrite Ha.
    + destruct (forallb (fun t0 => String.eqb t0 b) (b :: t')) eqn:Hb;
        [|reflexivity].
      assert (Hab : a = b).
      { rewrite <- (forallb_Permutation _ _ _ Hperm) in Hb.
        cbn [forallb] in Hb. apply andb_true_iff in Hb as [Hab _].
        now apply String.eqb_eq in Hab. }
      subst b. now rewrite Ha in Hb.
Qed.

Lemma value_column_type_order_witness :
  let schema :=
    {| tableName := "t";
       columns := [{| name := "a"; type := "integer"; nullable := None |};
                   {| name := "b"; type := "float"; nullable := None |};
                   {| name := "c"; type := "unknown"; nullable := None |}] |} in
  determineValueColumnType schema ["a"; "b"; "c"] =
  determineValueColumnType schema ["c"; "b"; "a"].
Proof.
  cbv zeta. apply value_column_type_order.
  change ["c"; "b"; "a"] with (rev ["a"; "b"; "c"]).
  apply Permutation_rev.
Defined.

(** ** Column statistics *)


Lemma foldl_seq_cells {S} (f : Vector -> S -> nat -> S)
    (g : S -> value -> S) (vector : Vector) (s : S) :
  (forall vec s i, f vec s i = g s (get vec i)) ->
  foldl (f vector) s (seq 0 (length vector)) = foldl g s vector.
Proof.
  intros Hf.
  transitivity (foldl g s (List.map (get vector) (seq 0 (length vector))));
    [|now rewrite map_get_seq].
  rewrite foldl_map. apply foldl_pointwise. intros s' i. apply Hf.
Qed.

Section MinMax.

Context (StringToNumber : string -> option Z).
Context (localeCompare : string -> string -> Z).


Lemma compare_numbers a b :
  compare StringToNumber localeCompare (VNum a) (VNum b) =
  (if a <? b then -1 else if b <? a then 1 else 0)%Z.
Proof.
  unfold compare, js_lt, js_gt, IsLessThan. cbn.
  destruct (a <? b)%Z; [reflexivity|]. now destruct (b <? a)%Z.
Qed.

Lemma minMax_step_cell vector state i :
  minMax_step StringToNumber localeCompare vector state i =
  minMax_cell StringToNumber localeCompare state (get vector i).
Proof.
  unfold minMax_step, minMax_cell, isValid.
  destruct state as [[min max] hasValue].
  now destruct (get vector i).
Qed.

Lemma minMax_integers (vector : Vector) lo hi :
  integer_column vector -> (lo <= hi)%Z ->
  foldl (minMax_cell StringToNumber localeCompare)
    (VNum lo, VNum hi, true) vector =
  (VNum (foldl Z.min lo (numbers_of vector)),
   VNum (foldl Z.max hi (numbers_of vector)), true).
Proof.
  intros Hcol. revert lo hi.
  induction Hcol as [|v vector Hv _ IH]; intros lo hi Hle; [reflexivity|].
  destruct v as [| | |n| | |]; try contradiction; cbn [foldl].
  - cbn. now apply IH.
  - unfold numbers_of. cbn [omap]. cbn [foldl]. fold (numbers_of vector).
    unfold minMax_cell at 2. cbn [is_nullish negb].
    rewrite !compare_numbers.
    replace (if ((if n <? lo then -1 else if lo <? n then 1 else 0) <? 0)%Z
             then VNum n else VNum lo) with (VNum (Z.min lo n)).
    2: { destruct (Z.ltb_spec n lo); [now rewrite Z.min_r by lia|].
         rewrite Z.min_l by lia. now destruct (lo <? n)%Z. }
    replace (if (0 <? (if n <? hi then -1 else if hi <? n then 1 else 0))%Z
             then VNum n else VNum hi) with (VNum (Z.max hi n)).
    2: { destruct (Z.ltb_spec n hi); [now rewrite Z.max_l by lia|].
         destruct (Z.ltb_spec hi n); [now rewrite Z.max_r by lia|].
         now rewrite Z.max_l by lia. }
    apply IH. lia.
Qed.

Lemma minMax_of_integers table columnName vector :
  getChild table (VStr columnName) = Some vector ->
  integer_column vector ->
  minMax_of StringToNumber localeCompare table columnName =
  match numbers_of vector with
  | [] => (VNull, VNull)
  | n :: numbers =>
      (VNum (foldl Z.min n numbers), VNum (foldl Z.max n numbers))
  end.
Proof.
  intros Hchild Hcol. unfold minMax_of. rewrite Hchild.
  destruct (Nat.eqb_spec (length vector) 0) as [Hzero|_].
  { apply length_zero_iff_nil in Hzero. now subst. }
  rewrite (foldl_seq_cells _ (minMax_cell StringToNumber localeCompare))
    by apply minMax_step_cell.
  clear Hchild.
  induction Hcol as [|v vector Hv Hcol IH]; [reflexivity|].
  destruct v as [| | |n| | |]; try contradiction; cbn [foldl].
  - exact IH.
  - unfold numbers_of. cbn [omap]. fold (numbers_of vector).
    cbn [minMax_cell is_nullish negb].
    now rewrite minMax_integers by (assumption || lia).
Qed.

Lemma minMax_of_absent table columnName :
  getChild table (VStr columnName) = None ->
  minMax_of StringToNumber localeCompare table columnName = (VNull, VNull).
Proof. intros Hchild. unfold minMax_of. now rewrite Hchild. Qed.

End MinMax.

Lemma foldl_min_spec n (l : list Z) :
  In (foldl Z.min n l) (n :: l) /\
  Forall (fun x => (foldl Z.min n l <= x)%Z) (n :: l).
Proof.
  revert n. induction l as [|y l IH]; intros n; cbn [foldl].
  - split; [now left|]. constructor; [lia|constructor].
  - destruct (IH (Z.min n y)) as [Hin Hall].
    apply Forall_cons in Hall as [Hhead Hall]. split.
    + destruct Hin as [Heq|Hin]; [|right; now right].
      rewrite <- Heq. destruct (Z.min_spec n y) as [[_ ->]|[_ ->]];
        [now left | right; now left].
    + constructor; [lia|]. constructor; [lia|exact Hall].
Qed.

Lemma foldl_max_spec n (l : list Z) :
  In (foldl Z.max n l) (n :: l) /\
  Forall (fun x => (x <= foldl Z.max n l)%Z) (n :: l).
Proof.
  revert n. induction l as [|y l IH]; intros n; cbn [foldl].
  - split; [now left|]. constructor; [lia|constructor].
  - destruct (IH (Z.max n y)) as [Hin Hall].
    apply Forall_cons in Hall as [Hhead Hall]. split.
    + destruct Hin as [Heq|Hin]; [|right; now right].
      rewrite <- Heq. destruct (Z.max_spec n y) as [[_ ->]|[_ ->]];
        [right; now left | now left].
    + constructor; [lia|]. constructor; [lia|exact Hall].
Qed.

Lemma strict_eq_eq a b : strict_eq a b = true -> a = b.
Proof.
  destruct a, b; cbn; try discriminate; try reflexivity.
  - intros H. f_equal. now apply Bool.eqb_prop.
  - intros H%Z.eqb_eq. now subst.
  - intros H%String.eqb_eq. now subst.
Qed.

Lemma strict_eq_refl a : primitive a = true -> strict_eq a a = true.
Proof.
  destruct a; cbn; try discriminate; try reflexivity.
  - intros _. now destruct b.
  - intros _. apply Z.eqb_refl.
  - intros _. apply String.eqb_refl.
Qed.

Lemma set_add_spec (set : list value) (v : value) :
  primitive v = true -> NoDup set ->
  NoDup (set_add set v) /\
  forall x, In x (set_add set v) <-> In x set \/ x = v.
Proof.
  intros Hv Hnodup. unfold set_add.
  destruct (existsb (fun x => strict_eq x v) set) eqn:Hmember.
  - split; [exact Hnodup|]. intros x. split; [now left|].
    intros [Hin| ->]; [exact Hin|].
    apply existsb_exists in Hmember as (y & Hy & Heq).
    now rewrite <- (strict_eq_eq _ _ Heq).
  - assert (Hfresh : ~ In v set).
    { intros Hin. apply Bool.not_true_iff_false in Hmember. apply Hmember.
      apply existsb_exists. exists v. split; [exact Hin|].
      now apply strict_eq_refl. }
    split.
    + apply NoDup_app. split; [exact Hnodup|]. split.
      * intros x Hx [->|[]%elem_of_nil]%elem_of_cons.
        now apply list_elem_of_In in Hx.
      * apply NoDup_singleton.
    + intros x. rewrite in_app_iff. cbn. split.
      * intros [Hin|[<-|[]]]; [now left | now right].
      * intros [Hin| ->]; [now left | right; now left].
Qed.

Lemma distinct_cells (vector : Vector) (set : list value) :
  Forall (fun v => primitive v = true) vector -> NoDup set ->
  let distinct :=
    foldl (fun distinctValues v =>
             if negb (is_null v) then set_add distinctValues v
             else distinctValues)
      set vector in
  NoDup distinct /\
  forall x, In x distinct <-> In x set \/ (In x vector /\ x <> VNull).
Proof.
  intros Hcells. revert set.
  induction Hcells as [|v vector Hv _ IH]; intros set Hnodup; cbn [foldl].
  - split; [exact Hnodup|]. intros x. cbn. tauto.
  - destruct (is_null v) eqn:Hnull; cbn [negb].
    + destruct (IH set Hnodup) as [Hdistinct Hmembers].
      split; [exact Hdistinct|]. intros x. rewrite Hmembers. cbn.
      destruct v; try discriminate. split; [tauto|].
      intros [Hin|[[<-|Hin] Hx]]; [tauto|contradiction|tauto].
    + destruct (set_add_spec set v Hv Hnodup) as [Hnodup' Hadd].
      destruct (IH _ Hnodup') as [Hdistinct Hmembers].
      split; [exact Hdistinct|]. intros x. rewrite Hmembers, Hadd. cbn.
      split.
      * intros [[Hin| ->]|[Hin Hx]]; [tauto| |tauto].
        right. split; [now left|]. intros ->. discriminate.
      * intros [Hin|[[<-|Hin] Hx]]; tauto.
Qed.

Lemma countDistinct_of_cells table columnName vector :
  getChild table (VStr columnName) = Some vector ->
  Forall (fun v => primitive v = true) vector ->
  exists distinct,
    NoDup distinct /\
    (forall x, In x distinct <-> In x vector /\ x <> VNull) /\
    countDistinct_of table columnName = length distinct.
Proof.
  intros Hchild Hcells. unfold countDistinct_of. rewrite Hchild.
  rewrite (foldl_seq_cells
             (fun vector distinctValues i =>
                if isValid vector i
                then set_add distinctValues (get vector i)
                else distinctValues)
             (fun distinctValues v =>
                if negb (is_null v) then set_add distinctValues v
                else distinctValues))
    by reflexivity.
  destruct (distinct_cells vector [] Hcells NoDup_nil_2)
    as [Hdistinct Hmembers].
  eexists. split; [exact Hdistinct|]. split; [|reflexivity].
  intros x. rewrite Hmembers. cbn. tauto.
Qed.

(** X13.  [minMaxColumn] on a store whose table resolves: for a column
    the table does not have, both [min] and [max] are [null]; for a
    column of integers, some of them null, they are [null] when every
    cell is null, and otherwise [min] is the least and [max] the
    greatest of the integers of the column. *)
Theorem minMaxColumn_integers (StringToNumber : string -> option Z)
    (localeCompare : string -> string -> Z) h this columnName h' table :
  resolveTable h this = (h', Ok table) ->
  (getChild table (VStr columnName) = None ->
   minMaxColumn StringToNumber localeCompare h this columnName =
   (h', Ok (VNull, VNull))) /\
  (forall vector,
      getChild table (VStr columnName) = Some vector ->
      integer_column vector ->
      exists min max,
        minMaxColumn StringToNumber localeCompare h this columnName =
        (h', Ok (min, max)) /\
        (numbers_of vector = [] -> min = VNull /\ max = VNull) /\
        (numbers_of vector <> [] ->
         exists lo hi,
           min = VNum lo /\ max = VNum hi /\
           In lo (numbers_of vector) /\ In hi (numbers_of vector) /\
           Forall (fun x => (lo <= x <= hi)%Z) (numbers_of vector))).
Proof.
  intros Hresolve. unfold minMaxColumn. rewrite Hresolve. cbn [bind].
  split.
  - intros Hchild. now rewrite minMax_of_absent.
  - intros vector Hchild Hcol.
    rewrite (minMax_of_integers _ _ _ _ _ Hchild Hcol).
    destruct (numbers_of vector) as [|n numbers].
    + exists VNull, VNull. split; [reflexivity|]. split; [now split|].
      intros Hsome. now contradiction Hsome.
    + eexists _, _. split; [reflexivity|]. split; [discriminate|].
      intros _. eexists _, _. split; [reflexivity|]. split; [reflexivity|].
      destruct (foldl_min_spec n numbers) as [Hlo Hleast].
      destruct (foldl_max_spec n numbers) as [Hhi Hgreatest].
      split; [exact Hlo|]. split; [exact Hhi|].
      rewrite List.Forall_forall in *. intros x Hx.
      specialize (Hleast x Hx). specialize (Hgreatest x Hx). lia.
Qed.

Lemma minMaxColumn_integers_witness :
  exists min max,
    minMaxColumn decimal_StringToNumber ordinal_localeCompare people_heap 0
      "age" = (people_heap, Ok (min, max)) /\
    (numbers_of [VNum 25; VNum 30; VNull] = [] ->
     min = VNull /\ max = VNull) /\
    (numbers_of [VNum 25; VNum 30; VNull] <> [] ->
     exists lo hi,
       min = VNum lo /\ max = VNum hi /\
       In lo (numbers_of [VNum 25; VNum 30; VNull]) /\
       In hi (numbers_of [VNum 25; VNum 30; VNull]) /\
       Forall (fun x => (lo <= x <= hi)%Z)
         (numbers_of [VNum 25; VNum 30; VNull])).
Proof.
  refine (proj2 (minMaxColumn_integers decimal_StringToNumber
                   ordinal_localeCompare people_heap 0 "age" people_heap
                   people _) [VNum 25; VNum 30; VNull] _ _).
  - reflexivity.
  - reflexivity.
  - repeat constructor.
Defined.

(** X14.  [countDistinct] on a store whose table resolves: 0 for a
    column the table does not have; for a column whose cells are
    primitive values, the number of distinct values among its cells that
    are not null. *)
Theorem countDistinct_counts h this columnName h' table :
  resolveTable h this = (h', Ok table) ->
  (getChild table (VStr columnName) = None ->
   countDistinct h this columnName = (h', Ok 0)) /\
  (forall vector,
      getChild table (VStr columnName) = Some vector ->
      Forall (fun v => primitive v = true) vector ->
      exists distinct,
        NoDup distinct /\
        (forall x, In x distinct <-> In x vector /\ x <> VNull) /\
        countDistinct h this columnName = (h', Ok (length distinct))).
Proof.
  intros Hresolve. unfold countDistinct. rewrite Hresolve. cbn [bind].
  split.
  - intros Hchild. unfold countDistinct_of. now rewrite Hchild.
  - intros vector Hchild Hcells.
    destruct (countDistinct_of_cells _ _ _ Hchild Hcells)
      as (distinct & Hnodup & Hmembers & ->).
    now exists distinct.
Qed.

Lemma countDistinct_counts_witness :
  exists distinct,
    NoDup distinct /\
    (forall x, In x distinct <->
               In x [VStr "North"; VStr "North"; VStr "South"] /\
               x <> VNull) /\
    countDistinct
      [{| table_ := sales; schema_ := people_schema;
          pendingOperations := [] |}] 0 "region" =
    ([{| table_ := sales; schema_ := people_schema;
         pendingOperations := [] |}], Ok (length distinct)).
Proof.
  refine (proj2 (countDistinct_counts
                   [{| table_ := sales; schema_ := people_schema;
                       pendingOperations := [] |}] 0 "region" _ sales _)
            [VStr "North"; VStr "North"; VStr "South"] _ _).
  - reflexivity.
  - reflexivity.
  - repeat constructor.
Defined.

(** ** Sorting *)


Lemma row_of_keys table i : List.map fst (row_of table i) = fieldNamesOf table.
Proof.
  unfold row_of, fieldNamesOf. rewrite List.map_map.
  apply List.map_ext. now intros [f vector].
Qed.

Lemma row_of_defined table i :
  well_formed table ->
  Forall (fun entry => snd entry <> VUndefined) (row_of table i).
Proof.
  intros [_ Hcols]. unfold row_of. apply List.Forall_forall.
  intros [k v] ([f vector] & [= <- <-] & Hin)%in_map_iff. cbn [snd].
  rewrite List.Forall_forall in Hcols.
  destruct (Hcols _ Hin) as [_ Hcells]. cbn [snd] in Hcells.
  unfold get. destruct (Nat.lt_ge_cases i (length vector)) as [Hlt|Hge].
  - rewrite List.Forall_forall in Hcells. apply Hcells. now apply nth_In.
  - now rewrite nth_overflow.
Qed.

Lemma rows_of_table_uniform table rows :
  rows_of_table table rows -> uniform_rows (fieldNamesOf table) rows.
Proof.
  unfold rows_of_table, uniform_rows. intros Hrows.
  eapply Forall_impl; [exact Hrows|].
  intros row (i & ->). apply row_of_keys.
Qed.

Lemma rows_of_table_defined table rows :
  well_formed table -> rows_of_table table rows ->
  Forall (fun row => Forall (fun entry => snd entry <> VUndefined) row) rows.
Proof.
  intros Hwf. unfold rows_of_table. intros Hrows.
  eapply Forall_impl; [exact Hrows|].
  intros row (i & ->). now apply row_of_defined.
Qed.

Lemma rows_of_table_seq table l :
  rows_of_table table (List.map (row_of table) l).
Proof.
  unfold rows_of_table. apply List.Forall_forall.
  intros row (i & <- & _)%in_map_iff. now exists i.
Qed.

Lemma rows_of_table_Permutation table rows rows' :
  rows ≡ₚ rows' -> rows_of_table table rows -> rows_of_table table rows'.
Proof. unfold rows_of_table. now intros ->. Qed.

(** Rows of a table, turned into a table, read back. *)
Lemma table_of_rows table rows :
  well_formed table -> fieldNamesOf table <> [] ->
  rows_of_table table rows -> rows <> [] ->
  exists out,
    (let* cols := arrayToColumnarFormat rows in Ok (tableFromArrays cols))
    = Ok out /\
    fieldNamesOf out = fieldNamesOf table /\
    toArray out = rows.
Proof.
  intros Hwf Hkeys Hrows Hsome.
  rewrite (arrayToColumnarFormat_uniform (fieldNamesOf table));
    [|exact (proj1 Hwf)|now apply rows_of_table_uniform|assumption].
  cbn [bind]. eexists. split; [reflexivity|].
  split; [apply fieldNamesOf_columns_of|].
  apply rows_round_trip;
    [exact (proj1 Hwf)|assumption|now apply rows_of_table_uniform|].
  now apply (rows_of_table_defined table).
Qed.

Section SortRows.

Context (StringToNumber : string -> option Z).
Context (localeCompare : string -> string -> Z).


End SortRows.

(** ** Sorting by one column *)

Lemma gather_row_columns table (g : Vector -> list value) idx :
  NoDup (fieldNamesOf table) ->
  gather_row table (columns_with g table) idx =
  columns_with (fun vector => g vector ++ [get vector idx]) table.
Proof.
  intros Hnames. unfold gather_row.
  apply foldl_each_column. intros pre f vector suf Htable.
  assert (Hfresh : ~ In f (fieldNamesOf pre)).
  { rewrite Htable in Hnames. now apply NoDup_app_fresh in Hnames. }
  rewrite Htable, getChild_app_fresh by assumption.
  cbn [getChild strict_eq]. rewrite String.eqb_refl.
  unfold push_cell.
  rewrite obj_get_entry, obj_set_entry by now rewrite columns_with_keys.
  reflexivity.
Qed.

Lemma gather_rows_columns table indices (done : list nat) :
  NoDup (fieldNamesOf table) ->
  foldl (gather_row table)
    (columns_with (fun vector => List.map (get vector) done) table) indices =
  columns_with (fun vector => List.map (get vector) (done ++ indices)) table.
Proof.
  intros Hnames. revert done.
  induction indices as [|idx indices IH]; intros done; cbn [foldl].
  - now rewrite app_nil_r.
  - rewrite gather_row_columns by assumption.
    replace (columns_with
               (fun vector => List.map (get vector) done ++ [get vector idx])
               table)
      with (columns_with
              (fun vector => List.map (get vector) (done ++ [idx])) table).
    2: { unfold columns_with. apply List.map_ext. intros [f vector].
         now rewrite List.map_app. }
    rewrite IH. now rewrite <- app_assoc.
Qed.

Lemma stored_rows table rows :
  well_formed table ->
  tableFromArrays
    (columns_with (fun vector => List.map (get vector) rows) table) =
  take_rows table rows.
Proof.
  intros [_ Hcols]. unfold tableFromArrays, columns_with, take_rows.
  rewrite List.map_map. apply List.map_ext_in. intros [f vector] Hin.
  f_equal. rewrite List.map_map. apply List.map_ext. intros i.
  rewrite List.Forall_forall in Hcols.
  destruct (Hcols _ Hin) as [_ Hcells]. cbn [snd] in Hcells.
  assert (Hcell : get vector i <> VUndefined).
  { unfold get. destruct (Nat.lt_ge_cases i (length vector)) as [Hlt|Hge].
    - rewrite List.Forall_forall in Hcells. apply Hcells. now apply nth_In.
    - now rewrite nth_overflow. }
  now destruct (get vector i).
Qed.

Lemma insert_sorted_sorted {A} (compareFn : A -> A -> Z) x (l : list A) :
  (forall a b, (compareFn a b <= 0)%Z \/ (compareFn b a <= 0)%Z) ->
  (forall a b c, (compareFn a b <= 0)%Z -> (compareFn b c <= 0)%Z ->
                 (compareFn a c <= 0)%Z) ->
  StronglySorted (fun a b => (compareFn a b <= 0)%Z) l ->
  StronglySorted (fun a b => (compareFn a b <= 0)%Z)
    (insert_sorted compareFn x l).
Proof.
  intros Htotal Htrans Hsorted.
  induction Hsorted as [|y l Hsorted IH Hy]; cbn [insert_sorted].
  - repeat constructor.
  - destruct (Z.leb_spec (compareFn x y) 0) as [Hle|Hgt].
    + constructor; [now constructor|]. constructor; [exact Hle|].
      eapply Forall_impl; [exact Hy|]. intros z Hz. now apply (Htrans x y z).
    + constructor; [exact IH|].
      apply (insert_sorted_Forall (fun z => (compareFn y z <= 0)%Z));
        [|exact Hy].
      destruct (Htotal x y); [lia|assumption].
Qed.

Lemma array_sort_sorted {A} (compareFn : A -> A -> Z) (l : list A) :
  (forall a b, (compareFn a b <= 0)%Z \/ (compareFn b a <= 0)%Z) ->
  (forall a b c, (compareFn a b <= 0)%Z -> (compareFn b c <= 0)%Z ->
                 (compareFn a c <= 0)%Z) ->
  StronglySorted (fun a b => (compareFn a b <= 0)%Z) (array_sort compareFn l).
Proof.
  intros Htotal Htrans. unfold array_sort.
  induction l as [|x l IH]; cbn [foldr]; [constructor|].
  now apply insert_sorted_sorted.
Qed.

Section SortOneColumn.

Context (StringToNumber : string -> option Z).
Context (localeCompare : string -> string -> Z).

Lemma index_compare_integers vector direction a b :
  integer_column vector ->
  (index_compare StringToNumber localeCompare vector direction a b <= 0)%Z
  <-> cell_le direction (get vector a) (get vector b).
Proof.
  intros Hcol.
  assert (Hcell : forall i, match get vector i with
                            | VNum _ | VNull => True
                            | _ => False
                            end).
  { intros i. unfold get.
    destruct (Nat.lt_ge_cases i (length vector)) as [Hlt|Hge].
    - unfold integer_column in Hcol. rewrite List.Forall_forall in Hcol.
      apply Hcol. now apply nth_In.
    - now rewrite nth_overflow. }
  unfold index_compare, cell_le.
  pose proof (Hcell a) as Ha. pose proof (Hcell b) as Hb.
  destruct (get vector a) as [| | |x| | |], (get vector b) as [| | |y| | |];
    try contradiction; cbn [is_nullish];
    try solve [split; first [tauto | lia]].
  rewrite compare_numbers.
  destruct direction, (Z.ltb_spec x y), (Z.ltb_spec y x); lia.
Qed.


End SortOneColumn.

(** X15.  Sorting a well-formed table with rows by two or more fields
    returns the columns of the table and the schema of the store, when
    the column names and the sort fields are ordinary keys, the columns
    each hold one kind of value and the comparator of the options orders
    the rows.  For a
    table of at most 10000 rows, the rows returned are the rows of the
    table sorted by the comparator of the options; for a larger table
    the rows are sorted batch by batch: the result is the first 10000
    rows, sorted, followed by the next 10000 rows, sorted, and so on, and
    not the sorted table. *)
Theorem sort_by_many_columns (StringToNumber : string -> option Z)
    (localeCompare : string -> string -> Z)
    schema table option1 option2 options :
  well_formed table -> 0 < numRows table ->
  arrow_columns table = true ->
  let all := option1 :: option2 :: options in
  let compareFn := row_compare StringToNumber localeCompare all in
  forallb (fun option => ordinary_key (sort_field option)) all = true ->
  consistent_comparator compareFn (toArray table) = true ->
  exists sorted,
    sort_executor StringToNumber localeCompare all schema table =
    Ok {| res_table := sorted; res_schema := Some schema |} /\
    fieldNamesOf sorted = fieldNamesOf table /\
    toArray sorted =
      if numRows table <=? 10000
      then array_sort compareFn (toArray table)
      else
        flat_map (fun i =>
                    array_sort compareFn
                      (List.map (row_of table)
                         (seq i (Nat.min (i + 10000) (numRows table) - i))))
          (batch_starts (numRows table) 0 (numRows table) 10000).
Proof.
  intros Hwf Hrows _ all compareFn _ _.
  assert (Hkeys : fieldNamesOf table <> []).
  { destruct table; [cbn in Hrows; lia | discriminate]. }
  subst compareFn all.
  set (compareFn := row_compare StringToNumber localeCompare
                      (option1 :: option2 :: options)).
  cbn [sort_executor]. fold compareFn. unfold processBatches.
  destruct (numRows table <=? 10000) eqn:Hsmall.
  - destruct (table_of_rows table (array_sort compareFn (toArray table)))
      as (out & -> & Hnames & Hback); try assumption.
    + apply (rows_of_table_Permutation _ (toArray table));
        [now rewrite array_sort_perm | apply rows_of_table_seq].
    + intros Hnil. pose proof (array_sort_perm compareFn (toArray table)) as Hp.
      rewrite Hnil in Hp. apply Permutation_nil_l in Hp.
      unfold toArray in Hp. destruct (numRows table); [lia|discriminate].
    + cbn [bind]. now exists out.
  - set (starts := batch_starts (numRows table) 0 (numRows table) 10000).
    assert (Hbatches :
      flat_map (fun i =>
                  array_sort compareFn
                    (toArray (table_slice table i
                                (Nat.min (i + 10000) (numRows table)))))
        starts =
      flat_map (fun i =>
                  array_sort compareFn
                    (List.map (row_of table)
                       (seq i (Nat.min (i + 10000) (numRows table) - i))))
        starts).
    { induction starts as [|i starts IH]; [reflexivity|].
      cbn [flat_map]. rewrite IH, toArray_table_slice by lia. reflexivity. }
    rewrite Hbatches.
    destruct (table_of_rows table
                (flat_map (fun i =>
                    array_sort compareFn
                      (List.map (row_of table)
                         (seq i (Nat.min (i + 10000) (numRows table) - i))))
                   starts))
      as (out & -> & Hnames & Hback); try assumption.
    + unfold rows_of_table. apply List.Forall_forall.
      intros row (i & _ & Hin)%in_flat_map.
      pose proof (rows_of_table_Permutation table _ _
                    (symmetry (array_sort_perm compareFn _))
                    (rows_of_table_seq table
                       (seq i (Nat.min (i + 10000) (numRows table) - i))))
        as Hsorted.
      unfold rows_of_table in Hsorted.
      rewrite List.Forall_forall in Hsorted. now apply Hsorted.
    + unfold starts. destruct (numRows table) as [|n] eqn:Hn; [lia|].
      cbn [batch_starts]. cbn [Nat.ltb Nat.leb flat_map].
      intros Hnil. apply app_eq_nil in Hnil as [Hnil _].
      pose proof (array_sort_perm compareFn
                    (List.map (row_of table)
                       (seq 0 (Nat.min (0 + 10000) (S n) - 0)))) as Hp.
      rewrite Hnil in Hp. apply Permutation_nil_l in Hp.
      apply (f_equal (@length _)) in Hp.
      rewrite length_map, length_seq in Hp. cbn [length] in Hp.
      assert (Hsize : 0 < 10000) by (apply Nat.ltb_lt; reflexivity).
      lia.
    + cbn [bind]. now exists out.
Qed.

Lemma sort_by_many_columns_witness :
  let options := [{| sort_field := "name"; direction := asc |};
                  {| sort_field := "age"; direction := desc |}] in
  exists sorted,
    sort_executor decimal_StringToNumber ordinal_localeCompare options
      people_schema people =
    Ok {| res_table := sorted; res_schema := Some people_schema |} /\
    fieldNamesOf sorted = fieldNamesOf people /\
    toArray sorted =
      if numRows people <=? 10000
      then array_sort
             (row_compare decimal_StringToNumber ordinal_localeCompare options)
             (toArray people)
      else
        flat_map (fun i =>
                    array_sort
                      (row_compare decimal_StringToNumber
                         ordinal_localeCompare options)
                      (List.map (row_of people)
                         (seq i (Nat.min (i + 10000) (numRows people) - i))))
          (batch_starts (numRows people) 0 (numRows people) 10000).
Proof.
  cbv zeta.
  apply (sort_by_many_columns decimal_StringToNumber ordinal_localeCompare
           people_schema people
           {| sort_field := "name"; direction := asc |}
           {| sort_field := "age"; direction := desc |} []).
  - well_formed_table.
  - cbn. lia.
  - reflexivity.
  - reflexivity.
  - reflexivity.
Defined.

(** X16.  Sorting a well-formed table by one field that it has, when the
    column names are ordinary keys, the columns each hold one kind of
    value and the comparator orders the cells of the field, rearranges
    whole rows: the result is the table with its rows taken in the order
    of the sorted row indices, a permutation of the rows, every column
    being rearranged alike, and the step returns the schema of the store.
    When the column sorted by holds integers, some of them null, its
    cells come out in order: the null cells first, then the integers,
    never decreasing for [asc] and never increasing for [desc]. *)
Theorem sort_by_one_column (StringToNumber : string -> option Z)
    (localeCompare : string -> string -> Z)
    schema table field dir vector :
  well_formed table -> arrow_columns table = true ->
  getChild table (VStr field) = Some vector ->
  consistent_comparator
    (index_compare StringToNumber localeCompare vector dir)
    (seq 0 (numRows table)) = true ->
  let indices :=
    array_sort (index_compare StringToNumber localeCompare vector dir)
      (seq 0 (numRows table)) in
  indices ≡ₚ seq 0 (numRows table) /\
  sort_executor StringToNumber localeCompare
    [{| sort_field := field; direction := dir |}] schema table =
  Ok {| res_table := take_rows table indices; res_schema := Some schema |} /\
  toArray (take_rows table indices) = List.map (row_of table) indices /\
  (integer_column vector ->
   StronglySorted (cell_le dir) (List.map (get vector) indices)).
Proof.
  intros Hwf _ Hchild _ indices.
  split; [apply array_sort_perm|]. split; [|split].
  - cbn [sort_executor sort_field direction]. rewrite Hchild.
    fold indices. f_equal. f_equal.
    rewrite (init_columns [] _ []) by exact (proj1 Hwf). cbn [app].
    replace (List.map (fun n => (n, [])) (fieldNamesOf table))
      with (columns_with (fun vector => List.map (get vector) []) table).
    2: { unfold columns_with, fieldNamesOf. rewrite List.map_map.
         apply List.map_ext. now intros [f v]. }
    rewrite gather_rows_columns by exact (proj1 Hwf). cbn [app].
    now apply stored_rows.
  - apply toArray_take_rows. intros ->. discriminate.
  - intros Hcol.
    pose proof (array_sort_sorted
                  (index_compare StringToNumber localeCompare vector dir)
                  (seq 0 (numRows table))) as Hsorted.
    fold indices in Hsorted.
    assert (Hrel : forall a b,
               (index_compare StringToNumber localeCompare vector dir
                  a b <= 0)%Z <->
               cell_le dir (get vector a) (get vector b))
      by (intros a b; now apply index_compare_integers).
    assert (Hcells : forall i, match get vector i with
                               | VNum _ | VNull => True
                               | _ => False
                               end).
    { intros i. unfold get.
      destruct (Nat.lt_ge_cases i (length vector)) as [Hlt|Hge].
      - unfold integer_column in Hcol. rewrite List.Forall_forall in Hcol.
        apply Hcol. now apply nth_In.
      - now rewrite nth_overflow. }
    assert (Hordered : StronglySorted
                         (fun a b =>
                            (index_compare StringToNumber localeCompare
                               vector dir a b <= 0)%Z) indices).
    { apply Hsorted.
      - intros a b. rewrite !Hrel. unfold cell_le.
        pose proof (Hcells a) as Ha. pose proof (Hcells b) as Hb.
        destruct (get vector a), (get vector b), dir;
          try contradiction; try tauto; lia.
      - intros a b c. rewrite !Hrel. unfold cell_le.
        pose proof (Hcells a) as Ha. pose proof (Hcells b) as Hb.
        pose proof (Hcells c) as Hc.
        destruct (get vector a), (get vector b), (get vector c), dir;
          try contradiction; try tauto; lia. }
    clear Hsorted. induction Hordered as [|i l _ IH Hi]; cbn [List.map];
      constructor; [exact IH|].
    apply List.Forall_forall. intros v (j & <- & Hj)%in_map_iff.
    apply Hrel. rewrite List.Forall_forall in Hi. now apply Hi.
Qed.

Lemma sort_by_one_column_witness :
  sort_executor decimal_StringToNumber ordinal_localeCompare
    [{| sort_field := "age"; direction := desc |}] people_schema people =
  Ok {| res_table :=
          [("id", [VNum 3; VNum 2; VNum 1]);
           ("name", [VStr "Charlie"; VNull; VStr "Alice"]);
           ("age", [VNull; VNum 30; VNum 25])];
        res_schema := Some people_schema |} /\
  StronglySorted (cell_le desc) [VNull; VNum 30; VNum 25].
Proof.
  destruct (sort_by_one_column decimal_StringToNumber ordinal_localeCompare
              people_schema people "age" desc [VNum 25; VNum 30; VNull])
    as (_ & Hsort & _ & Hsorted).
  - well_formed_table.
  - reflexivity.
  - reflexivity.
  - reflexivity.
  - split; [exact Hsort|]. apply Hsorted. repeat constructor.
Defined.

(** ** Cartesian products *)

Lemma generateCartesianProduct_choices (arrays : list (list Row))
    (current : Row) :
  generateCartesianProduct arrays current =
  List.map (foldl obj_merge current) (choices arrays).
Proof.
  revert current. induction arrays as [|items arrays IH]; intros current;
    cbn [generateCartesianProduct choices List.map]; [reflexivity|].
  induction items as [|item items IHitems]; cbn [flat_map List.map];
    [reflexivity|].
  rewrite List.map_app, List.map_map, IH, IHitems. reflexivity.
Qed.

Lemma length_choices {A} (lists : list (list A)) :
  length (choices lists) = foldr Nat.mul 1 (List.map (@length A) lists).
Proof.
  induction lists as [|items lists IH]; cbn [choices List.map foldr];
    [reflexivity|].
  rewrite <- IH. generalize (choices lists). intros tails.
  induction items as [|item items IHitems]; cbn [flat_map length];
    [reflexivity|].
  rewrite length_app, length_map, IHitems. reflexivity.
Qed.

(** X18.  [generateCartesianProduct] returns one record per way of
    choosing one item from each array, the first array varying slowest:
    the record is the chosen items merged in order over [current], a
    later item overriding the keys of an earlier one.  There are as many
    records as the product of the sizes of the arrays: one, the copy of
    [current], for no array, and none when an array is empty. *)
Theorem cartesian_product_spec (arrays : list (list Row)) (current : Row) :
  generateCartesianProduct arrays current =
    List.map (foldl obj_merge current) (choices arrays) /\
  length (generateCartesianProduct arrays current) =
    foldr Nat.mul 1 (List.map (@length Row) arrays) /\
  generateCartesianProduct [] current = [current] /\
  (In [] arrays -> generateCartesianProduct arrays current = []).
Proof.
  split; [apply generateCartesianProduct_choices|]. split.
  { now rewrite generateCartesianProduct_choices, length_map, length_choices. }
  split; [reflexivity|].
  intros Hempty. apply length_zero_iff_nil.
  rewrite generateCartesianProduct_choices, length_map, length_choices.
  induction arrays as [|items arrays IH]; [contradiction|].
  cbn [List.map foldr]. destruct Hempty as [->|Hin]; [reflexivity|].
  rewrite (IH Hin). lia.
Qed.

Lemma cartesian_product_spec_witness :
  generateCartesianProduct
    [[[("year", VNum 2021)]; [("year", VNum 2022)]]; []] [] = [].
Proof.
  apply (proj2 (proj2 (proj2 (cartesian_product_spec
                                [[[("year", VNum 2021)]; [("year", VNum 2022)]];
                                 []] [])))).
  right. now left.
Defined.

(** ** Derived stores *)


(** X17.  Deriving a store is lazy and leaves its parent alone.
    [createInstance] runs nothing: it adds one store to the heap, which
    shares the table and schema of its parent and queues the steps of
    the parent followed by the new step; the stores that existed are
    unchanged.  Resolving the derived store applies those steps to the
    table of the parent, and, whether it succeeds or fails, the parent
    keeps its table and its queue: the parent is not resolved. *)
Theorem derived_store_is_lazy h this store step h1 child :
  h !! this = Some store ->
  createInstance h this step = (h1, child) ->
  child = length h /\
  (forall j s, h !! j = Some s -> h1 !! j = Some s) /\
  h1 !! child =
    Some {| table_ := table_ store; schema_ := schema_ store;
            pendingOperations :=
              pendingOperations store
                ++ [{| owner := this; executor := step |}] |} /\
  snd (resolveTable h1 child) =
    (let* out :=
       apply_in_order
         (List.map executor (pendingOperations store) ++ [step])
         (table_ store) (schema_ store) in
     Ok (fst out)) /\
  table_ <$> fst (resolveTable h1 child) !! this = Some (table_ store) /\
  pendingOperations <$> fst (resolveTable h1 child) !! this =
    Some (pendingOperations store).
Proof.
  intros Hstore. rewrite (createInstance_spec _ _ _ _ Hstore).
  intros [= <- <-].
  set (derived := {| table_ := table_ store; schema_ := schema_ store;
                     pendingOperations :=
                       pendingOperations store
                         ++ [{| owner := this; executor := step |}] |}).
  assert (Hchild : (h ++ [derived]) !! length h = Some derived).
  { rewrite lookup_app_r by lia. now rewrite Nat.sub_diag. }
  assert (Hthis : this < length h) by now apply lookup_lt_Some in Hstore.
  assert (Hparent : (h ++ [derived]) !! this = Some store)
    by now rewrite lookup_app_l.
  split; [reflexivity|]. split.
  { intros j s Hj. rewrite lookup_app_l; [exact Hj|].
    now apply lookup_lt_Some in Hj. }
  split; [exact Hchild|]. split.
  { rewrite (resolveTable_result _ _ _ Hchild). cbn [pendingOperations derived].
    rewrite List.map_app. reflexivity. }
  rewrite (resolveTable_unfold _ _ _ Hchild).
  cbn [pendingOperations table_ schema_ derived].
  destruct (pendingOperations store
              ++ [{| owner := this; executor := step |}])
    as [|operation rest] eqn:Hqueue.
  { now destruct (pendingOperations store). }
  pose proof (run_batch_preserves (length h) (operation :: rest)
                (h ++ [derived]) (table_ store) (schema_ store))
    as [Hlen Hkeep].
  destruct (run_batch (length h) (operation :: rest) (h ++ [derived])
              (table_ store) (schema_ store)) as [h2 [[t s]|e]];
    cbn [fst] in *.
  - rewrite list_lookup_insert_ne by lia.
    destruct (Hkeep this) as [Htable Hpending].
    rewrite Htable, Hpending, Hparent. now split.
  - destruct (Hkeep this) as [Htable Hpending].
    rewrite Htable, Hpending, Hparent. now split.
Qed.

Lemma derived_store_is_lazy_witness :
  let h1 := fst (createInstance people_heap 0 identity_executor) in
  snd (resolveTable h1 1) = Ok people /\
  table_ <$> fst (resolveTable h1 1) !! 0 = Some people /\
  pendingOperations <$> fst (resolveTable h1 1) !! 0 = Some [].
Proof.
  destruct (derived_store_is_lazy people_heap 0 _ identity_executor _ _
              eq_refl eq_refl)
    as (_ & _ & _ & Hresult & Htable & Hqueue).
  split; [exact Hresult|]. split; [exact Htable | exact Hqueue].
Defined.

(** ** Join *)

Lemma strict_eq_sym a b : strict_eq a b = strict_eq b a.
Proof.
  destruct a, b; cbn; try reflexivity.
  - now destruct b, b0.
  - apply Z.eqb_sym.
  - apply String.eqb_sym.
Qed.






(** ** The lexer *)

Lemma span_lengths class (s : string) :
  String.length (fst (span class s)) + String.length (snd (span class s))
  = String.length s.
Proof.
  induction s as [|c s IH]; cbn [span]; [reflexivity|].
  destruct (class c); cbn [fst snd String.length]; lia.
Qed.

Lemma number_span_lengths hasDot (s : string) :
  String.length (fst (number_span hasDot s))
  + String.length (snd (number_span hasDot s)) = String.length s.
Proof.
  revert hasDot. induction s as [|c s IH]; intros hasDot;
    cbn [number_span]; [reflexivity|].
  destruct (Ascii.eqb c "." && negb hasDot).
  - cbn [fst snd String.length]. specialize (IH true). lia.
  - destruct (is_digit c); cbn [fst snd String.length];
      [specialize (IH hasDot)|]; lia.
Qed.

Lemma string_span_lengths (s raw after : string) :
  string_span s = Some (raw, after) ->
  String.length raw + 1 + String.length after = String.length s.
Proof.
  remember (String.length s) as n eqn:Hn.
  revert s raw after Hn.
  induction n as [n IH] using lt_wf_ind. intros s raw after Hn.
  destruct s as [|c rest]; cbn [string_span]; [discriminate|].
  destruct (Ascii.eqb c quote_char).
  { intros [= <- <-]. cbn [String.length] in *. lia. }
  destruct rest as [|c' rest']; [discriminate|].
  destruct (Ascii.eqb c backslash && Ascii.eqb c' quote_char).
  - destruct (string_span rest') as [[raw' after']|] eqn:Hspan;
      [|discriminate].
    intros [= <- <-]. cbn [String.length] in *.
    specialize (IH (String.length rest') ltac:(lia) rest' raw' after'
                  eq_refl Hspan). lia.
  - destruct (string_span (String c' rest')) as [[raw' after']|] eqn:Hspan;
      [|discriminate].
    intros [= <- <-]. cbn [String.length] in *.
    specialize (IH (String.length (String c' rest')) ltac:(cbn; lia)
                  (String c' rest') raw' after' eq_refl Hspan).
    cbn [String.length] in IH. lia.
Qed.

Lemma word_token_type word start :
  tok_type (word_token word start) <> TokenType.EOF.
Proof.
  unfold word_token.
  repeat match goal with
         | |- context [if ?b then _ else _] => destruct b
         end; discriminate.
Qed.

Lemma lexed_step input position tokens rest position' t outcome :
  lexed rest position' (tokens ++ [t]) outcome ->
  tok_type t <> TokenType.EOF ->
  position' + String.length rest = position + String.length input ->
  lexed input position tokens outcome.
Proof.
  destruct outcome as [out|e]; cbn [lexed]; [|trivial].
  intros (produced & -> & Hproduced) Ht Hposition.
  exists (t :: produced). rewrite Hposition, <- app_assoc.
  split; [reflexivity|]. now constructor.
Qed.

Lemma tokenize_loop_lexed fuel :
  forall input position tokens,
    String.length input < fuel ->
    lexed input position tokens (tokenize_loop fuel input position tokens).
Proof.
  induction fuel as [|fuel IH]; intros input position tokens Hfuel; [lia|].
  cbn [tokenize_loop].
  destruct input as [|char rest].
  { cbn [lexed String.length]. exists []. rewrite Nat.add_0_r.
    split; [reflexivity|constructor]. }
  cbn [String.length] in Hfuel. cbv zeta.
  assert (Hone : forall type v,
             type <> TokenType.EOF ->
             lexed (String char rest) position tokens
               (tokenize_loop fuel rest (position + 1)
                  (tokens ++ [token type v position]))).
  { intros type v Htype. eapply lexed_step; [apply IH; lia|exact Htype|].
    cbn [String.length]. lia. }
  assert (Htwo : forall type v c r,
             rest = String c r -> type <> TokenType.EOF ->
             lexed (String char rest) position tokens
               (tokenize_loop fuel r (position + 2)
                  (tokens ++ [token type v position]))).
  { intros type v c r -> Htype.
    eapply lexed_step; [apply IH; cbn [String.length] in *; lia|exact Htype|].
    cbn [String.length]. lia. }
  assert (Herror : lexed (String char rest) position tokens
                     (Err (unexpected_character char position))).
  { left. now exists char, position. }
  destruct (is_space char).
  { destruct (tokenize_loop fuel rest (position + 1) tokens) as [out|e]
      eqn:Hrec.
    - pose proof (IH rest (position + 1) tokens ltac:(lia)) as Hlexed.
      rewrite Hrec in Hlexed. cbn [lexed] in *.
      destruct Hlexed as (produced & -> & Hproduced).
      exists produced. split; [|exact Hproduced].
      cbn [String.length].
      now replace (position + S (String.length rest))
        with (position + 1 + String.length rest) by lia.
    - pose proof (IH rest (position + 1) tokens ltac:(lia)) as Hlexed.
      now rewrite Hrec in Hlexed. }
  destruct (is_letter_ char) eqn:Hletter.
  { pose proof (span_lengths is_identifier_char (String char rest)) as Hlen.
    destruct (span is_identifier_char (String char rest)) as [word rest']
      eqn:Hspan.
    cbn [fst snd] in Hlen.
    assert (Hword : 0 < String.length word).
    { cbn [span] in Hspan. unfold is_identifier_char in Hspan at 1.
      rewrite Hletter in Hspan. cbn [orb] in Hspan.
      injection Hspan as <- _. cbn [String.length]. lia. }
    cbn [String.length] in Hlen.
    eapply lexed_step; [apply IH|apply word_token_type|];
      cbn [String.length]; lia. }
  destruct (is_digit char) eqn:Hdigit.
  { pose proof (number_span_lengths false (String char rest)) as Hlen.
    destruct (number_span false (String char rest)) as [digits rest']
      eqn:Hspan.
    cbn [fst snd] in Hlen.
    assert (Hdigits : 0 < String.length digits).
    { cbn [number_span] in Hspan. rewrite Hdigit in Hspan.
      destruct (Ascii.eqb char "." && negb false);
        injection Hspan as <- _; cbn [String.length]; lia. }
    cbn [String.length] in Hlen.
    eapply lexed_step; [apply IH|discriminate|]; cbn [String.length]; lia. }
  destruct (Ascii.eqb char quote_char).
  { destruct (string_span rest) as [[raw rest']|] eqn:Hspan.
    - apply string_span_lengths in Hspan.
      eapply lexed_step; [apply IH|discriminate|]; cbn [String.length]; lia.
    - right. now exists position. }
  repeat match goal with
         | |- lexed _ _ _ (if ?b then _ else _) => destruct b
         | |- lexed _ _ _ (tokenize_loop _ rest (position + 1) _) =>
             apply Hone; discriminate
         | |- lexed _ _ _ (Err (unexpected_character _ _)) => exact Herror
         end.
  all: destruct rest as [|c r]; try (apply Hone; discriminate);
    try exact Herror.
  all: repeat match goal with
         | |- lexed _ _ _ (match ?c with Ascii _ _ _ _ _ _ _ _ => _ end) =>
             destruct c as [[] [] [] [] [] [] [] []]
         end;
    first [ apply Hone; discriminate
          | eapply Htwo; [reflexivity|discriminate]
          | exact Herror ].
Qed.

(** X20.  The lexer always returns: for any text it either gives the
    tokens of the trimmed text, ended by the end token, which carries the
    length of the trimmed text as its position, no other token being the
    end token; or it raises one of its two errors, for a character that
    starts no token or for a string literal that is not closed. *)
Theorem tokenize_ends_with_EOF (input : string) :
  match tokenize input with
  | Ok tokens =>
      exists produced,
        tokens = produced
                 ++ [token TokenType.EOF "EOF" (String.length (trim input))] /\
        Forall (fun t => tok_type t <> TokenType.EOF) produced
  | Err e => lexer_error e
  end.
Proof.
  unfold tokenize.
  exact (tokenize_loop_lexed (S (String.length (trim input))) (trim input)
           0 [] ltac:(lia)).
Qed.

(** ** Rows with a key that the first row lacks *)

Lemma obj_set_keys {A} (o : list (string * A)) k v x :
  In x (List.map fst (obj_set o k v)) <-> In x (List.map fst o) \/ x = k.
Proof.
  induction o as [|[k0 v0] o IH]; cbn [obj_set List.map fst].
  - cbn. intuition.
  - destruct (String.eqb_spec k0 k) as [->|Hne]; cbn [List.map fst In].
    + intuition.
    + rewrite IH. intuition.
Qed.

Lemma obj_get_absent {A} (o : list (string * A)) k :
  ~ In k (List.map fst o) -> obj_get o k = None.
Proof.
  induction o as [|[k0 v0] o IH]; cbn [obj_get List.map fst In];
    [reflexivity|].
  intros Habsent. destruct (String.eqb_spec k0 k) as [->|_].
  - exfalso. apply Habsent. now left.
  - apply IH. intros Hin. apply Habsent. now right.
Qed.

Lemma init_columns_keys (keys : list string)
    (acc : list (string * list value)) x :
  In x (List.map fst (foldl (fun r key => obj_set r key []) acc keys))
  <-> In x (List.map fst acc) \/ In x keys.
Proof.
  revert acc. induction keys as [|k keys IH]; intros acc; cbn [foldl In].
  - intuition.
  - rewrite IH, obj_set_keys. intuition.
Qed.

Section ForeignKey.

Context (keys : list string).

#[local] Abbreviation push_entry :=
  (fun (acc : result (list (string * list value))) '(key, v) =>
     let* r := acc in
     match push_cell r key v with
     | Some r' => Ok r'
     | None => Err (TypeError_read VUndefined "push")
     end).

Lemma push_entry_keeps acc entry :
  columns_or_error keys acc -> columns_or_error keys (push_entry acc entry).
Proof.
  destruct acc as [r|e], entry as [key v]; cbn [bind columns_or_error];
    [|trivial].
  intros Hkeys. unfold push_cell.
  destruct (obj_get r key) as [arr|] eqn:Hget; cbn [columns_or_error];
    [|reflexivity].
  intros x. rewrite obj_set_keys, Hkeys.
  split; [|now left]. intros [Hin| ->]; [exact Hin|].
  apply Hkeys. destruct (in_dec String.string_dec key (List.map fst r))
    as [Hin|Hout]; [exact Hin|].
  now rewrite obj_get_absent in Hget.
Qed.

Lemma push_entries_keep acc (row : Row) :
  columns_or_error keys acc -> columns_or_error keys (foldl push_entry acc row).
Proof.
  revert acc. induction row as [|entry row IH]; intros acc Hacc;
    cbn [foldl]; [exact Hacc|].
  apply IH. now apply push_entry_keeps.
Qed.

Lemma push_entries_Err e (row : Row) : foldl push_entry (Err e) row = Err e.
Proof.
  induction row as [|[key v] row IH]; cbn [foldl bind];
    [reflexivity|exact IH].
Qed.

Lemma push_foreign_entry acc (row : Row) key v :
  columns_or_error keys acc -> In (key, v) row -> ~ In key keys ->
  foldl push_entry acc row = Err (TypeError_read VUndefined "push").
Proof.
  intros Hacc Hin Hforeign. apply in_split in Hin as (pre & suf & ->).
  rewrite foldl_app. cbn [foldl].
  pose proof (push_entries_keep acc pre Hacc) as Hpre.
  destruct (foldl push_entry acc pre) as [r|e]; cbn [bind columns_or_error]
    in *.
  - unfold push_cell. rewrite obj_get_absent by now rewrite Hpre.
    apply push_entries_Err.
  - subst e. apply push_entries_Err.
Qed.

Lemma push_rows_foreign acc (rows : list Row) row key v :
  columns_or_error keys acc ->
  In row rows -> In (key, v) row -> ~ In key keys ->
  foldl (fun acc row => foldl push_entry acc row) acc rows =
  Err (TypeError_read VUndefined "push").
Proof.
  intros Hacc Hrow Hin Hforeign. apply in_split in Hrow as (pre & suf & ->).
  rewrite foldl_app. cbn [foldl].
  assert (Hpre : columns_or_error keys
                   (foldl (fun acc row => foldl push_entry acc row) acc pre)).
  { clear -Hacc. revert acc Hacc.
    induction pre as [|r pre IH]; intros acc Hacc; cbn [foldl];
      [exact Hacc|].
    apply IH. now apply push_entries_keep. }
  rewrite (push_foreign_entry _ row key v Hpre Hin Hforeign).
  clear. induction suf as [|r suf IH]; cbn [foldl]; [reflexivity|].
  now rewrite push_entries_Err.
Qed.

End ForeignKey.

(** X21.  [arrayToColumnarFormat] takes its columns from the first row
    only: when a row has a key that the first row does not have, it
    raises the TypeError of pushing to a column that does not exist,
    whatever the other rows.  This is for rows none of whose keys is a
    name that the record of the columns inherits, such as [constructor]:
    for such a key the record has a value, and the error is another. *)
Theorem arrayToColumnarFormat_foreign_key firstRow rows row key v :
  Forall (fun row => forallb (fun entry => negb (inherited (fst entry))) row
                     = true)
    (firstRow :: rows) ->
  In row (firstRow :: rows) -> In (key, v) row ->
  ~ In key (List.map fst firstRow) ->
  arrayToColumnarFormat (firstRow :: rows) =
  Err "Cannot read properties of undefined (reading 'push')".
Proof.
  intros _ Hrow Hin Hforeign. unfold arrayToColumnarFormat.
  apply (push_rows_foreign (List.map fst firstRow) _ _ row key v);
    try assumption.
  cbn [columns_or_error]. intros x. rewrite init_columns_keys. cbn.
  intuition.
Qed.

Lemma arrayToColumnarFormat_foreign_key_witness :
  arrayToColumnarFormat
    [[("id", VNum 1)]; [("id", VNum 2); ("name", VStr "Bob")]] =
  Err "Cannot read properties of undefined (reading 'push')".
Proof.
  apply (arrayToColumnarFormat_foreign_key [("id", VNum 1)]
           [[("id", VNum 2); ("name", VStr "Bob")]]
           [("id", VNum 2); ("name", VStr "Bob")] "name" (VStr "Bob")).
  - repeat constructor.
  - right. now left.
  - right. now left.
  - intros [Heq|[]]. discriminate.
Defined.


(** ** Well-typed serialized filters are read *)

Lemma SerializedCondition_nested_ind (P : value -> Prop) :
  (forall props field filter o,
      prop props "type" = VStr "field" ->
      prop props "field" = VStr field ->
      prop props "filter" = VObj filter ->
      prop filter "op" = VStr o -> In o basic_ops ->
      P (VObj props)) ->
  (forall props items,
      prop props "type" = VStr "and" ->
      prop props "conditions" = VArr items ->
      Forall P items -> P (VObj props)) ->
  (forall props items,
      prop props "type" = VStr "or" ->
      prop props "conditions" = VArr items ->
      Forall P items -> P (VObj props)) ->
  (forall props condition,
      prop props "type" = VStr "not" ->
      prop props "condition" = condition ->
      P condition -> P (VObj props)) ->
  forall v, SerializedCondition v -> P v.
Proof.
  intros Hfield Hand Hor Hnot. fix IH 2.
  intros v [props field filter o H1 H2 H3 H4 H5
           |props items H1 H2 Hitems
           |props items H1 H2 Hitems
           |props condition H1 H2 Hcondition].
  - now apply (Hfield props field filter o).
  - apply (Hand props items H1 H2). clear H2.
    induction Hitems as [|item items Hitem _ IHitems];
      [constructor | constructor; [now apply IH | exact IHitems]].
  - apply (Hor props items H1 H2). clear H2.
    induction Hitems as [|item items Hitem _ IHitems];
      [constructor | constructor; [now apply IH | exact IHitems]].
  - apply (Hnot props condition H1 H2). now apply IH.
Qed.

(** The scan of the properties for [conditions] finds what [prop]
    reads. *)
Lemma conditions_of_prop (props : list (string * value)) items :
  prop props "conditions" = VArr items ->
  (fix conditions_of (ps : list (string * value))
     : result (list FilterCondition) :=
     match ps with
     | [] => Err (TypeError_read VUndefined "map")
     | (k, x) :: rest =>
         if String.eqb k "conditions" then
           match x with
           | VArr items =>
               (fix each (items : list value)
                  : result (list FilterCondition) :=
                  match items with
                  | [] => Ok []
                  | condition :: more =>
                      let* c := deserializeFilter condition in
                      let* cs := each more in
                      Ok (c :: cs)
                  end) items
           | VNull | VUndefined => Err (TypeError_read x "map")
           | _ => Err "serialized.conditions.map is not a function"
           end
         else conditions_of rest
     end) props =
  deserializeFilters (VArr items).
Proof.
  unfold prop. induction props as [|[k x] props IH]; cbn [obj_get];
    [discriminate|].
  destruct (String.eqb k "conditions"); [|exact IH].
  now intros ->.
Qed.

Lemma condition_of_prop (props : list (string * value)) condition :
  prop props "condition" = condition -> condition <> VUndefined ->
  (fix condition_of (ps : list (string * value)) : result FilterCondition :=
     match ps with
     | [] => Err (TypeError_read VUndefined "type")
     | (k, x) :: rest =>
         if String.eqb k "condition" then deserializeFilter x
         else condition_of rest
     end) props =
  deserializeFilter condition.
Proof.
  unfold prop. induction props as [|[k x] props IH]; cbn [obj_get].
  - intros <- Hdefined. now contradiction Hdefined.
  - destruct (String.eqb k "condition"); [|exact IH].
    now intros ->.
Qed.

Lemma deserializeFilters_each items :
  Forall (fun v => exists c, deserializeFilter v = Ok c) items ->
  exists filters,
    deserializeFilters (VArr items) = Ok filters /\
    length filters = length items.
Proof.
  induction 1 as [|item items (c & Hc) _ (filters & Hfilters & Hlen)].
  - now exists [].
  - exists (c :: filters). cbn [deserializeFilters] in *.
    rewrite Hc. cbn [bind]. rewrite Hfilters. cbn [bind length].
    split; [reflexivity | now rewrite Hlen].
Qed.

Lemma deserializeFilter_typed v :
  SerializedCondition v -> exists c, deserializeFilter v = Ok c.
Proof.
  intros Htyped.
  induction Htyped as [props field filter o Htype Hfield Hfilter Hop Hin
                      |props items Htype Hconditions IH
                      |props items Htype Hconditions IH
                      |props condition Htype Hcondition IH]
    using SerializedCondition_nested_ind.
  - cbn [deserializeFilter]. rewrite Htype, Hfilter. cbn.
    eexists. reflexivity.
  - destruct (deserializeFilters_each items IH) as (filters & Hfilters & _).
    cbn [deserializeFilter]. rewrite Htype. cbn [strict_eq String.eqb].
    cbn. rewrite (conditions_of_prop props items Hconditions), Hfilters.
    cbn [bind]. eexists. reflexivity.
  - destruct (deserializeFilters_each items IH) as (filters & Hfilters & _).
    cbn [deserializeFilter]. rewrite Htype. cbn.
    rewrite (conditions_of_prop props items Hconditions), Hfilters.
    cbn [bind]. eexists. reflexivity.
  - destruct IH as (c & Hc).
    cbn [deserializeFilter]. rewrite Htype. cbn.
    rewrite (condition_of_prop props condition Hcondition), Hc.
    + cbn [bind]. eexists. reflexivity.
    + intros ->. discriminate.
Qed.

(** X22.  A JSON text that holds an array of serialized conditions of the
    declared types is read: [filtersFromJson] returns one condition per
    entry, and [filterFromJson] returns the store that [filter] returns
    for these conditions, not the unfiltered fallback. *)
Theorem typed_filters_are_read (JSON_parse : string -> result value)
    (StringToNumber : string -> option Z) h this json items :
  JSON_parse json = Ok (VArr items) ->
  Forall SerializedCondition items ->
  exists filters,
    filtersFromJson JSON_parse json = Ok filters /\
    length filters = length items /\
    filterFromJson JSON_parse StringToNumber h this json =
    filter_ StringToNumber h this filters.
Proof.
  intros Hparse Htyped.
  destruct (deserializeFilters_each items) as (filters & Hfilters & Hlen).
  { eapply Forall_impl; [exact Htyped|]. apply deserializeFilter_typed. }
  exists filters. unfold filterFromJson, filtersFromJson.
  rewrite Hparse. cbn [bind]. rewrite Hfilters. now split.
Qed.

Lemma typed_filters_are_read_witness :
  exists filters,
    filtersFromJson JSON_parse_int (filtersToJson [NOT age_above_26]) =
    Ok filters /\
    length filters = 1 /\
    filterFromJson JSON_parse_int decimal_StringToNumber people_heap 0
      (filtersToJson [NOT age_above_26]) =
    filter_ decimal_StringToNumber people_heap 0 filters.
Proof.
  apply (typed_filters_are_read JSON_parse_int decimal_StringToNumber
           people_heap 0 (filtersToJson [NOT age_above_26])
           [serializeFilter (NOT age_above_26)]).
  - vm_compute. reflexivity.
  - constructor; [|constructor].
    eapply ser_not; [reflexivity|reflexivity|].
    eapply ser_field; try reflexivity. cbn. tauto.
Defined.


(** ** Columns by name *)

Lemma findIndex_bounds {A} (p : A -> bool) (l : list A) :
  (-1 <= findIndex p l < Z.of_nat (length l))%Z.
Proof.
  induction l as [|x l IH]; cbn [findIndex length]; [lia|].
  destruct (p x); [lia|].
  destruct (Z.ltb_spec (findIndex p l) 0); lia.
Qed.

Lemma findIndex_absent {A} (p : A -> bool) (l : list A) :
  existsb p l = false -> findIndex p l = (-1)%Z.
Proof.
  induction l as [|x l IH]; cbn [findIndex existsb]; [reflexivity|].
  destruct (p x); [discriminate|]. cbn [orb]. intros Hl.
  now rewrite (IH Hl).
Qed.

(** In a table whose columns are named as [names] says, the column at
    the first position of a name is the first column of that name. *)
Lemma getChild_findIndex (table : Table) (cols : list ColumnSchema)
    columnName :
  List.map name cols = fieldNamesOf table ->
  let i := findIndex (fun col => String.eqb (name col) columnName) cols in
  getChild table (VStr columnName) =
  if (i <? 0)%Z then None else snd <$> table !! Z.to_nat i.
Proof.
  revert table. induction cols as [|col cols IH]; intros table Hnames;
    destruct table as [|[f vector] table]; try discriminate.
  - reflexivity.
  - cbn [List.map fieldNamesOf fst] in Hnames.
    injection Hnames as Hname Hnames.
    cbn [findIndex getChild strict_eq]. rewrite Hname.
    destruct (String.eqb f columnName); [reflexivity|].
    specialize (IH table Hnames). cbv zeta in IH. rewrite IH.
    pose proof (findIndex_bounds
                  (fun col => String.eqb (name col) columnName) cols)
      as Hbounds.
    destruct (Z.ltb_spec
                (findIndex (fun col => String.eqb (name col) columnName) cols)
                0) as [Hneg|Hpos]; [reflexivity|].
    destruct (Z.ltb_spec
                (findIndex (fun col => String.eqb (name col) columnName) cols
                 + 1) 0); [lia|].
    rewrite Z2Nat.inj_add by lia. rewrite Nat.add_comm. reflexivity.
Qed.

(** X23.  [getColumn] looks the name up in the schema of the store and
    reads the column at that position from the table that the store
    holds, pending operations being left alone.  For a name that the
    schema does not list it returns [null], whatever the table has; when
    the columns of the schema are named like the columns of the table,
    in the same order, it returns the column of that name. *)
Theorem getColumn_by_schema_position (store : ArrowStore) columnName :
  (existsb (fun col => String.eqb (name col) columnName)
     (columns (schema_ store)) = false ->
   getColumn store columnName = None) /\
  (List.map name (columns (schema_ store)) = fieldNamesOf (table_ store) ->
   getColumn store columnName = getChild (table_ store) (VStr columnName)).
Proof.
  unfold getColumn, getColumnAt. split.
  - intros Habsent. now rewrite findIndex_absent.
  - intros Hnames.
    rewrite (getChild_findIndex _ _ columnName Hnames). cbv zeta.
    pose proof (findIndex_bounds
                  (fun col => String.eqb (name col) columnName)
                  (columns (schema_ store))) as Hbounds.
    destruct (Z.ltb_spec
                (findIndex (fun col => String.eqb (name col) columnName)
                   (columns (schema_ store))) 0); [reflexivity|].
    cbn [orb].
    destruct (Z.leb_spec
                (Z.of_nat (length (columns (schema_ store))))
                (findIndex (fun col => String.eqb (name col) columnName)
                   (columns (schema_ store)))); [lia|reflexivity].
Qed.

Lemma getColumn_by_schema_position_witness :
  getColumn {| table_ := people; schema_ := renamed_schema;
               pendingOperations := [] |} "age" = None /\
  getColumn {| table_ := people; schema_ := people_schema;
               pendingOperations := [] |} "age" =
  getChild people (VStr "age").
Proof.
  split.
  - apply (proj1 (getColumn_by_schema_position
                    {| table_ := people; schema_ := renamed_schema;
                       pendingOperations := [] |} "age")).
    reflexivity.
  - apply (proj2 (getColumn_by_schema_position
                    {| table_ := people; schema_ := people_schema;
                       pendingOperations := [] |} "age")).
    reflexivity.
Defined.


(** ** Aggregations *)

Lemma sum_integers (cells : list value) (total : Z) :
  Forall (fun v => match v with VNum _ => True | _ => False end) cells ->
  foldl (fun sum val =>
           match sum with
           | Some s => js_add s val
           | None => None
           end)
    (Some (VNum total)) cells =
  Some (VNum (foldl Z.add total (numbers_of cells))).
Proof.
  intros Hcells. revert total.
  induction Hcells as [|v cells Hv _ IH]; intros total; [reflexivity|].
  destruct v; try contradiction. cbn [foldl js_add]. apply IH.
Qed.

Lemma numbers_of_filter (cells : list value) :
  numbers_of (List.filter (fun val => negb (is_nullish val)) cells) =
  numbers_of cells.
Proof.
  unfold numbers_of. induction cells as [|v cells IH]; [reflexivity|].
  cbn [List.filter]. destruct v; simpl; first [exact IH | f_equal; exact IH].
Qed.

Lemma sum_is_defined (cells : list value) (sum : value) :
  number_or_string sum ->
  Forall (fun v => is_nullish v = false) cells ->
  exists result,
    foldl (fun sum val =>
             match sum with
             | Some s => js_add s val
             | None => None
             end)
      (Some sum) cells = Some result /\
    number_or_string result.
Proof.
  intros Hsum Hcells. revert sum Hsum.
  induction Hcells as [|v cells Hv _ IH]; intros sum Hsum; cbn [foldl].
  - now exists sum.
  - assert (Hstep : exists next,
               js_add sum v = Some next /\ number_or_string next).
    { destruct sum as [| | |x|x| |]; try contradiction;
        destruct v as [| |b|y|y|items|props]; try discriminate;
        cbn [js_add]; eexists; (split; [reflexivity|exact I]). }
    destruct Hstep as (next & -> & Hnext). now apply IH.
Qed.

Lemma foldl_set_add_spec (cells set : list value) :
  Forall (fun v => primitive v = true) cells -> NoDup set ->
  NoDup (foldl set_add set cells) /\
  forall x, In x (foldl set_add set cells) <-> In x set \/ In x cells.
Proof.
  intros Hcells. revert set.
  induction Hcells as [|v cells Hv _ IH]; intros set Hnodup; cbn [foldl].
  - split; [exact Hnodup|]. intros x. cbn. tauto.
  - destruct (set_add_spec set v Hv Hnodup) as [Hnodup' Hadd].
    destruct (IH _ Hnodup') as [Hdistinct Hmembers].
    split; [exact Hdistinct|]. intros x. rewrite Hmembers, Hadd. cbn.
    intuition.
Qed.

(** X24.  The aggregations of [Aggregations], for a field that is not a
    name that the records inherit: [sum(field)] leaves out the records
    whose field is null or undefined and adds the others to 0 in order,
    which gives a number or a string, a string once a string is met;
    when the fields are integers that JavaScript adds exactly (their
    absolute values add up to 2^53 at most), it is their sum, 0 for
    none.  [countDistinct(field)] is the number of distinct values of
    the field that are not null or undefined, for primitive values. *)
Theorem aggregations_spec (field : string) (values : list Row) :
  inherited field = false ->
  let cells := List.map (fun record => prop record field) values in
  (exists result,
      Aggregations_sum field values = Some result /\
      number_or_string result) /\
  (Forall (fun v => match v with
                    | VNum _ | VNull | VUndefined => True
                    | _ => False
                    end) cells ->
   safe_to_add (numbers_of cells) ->
   Aggregations_sum field values =
   Some (VNum (foldl Z.add 0%Z (numbers_of cells)))) /\
  (Forall (fun v => primitive v = true) cells ->
   exists distinct,
     NoDup distinct /\
     (forall x, In x distinct <-> In x cells /\ is_nullish x = false) /\
     Aggregations_countDistinct field values = length distinct).
Proof.
  intros _ cells. unfold Aggregations_sum, Aggregations_countDistinct,
    field_values. fold cells. split; [|split].
  - apply sum_is_defined; [exact I|].
    apply List.Forall_forall. intros v [_ Hv]%List.filter_In.
    now apply negb_true_iff.
  - intros Hcells _. rewrite sum_integers.
    + now rewrite numbers_of_filter.
    + apply List.Forall_forall. intros v [Hin Hv]%List.filter_In.
      rewrite List.Forall_forall in Hcells. specialize (Hcells v Hin).
      now destruct v.
  - intros Hcells.
    destruct (foldl_set_add_spec
                (List.filter (fun val => negb (is_nullish val)) cells) [])
      as [Hdistinct Hmembers].
    + apply List.Forall_forall. intros v [Hin _]%List.filter_In.
      rewrite List.Forall_forall in Hcells. now apply Hcells.
    + constructor.
    + eexists. split; [exact Hdistinct|]. split; [|reflexivity].
      intros x. rewrite Hmembers, List.filter_In, negb_true_iff. cbn.
      tauto.
Qed.

Lemma aggregations_spec_witness :
  Aggregations_sum "sales" (toArray sales) = Some (VNum 370) /\
  exists distinct,
    NoDup distinct /\
    (forall x, In x distinct <->
               In x [VStr "North"; VStr "North"; VStr "South"] /\
               is_nullish x = false) /\
    Aggregations_countDistinct "region" (toArray sales) = length distinct.
Proof.
  split.
  - apply (proj1 (proj2 (aggregations_spec "sales" (toArray sales)
                           eq_refl))).
    + repeat constructor.
    + unfold safe_to_add. cbn. lia.
  - apply (proj2 (proj2 (aggregations_spec "region" (toArray sales)
                           eq_refl))).
    repeat constructor.
Defined.


(** ** Pages and slices *)

Lemma toArray_rows table :
  toArray table = List.map (row_of table) (seq 0 (numRows table)).
Proof. reflexivity. Qed.

Lemma rows_slice table start stop :
  stop <= numRows table ->
  toArray (table_slice table start stop) =
  take (stop - start) (drop start (toArray table)).
Proof.
  intros Hstop. rewrite toArray_table_slice, toArray_rows by assumption.
  rewrite <- fmap_drop, <- fmap_take, drop_seq, take_seq.
  do 2 f_equal. lia.
Qed.

Lemma concat_chunks {A} (size : nat) (l : list A) (count : nat) :
  length l <= count * size ->
  concat (List.map (fun p => take size (drop (p * size) l)) (seq 0 count)) = l.
Proof.
  revert l. induction count as [|count IH]; intros l Hlen.
  - destruct l; [reflexivity | cbn in Hlen; lia].
  - cbn [seq List.map concat]. rewrite <- seq_shift, List.map_map.
    rewrite Nat.mul_0_l, drop_0.
    transitivity (take size l ++ drop size l); [|apply take_drop].
    f_equal.
    etransitivity;
      [|apply (IH (drop size l)); rewrite length_drop; lia].
    f_equal. apply List.map_ext. intros p.
    rewrite drop_drop. reflexivity.
Qed.

(** X25.  [paginate] and [slice] inside the table.  With a page size
    above 0, the page [page] from 1 on that starts inside the table holds
    the rows from the one numbered [page - 1] times [pageSize] on, at
    most [pageSize] of them;
    the pages 1 to [ceil(numRows / pageSize)] hold every row once, in
    the order of the table.  [slice(start, end)] for
    [0 <= start <= end <= numRows] holds the rows from [start] to before
    [end].  Neither changes the schema. *)
Theorem pages_partition_rows (Table_slice : Table -> Z -> Z -> Table)
    (schema : TableSchema) (table : Table) (pageSize : Z) :
  slices_in_range Table_slice ->
  (0 < pageSize)%Z ->
  let size := Z.to_nat pageSize in
  (forall page : Z,
      (1 <= page)%Z ->
      ((page - 1) * pageSize <= Z.of_nat (numRows table))%Z ->
      exists paged,
        paginate_executor Table_slice page pageSize schema table =
        Ok {| res_table := paged; res_schema := None |} /\
        toArray paged =
        take size (drop (Z.to_nat (page - 1) * size) (toArray table))) /\
  concat (List.map (fun page =>
                      page_rows Table_slice schema table (Z.of_nat page)
                        pageSize)
            (seq 1 ((numRows table + size - 1) / size))) =
  toArray table /\
  (forall start stop : Z,
      (0 <= start <= stop)%Z -> (stop <= Z.of_nat (numRows table))%Z ->
      exists sliced,
        slice_executor Table_slice start stop schema table =
        Ok {| res_table := sliced; res_schema := None |} /\
        toArray sliced =
        take (Z.to_nat (stop - start))
          (drop (Z.to_nat start) (toArray table))).
Proof.
  intros Hslice Hsize size.
  assert (Hpage : forall page : Z,
             (1 <= page)%Z ->
             ((page - 1) * pageSize <= Z.of_nat (numRows table))%Z ->
             toArray
               (Table_slice table ((page - 1) * pageSize)%Z
                  (Z.min ((page - 1) * pageSize + pageSize)
                     (Z.of_nat (numRows table)))) =
             take size (drop (Z.to_nat (page - 1) * size) (toArray table))).
  { intros page Hpage Hstart.
    rewrite Hslice by nia. rewrite rows_slice by lia.
    replace (Z.to_nat ((page - 1) * pageSize))
      with (Z.to_nat (page - 1) * size) by (unfold size; nia).
    set (start := Z.to_nat (page - 1) * size).
    assert (Hin : start <= numRows table) by (unfold start, size; nia).
    apply list_eq. intros i.
    destruct (decide (i < Z.to_nat (Z.min ((page - 1) * pageSize + pageSize)
                                      (Z.of_nat (numRows table))) - start))
      as [Hi|Hi].
    - rewrite !lookup_take_lt; [reflexivity | unfold start, size in *; nia
                                | exact Hi].
    - rewrite lookup_take_ge by lia.
      destruct (decide (i < size)) as [Hi'|Hi'].
      + rewrite lookup_take_lt by exact Hi'.
        symmetry. apply lookup_ge_None_2.
        rewrite length_drop, toArray_rows, length_map, length_seq.
        unfold start, size in *. nia.
      + now rewrite lookup_take_ge by lia. }
  split; [|split].
  - intros page H1 Hstart. eexists. split; [reflexivity|].
    now apply Hpage.
  - assert (Hpos : 0 < size) by (unfold size; lia).
    rewrite <- seq_shift, List.map_map.
    set (count := (numRows table + size - 1) / size).
    assert (Hcount : numRows table <= count * size
                     /\ count * size < numRows table + size).
    { unfold count.
      pose proof (Nat.div_mod_eq (numRows table + size - 1) size) as Hdiv.
      pose proof (Nat.mod_upper_bound (numRows table + size - 1) size
                    ltac:(lia)) as Hmod.
      split; nia. }
    destruct Hcount as [Hcount Hlast].
    etransitivity;
      [|apply (concat_chunks size (toArray table) count);
        rewrite toArray_rows, length_map, length_seq; exact Hcount].
    f_equal. apply List.map_ext_in. intros p Hp%in_seq.
    unfold page_rows, paginate_executor. cbv zeta. cbn [res_table].
    destruct (decide (p * size <= numRows table)) as [Hin|Hout].
    + rewrite Hpage by nia. do 3 f_equal. lia.
    + exfalso. nia.
  - intros start stop Hrange Hstop. eexists. split; [reflexivity|].
    rewrite Hslice by assumption. rewrite rows_slice by lia.
    do 2 f_equal. lia.
Qed.

Lemma pages_partition_rows_witness :
  let Table_slice := fun table start stop =>
                       table_slice table (Z.to_nat start) (Z.to_nat stop) in
  concat (List.map (fun page =>
                      page_rows Table_slice people_schema people
                        (Z.of_nat page) 2)
            [1; 2]) =
  toArray people.
Proof.
  intros Table_slice.
  refine (proj1 (proj2 (pages_partition_rows Table_slice people_schema
                          people 2 _ _))).
  - intros table start stop _ _. reflexivity.
  - reflexivity.
Defined.


(** ** Rows as a map *)

Lemma Map_get_set {V} (map : list (value * V)) key v key' :
  Map_get (Map_set map key v) key' =
  if strict_eq key key' then Some v else Map_get map key'.
Proof.
  induction map as [|[k v0] map IH]; cbn [Map_set Map_get];
    [reflexivity|].
  destruct (strict_eq k key) eqn:Hk; cbn [Map_get].
  - apply strict_eq_eq in Hk. subst k.
    now destruct (strict_eq key key').
  - destruct (strict_eq k key') eqn:Hk'; [|exact IH].
    apply strict_eq_eq in Hk'. subst key'.
    now rewrite strict_eq_sym, Hk.
Qed.

Lemma Map_set_keys {V} (map : list (value * V)) key v :
  List.map fst (Map_set map key v) = set_add (List.map fst map) key.
Proof.
  unfold set_add.
  induction map as [|[k v0] map IH]; cbn [Map_set List.map existsb fst];
    [reflexivity|].
  destruct (strict_eq k key); cbn [orb List.map fst]; [reflexivity|].
  rewrite IH. now destruct (existsb _ _).
Qed.

Lemma last_filter_snoc {A} (p : A -> bool) (l : list A) (x : A) :
  last (List.filter p (l ++ [x])) =
  if p x then Some x else last (List.filter p l).
Proof.
  rewrite List.filter_app. cbn [List.filter].
  destruct (p x); [apply last_snoc | now rewrite app_nil_r].
Qed.

Section ToMapProofs.

Context (keyFn : Row -> result value).
Context (valueFn : option (Row -> result value)).

Lemma toMap_step_Err e (l : list Row) :
  foldl (toMap_step keyFn valueFn) (Err e) l = Err e.
Proof. induction l as [|x l IH]; [reflexivity | exact IH]. Qed.

Lemma toMap_rows_fold table :
  toMap_rows keyFn valueFn table =
  foldl (toMap_step keyFn valueFn) (Ok []) (toArray table).
Proof.
  unfold toMap_rows.
  change (toArray table)
    with (List.map (row_of table) (seq 0 (numRows table))).
  destruct (Nat.eqb_spec (numRows table) 0) as [->|Hrows]; [reflexivity|].
  cbv zeta.
  assert (Hsize : 0 < 10000) by (apply Nat.ltb_lt; reflexivity).
  rewrite <- (batched_indices_seq (numRows table) 10000 Hsize). clear Hsize.
  unfold batched_indices, batches. rewrite concat_map, foldl_concat.
  rewrite !foldl_map.
  generalize (batch_starts (numRows table) 0 (numRows table) 10000).
  intros starts. generalize (@Ok (list (value * value)) []).
  induction starts as [|i starts IH]; intros acc; cbn [foldl];
    [reflexivity|].
  rewrite <- IH. f_equal.
  destruct acc as [resultMap|e]; cbn [bind].
  - rewrite toArray_table_slice by lia. reflexivity.
  - rewrite toMap_step_Err.
    generalize (toArray (table_slice table i
                           (Nat.min (i + 10000) (numRows table)))).
    intros l. induction l as [|x l IHl]; [reflexivity|exact IHl].
Qed.

Lemma toMap_fold_total (key val : Row -> value) (rows : list Row) map :
  Forall (fun row =>
            keyFn row = Ok (key row) /\
            match valueFn with
            | Some f => f row
            | None => Ok (VObj row)
            end = Ok (val row)) rows ->
  foldl (toMap_step keyFn valueFn) (Ok map) rows =
  Ok (foldl (fun map row => Map_set map (key row) (val row)) map rows).
Proof.
  intros Hrows. revert map.
  induction Hrows as [|row rows [Hkey Hval] _ IH]; intros map;
    cbn [foldl]; [reflexivity|].
  unfold toMap_step at 2. cbn [bind]. rewrite Hkey. cbn [bind].
  rewrite Hval. cbn [bind]. apply IH.
Qed.

End ToMapProofs.

Lemma toMap_fold_get (key val : Row -> value) (rows : list Row) k :
  Map_get (foldl (fun map row => Map_set map (key row) (val row)) [] rows) k =
  val <$> last (List.filter (fun row => strict_eq (key row) k) rows).
Proof.
  induction rows as [|row rows IH] using rev_ind; [reflexivity|].
  rewrite foldl_app. cbn [foldl].
  rewrite Map_get_set, last_filter_snoc.
  destruct (strict_eq (key row) k); [reflexivity|exact IH].
Qed.

Lemma toMap_fold_keys (key val : Row -> value) (rows : list Row) map :
  List.map fst
    (foldl (fun map row => Map_set map (key row) (val row)) map rows) =
  foldl set_add (List.map fst map) (List.map key rows).
Proof.
  revert map. induction rows as [|row rows IH]; intros map;
    cbn [foldl List.map]; [reflexivity|].
  now rewrite IH, Map_set_keys.
Qed.

(** X26.  [toMap] on a store whose table resolves, with functions that
    return for every row and keys that are primitive values: the map has
    one entry per distinct key, and the entry of a key holds the value of
    the last row that has this key. *)
Theorem toMap_last_row_wins (keyFn : Row -> result value)
    (valueFn : option (Row -> result value)) (key val : Row -> value)
    (h : Heap) (this : nat) (h' : Heap) (table : Table) :
  resolveTable h this = (h', Ok table) ->
  Forall (fun row =>
            primitive (key row) = true /\
            keyFn row = Ok (key row) /\
            match valueFn with
            | Some f => f row
            | None => Ok (VObj row)
            end = Ok (val row)) (toArray table) ->
  exists resultMap,
    toMap keyFn valueFn h this = (h', Ok resultMap) /\
    NoDup (List.map fst resultMap) /\
    (forall k, In k (List.map fst resultMap) <->
               exists row, In row (toArray table) /\ key row = k) /\
    (forall k,
        Map_get resultMap k =
        val <$> last (List.filter (fun row => strict_eq (key row) k)
                        (toArray table))).
Proof.
  intros Hresolve Hrows. unfold toMap. rewrite Hresolve. cbn [bind].
  rewrite toMap_rows_fold.
  rewrite (toMap_fold_total keyFn valueFn key val)
    by (eapply Forall_impl; [exact Hrows|]; cbn; tauto).
  eexists. split; [reflexivity|].
  destruct (foldl_set_add_spec (List.map key (toArray table)) [])
    as [Hdistinct Hmembers].
  { apply Forall_map. eapply Forall_impl; [exact Hrows|]. cbn. tauto. }
  { constructor. }
  rewrite (toMap_fold_keys key val _ []). cbn [List.map].
  split; [exact Hdistinct|]. split.
  - intros k. rewrite Hmembers, in_map_iff. split.
    + intros [[]|(row & <- & Hin)]. now exists row.
    + intros (row & Hin & <-). right. now exists row.
  - apply toMap_fold_get.
Qed.

Lemma toMap_last_row_wins_witness :
  exists resultMap,
    toMap (fun row => Ok (prop row "id")) None orders_heap 1 =
    (orders_heap, Ok resultMap) /\
    NoDup (List.map fst resultMap) /\
    (forall k, In k (List.map fst resultMap) <->
               exists row, In row (toArray orders) /\
                           prop row "id" = k) /\
    (forall k,
        Map_get resultMap k =
        VObj <$> last (List.filter
                         (fun row => strict_eq (prop row "id") k)
                         (toArray orders))).
Proof.
  apply (toMap_last_row_wins (fun row => Ok (prop row "id")) None
           (fun row => prop row "id") VObj orders_heap 1 orders_heap
           orders).
  - reflexivity.
  - repeat constructor.
Defined.


(** ** Grouping *)

Lemma map_push_lookup valueToIndices c i key :
  map_get (map_push valueToIndices c i) key =
  if strict_eq c key
  then Some (default [] (map_get valueToIndices key) ++ [i])
  else map_get valueToIndices key.
Proof.
  induction valueToIndices as [|[k indices] rest IH];
    cbn [map_push map_get].
  - now destruct (strict_eq c key).
  - destruct (strict_eq k c) eqn:Hk; cbn [map_get].
    + apply strict_eq_eq in Hk. subst k.
      now destruct (strict_eq c key).
    + destruct (strict_eq k key) eqn:Hk'; [|exact IH].
      apply strict_eq_eq in Hk'. subst key.
      now rewrite strict_eq_sym, Hk.
Qed.

(** The first pass, over any row indices: the set holds the cells that
    are not null, and the map gives for a value the indices of the rows
    that have it. *)
Lemma groupBy_groups_fold (groupByVector : Vector) (rows : list nat) :
  let groups :=
    foldl (fun '(uniqueValues, valueToIndices) i =>
             let value := get groupByVector i in
             if is_nullish value then (uniqueValues, valueToIndices)
             else (set_add uniqueValues value,
                   map_push valueToIndices value i))
      ([], []) rows in
  fst groups =
  foldl set_add []
    (List.filter (fun v => negb (is_nullish v))
       (List.map (get groupByVector) rows)) /\
  forall key,
    map_get (snd groups) key =
    match List.filter (fun i => negb (is_nullish (get groupByVector i))
                                && strict_eq (get groupByVector i) key)
            rows with
    | [] => None
    | indices => Some indices
    end.
Proof.
  induction rows as [|i rows IH] using rev_ind; [now split|].
  cbv zeta in *. rewrite foldl_app. cbn [foldl].
  destruct (foldl _ _ rows) as [uniqueValues valueToIndices].
  cbn [fst snd] in IH. destruct IH as [Hset Hmap].
  rewrite List.map_app, List.filter_app, foldl_app. cbn [List.map List.filter].
  destruct (is_nullish (get groupByVector i)) eqn:Hnull;
    cbn [negb fst snd foldl].
  - split; [exact Hset|]. intros key. rewrite Hmap, List.filter_app.
    cbn [List.filter]. rewrite Hnull. cbn [negb andb].
    now rewrite app_nil_r.
  - split; [now rewrite Hset|]. intros key.
    rewrite map_push_lookup, Hmap, List.filter_app. cbn [List.filter].
    rewrite Hnull. cbn [negb andb].
    destruct (strict_eq (get groupByVector i) key).
    + destruct (List.filter _ rows); reflexivity.
    + now rewrite app_nil_r.
Qed.

Section GroupByProofs.

Context (NaN : value).
Context (js_divide : value -> nat -> value).
Context (Math_min Math_max : list value -> value).

Lemma aggregate_group_aggregates table aggFn f indices :
  aggregates table aggFn f ->
  aggregate_group NaN js_divide Math_min Math_max table indices aggFn =
  Ok (f indices).
Proof.
  intros [aggFn' Hname|aggFn' source sourceVector Hname Hsource Hs Hchild
                         Hcells _|aggFn' g Hname Hcall];
    unfold aggregate_group; cbv zeta; rewrite Hname.
  - cbn.
    now destruct (sourceField aggFn') as [s|]; [destruct (s =? "")%string|].
  - rewrite Hsource. apply String.eqb_neq in Hs. rewrite Hs.
    cbn [optimizable existsb String.eqb Ascii.eqb Bool.eqb orb andb].
    cbn. rewrite Hchild. cbn. f_equal. unfold reduce_add.
    rewrite sum_integers.
    + cbn [default]. now rewrite numbers_of_filter.
    + apply List.Forall_forall.
      intros v [(i & <- & _)%in_map_iff Hv]%List.filter_In.
      unfold get in *.
      destruct (nth_in_or_default i sourceVector VNull) as [Hin|Hdefault].
      * unfold integer_column in Hcells.
        rewrite List.Forall_forall in Hcells. specialize (Hcells _ Hin).
        now destruct (nth i sourceVector VNull).
      * now rewrite Hdefault in Hv.
  - now rewrite Hcall.
Qed.

(** The aggregations of one group: every aggregation adds its cell to
    its column. *)
Lemma aggregate_one_group table (indices : list nat)
    (cells : (list nat -> value) -> list value)
    (front : list (string * list value))
    (suf pre : list (string * Aggregation * (list nat -> value))) :
  NoDup (List.map fst front
         ++ List.map (fun spec => fst (fst spec)) (pre ++ suf)) ->
  Forall (fun spec => aggregates table (snd (fst spec)) (snd spec)) suf ->
  foldl (fun acc '(aggField, aggFn) =>
           let* r := acc in
           let* cell :=
             match Some indices with
             | Some indices =>
                 aggregate_group NaN js_divide Math_min Math_max table
                   indices aggFn
             | None =>
                 Err (TypeError_read VUndefined
                        (if String.eqb (agg_name aggFn) "count"
                         then "length" else "map"))
             end in
           match push_cell r aggField cell with
           | Some r' => Ok r'
           | None => Err (TypeError_read VUndefined "push")
           end)
    (Ok (front
         ++ List.map (fun spec => (fst (fst spec),
                                   cells (snd spec) ++ [snd spec indices]))
              pre
         ++ List.map (fun spec => (fst (fst spec), cells (snd spec))) suf))
    (List.map fst suf) =
  Ok (front
      ++ List.map (fun spec => (fst (fst spec),
                                cells (snd spec) ++ [snd spec indices]))
           (pre ++ suf)).
Proof.
  revert pre. induction suf as [|[[k aggFn] f] suf IH];
    intros pre Hnodup Haggregates; cbn [foldl List.map].
  - now rewrite !app_nil_r.
  - inversion_clear Haggregates as [|? ? Hf Hsuf]. cbn [fst snd] in *.
    cbn [bind]. rewrite (aggregate_group_aggregates _ _ f) by exact Hf.
    cbn [bind]. unfold push_cell.
    assert (Hfresh :
              ~ In k (List.map fst
                        (front
                         ++ List.map
                              (fun spec =>
                                 (fst (fst spec),
                                  cells (snd spec) ++ [snd spec indices]))
                              pre))).
    { rewrite List.map_app, List.map_map. cbn [fst].
      rewrite List.map_app in Hnodup. cbn [List.map fst] in Hnodup.
      rewrite app_assoc in Hnodup.
      apply NoDup_app in Hnodup. destruct Hnodup as (_ & Hdisj & _).
      intros Hin. apply (Hdisj k); [now apply list_elem_of_In|].
      apply list_elem_of_In. now left. }
    rewrite app_assoc.
    rewrite obj_get_entry, obj_set_entry by exact Hfresh.
    replace (pre ++ (k, aggFn, f) :: suf)
      with ((pre ++ [(k, aggFn, f)]) ++ suf) in *
      by now rewrite <- app_assoc.
    rewrite <- (IH (pre ++ [(k, aggFn, f)]) Hnodup Hsuf).
    rewrite List.map_app. cbn [List.map fst snd].
    now rewrite <- !app_assoc.
Qed.

End GroupByProofs.

Section GroupByTheorems.

Context (NaN : value).
Context (js_divide : value -> nat -> value).
Context (Math_min Math_max : list value -> value).

(** The second pass: one cell per group in every aggregation column. *)
Lemma aggregate_groups table (valueToIndices : list (value * list nat))
    (indices_of : value -> list nat)
    (front : list (string * list value))
    (specs : list (string * Aggregation * (list nat -> value)))
    (todo done : list value) :
  NoDup (List.map fst front
         ++ List.map (fun spec => fst (fst spec)) specs) ->
  Forall (fun spec => aggregates table (snd (fst spec)) (snd spec)) specs ->
  Forall (fun value =>
            map_get valueToIndices value = Some (indices_of value)) todo ->
  foldl (fun acc value =>
           let* r := acc in
           let indices := map_get valueToIndices value in
           foldl (fun acc '(aggField, aggFn) =>
                    let* r := acc in
                    let* cell :=
                      match indices with
                      | Some indices =>
                          aggregate_group NaN js_divide Math_min Math_max
                            table indices aggFn
                      | None =>
                          Err (TypeError_read VUndefined
                                 (if String.eqb (agg_name aggFn) "count"
                                  then "length" else "map"))
                      end in
                    match push_cell r aggField cell with
                    | Some r' => Ok r'
                    | None => Err (TypeError_read VUndefined "push")
                    end)
             (Ok r) (List.map fst specs))
    (Ok (front
         ++ List.map (fun spec =>
                        (fst (fst spec),
                         List.map (fun value => snd spec (indices_of value))
                           done))
              specs))
    todo =
  Ok (front
      ++ List.map (fun spec =>
                     (fst (fst spec),
                      List.map (fun value => snd spec (indices_of value))
                        (done ++ todo)))
           specs).
Proof.
  intros Hnodup Haggregates Htodo. revert done.
  induction Htodo as [|value todo Hvalue _ IH]; intros done;
    cbn [foldl].
  - now rewrite app_nil_r.
  - cbn [bind]. cbv zeta. rewrite Hvalue.
    pose proof (aggregate_one_group NaN js_divide Math_min Math_max table
                  (indices_of value)
                  (fun f => List.map (fun value => f (indices_of value)) done)
                  front specs [] Hnodup Haggregates) as Hgroup.
    cbn [List.map app] in Hgroup. rewrite Hgroup. clear Hgroup.
    replace (done ++ value :: todo) with ((done ++ [value]) ++ todo)
      by now rewrite <- app_assoc.
    rewrite <- IH. do 3 f_equal.
    apply List.map_ext. intros spec. now rewrite List.map_app.
Qed.

End GroupByTheorems.

(** X27.  [groupBy] on a table that has the group column, its cells
    being primitive values, the names of the group column and of the
    aggregations being distinct ordinary keys and the columns of the
    result each holding one kind of value: the result has one row per
    distinct value of the column that is not null, in the order of first
    appearance, the group column first and then one column per
    aggregation.  In the row of a value, an aggregation named [count]
    gives the number of rows that have the value, an aggregation named
    [sum] whose source field is a column of integers that JavaScript adds
    exactly gives the sum of the integers of these rows, and an
    aggregation with a name of its own gives what it returns for these
    rows, null for undefined.  The schema is not replaced. *)
Theorem groupBy_groups_and_aggregates (NaN : value)
    (js_divide : value -> nat -> value)
    (Math_min Math_max : list value -> value)
    (schema : TableSchema) (table : Table) (field : string)
    (groupByVector : Vector)
    (specs : list (string * Aggregation * (list nat -> value))) :
  let groups :=
    foldl set_add []
      (List.filter (fun v => negb (is_nullish v)) groupByVector) in
  let columns_of_result :=
    (field, groups)
    :: List.map (fun spec =>
                   (fst (fst spec),
                    List.map (fun value =>
                                stored
                                  (snd spec
                                     (group_indices groupByVector value)))
                      groups))
         specs in
  getChild table (VStr field) = Some groupByVector ->
  Forall (fun v => primitive v = true) groupByVector ->
  NoDup (field :: List.map (fun spec => fst (fst spec)) specs) ->
  arrow_columns columns_of_result = true ->
  Forall (fun spec => aggregates table (snd (fst spec)) (snd spec)) specs ->
  NoDup groups /\
  (forall v, In v groups <-> In v groupByVector /\ is_nullish v = false) /\
  groupBy_executor (aggregate NaN js_divide Math_min Math_max field) field
    (List.map fst specs) schema table =
  Ok {| res_table := columns_of_result; res_schema := None |}.
Proof.
  intros groups columns_of_result Hchild Hcells Hnodup _ Haggregates.
  subst columns_of_result.
  destruct (foldl_set_add_spec
              (List.filter (fun v => negb (is_nullish v)) groupByVector) [])
    as [Hdistinct Hmembers].
  { apply List.Forall_forall. intros v [Hin _]%List.filter_In.
    rewrite List.Forall_forall in Hcells. now apply Hcells. }
  { constructor. }
  fold groups in Hdistinct, Hmembers.
  assert (Hgroups : forall v, In v groups <->
                              In v groupByVector /\ is_nullish v = false).
  { intros v. rewrite Hmembers, List.filter_In, negb_true_iff. cbn.
    tauto. }
  split; [exact Hdistinct|]. split; [exact Hgroups|].
  unfold groupBy_executor. rewrite Hchild. unfold aggregate, groupBy_groups.
  pose proof (groupBy_groups_fold groupByVector
                (seq 0 (length groupByVector))) as [Hset Hmap].
  cbv zeta in Hset, Hmap.
  destruct (foldl _ _ (seq 0 (length groupByVector)))
    as [uniqueValues valueToIndices].
  cbn [fst snd] in Hset, Hmap.
  assert (Hvector : List.map (get groupByVector)
                      (seq 0 (length groupByVector)) = groupByVector).
  { unfold get. rewrite (map_nth_seq (fun v => v)). apply List.map_id. }
  rewrite Hvector in Hset. fold groups in Hset. subst uniqueValues.
  rewrite (init_columns [] _ [(field, groups)])
    by (rewrite List.map_map; exact Hnodup).
  rewrite !List.map_map.
  pose proof (aggregate_groups NaN js_divide Math_min Math_max table
                valueToIndices (group_indices groupByVector)
                [(field, groups)] specs groups []) as Hloop.
  cbn [List.map] in Hloop.
  rewrite Hloop; clear Hloop.
  - cbn [bind app List.map tableFromArrays]. do 3 f_equal.
    + f_equal.
      transitivity (List.map (fun v => v) groups); [|apply List.map_id].
      apply List.map_ext_in. intros v [_ Hv]%Hgroups. now rewrite Hv.
    + rewrite List.map_map. apply List.map_ext. intros spec.
      now rewrite List.map_map.
  - exact Hnodup.
  - exact Haggregates.
  - apply List.Forall_forall. intros value [Hin Hvalue]%Hgroups.
    rewrite Hmap.
    assert (Hsame : List.filter
                      (fun i => negb (is_nullish (get groupByVector i))
                                && strict_eq (get groupByVector i) value)
                      (seq 0 (length groupByVector)) =
                    group_indices groupByVector value).
    { apply List.filter_ext. intros i.
      destruct (strict_eq (get groupByVector i) value) eqn:Heq;
        [|apply andb_false_r].
      apply strict_eq_eq in Heq. now rewrite Heq, Hvalue. }
    rewrite Hsame.
    destruct (In_nth _ _ VNull Hin) as (i & Hi & Hnth).
    assert (Hmember : In i (group_indices groupByVector value)).
    { apply List.filter_In. split; [apply in_seq; lia|].
      unfold get. rewrite Hnth. apply strict_eq_refl.
      rewrite List.Forall_forall in Hcells. now apply Hcells. }
    now destruct (group_indices groupByVector value).
Qed.

Lemma groupBy_groups_and_aggregates_witness :
  groupBy_executor
    (aggregate VNull (fun v _ => v) (fun _ => VNull) (fun _ => VNull)
       "region")
    "region"
    [("n", count_aggregation); ("total", sum_aggregation VNull "sales")]
    people_schema sales =
  Ok {| res_table := [("region", [VStr "North"; VStr "South"]);
                      ("n", [VNum 2; VNum 1]);
                      ("total", [VNum 250; VNum 120])];
        res_schema := None |}.
Proof.
  refine (proj2 (proj2 (groupBy_groups_and_aggregates VNull (fun v _ => v)
                          (fun _ => VNull) (fun _ => VNull) people_schema
                          sales "region"
                          [VStr "North"; VStr "North"; VStr "South"]
                          [("n", count_aggregation,
                            fun indices =>
                              VNum (Z.of_nat (length indices)));
                           ("total", sum_aggregation VNull "sales",
                            fun indices =>
                              VNum (foldl Z.add 0%Z
                                      (numbers_of
                                         (List.map
                                            (get [VNum 100; VNum 150;
                                                  VNum 120])
                                            indices))))]
                          _ _ _ _ _))).
  - reflexivity.
  - repeat constructor.
  - distinct_names.
  - reflexivity.
  - constructor; [now apply aggregates_count|].
    constructor; [|constructor].
    apply (aggregates_sum sales (sum_aggregation VNull "sales") "sales");
      [reflexivity | reflexivity | discriminate | reflexivity
      | repeat constructor | unfold safe_to_add; cbn; lia].
Defined.
